(** * MTPE-Tool: the post-editing metrics of [app.py] and the evaluation page

    A shallow embedding of the post-editing tool: the word-level edit
    counter and highlighted diff of [app.py] (and of its variant
    [src/app.py]), the Streamlit script that navigates the segments, the
    results page, and the evaluation page [pages/3_Evaluation.py]: its
    user selection, its database lookup and its length guard.

    Conventions of the embedding:
    - a Python [str] is a [string]; each [ascii] stands for the code point
      of the same number, so the texts covered are those whose code points
      are below 256;
    - a Python [float] is a binary64 [float] of the kernel, with its own
      rounding;
    - a Python [int] is a [Z] or, for lengths and list positions, a [nat];
    - a [dict] is a [gmap];
    - [difflib] is embedded from CPython 3.11 ([Lib/difflib.py]);
    - the sum and the mean of a [pandas] column are embedded from [pandas]
      ([skipna=True]) and from the pairwise summation of [numpy]. *)

From Stdlib Require Import ZArith Floats Uint63 Ascii String DecimalString.
From stdpp Require Import base option list gmap strings sorting.

Open Scope Z_scope.
Open Scope nat_scope.

(** ** Python string primitives *)

Module Py.

(** [c.isspace()] for the code points below 256. *)
Definition isspace (c : ascii) : bool :=
  let n := nat_of_ascii c in
  ((9 <=? n) && (n <=? 13)) || ((28 <=? n) && (n <=? 32))
  || (n =? 133) || (n =? 160).

(** [s.split()]: the maximal runs of non-whitespace characters. [cur] is
    the run being read, in reverse. *)
Fixpoint split_from (cur : list ascii) (s : string) : list string :=
  match s with
  | EmptyString =>
      match cur with
      | [] => []
      | _ => [string_of_list_ascii (rev cur)]
      end
  | String c s' =>
      if isspace c then
        match cur with
        | [] => split_from [] s'
        | _ => string_of_list_ascii (rev cur) :: split_from [] s'
        end
      else split_from (c :: cur) s'
  end.

(** [s.split()]. *)
Definition split (s : string) : list string := split_from [] s.

(** [s.startswith(p)]. *)
Definition startswith (s p : string) : bool := String.prefix p s.

(** [s[n:]]. *)
Fixpoint drop_chars (n : nat) (s : string) : string :=
  match n, s with
  | 0, _ => s
  | S n', String _ s' => drop_chars n' s'
  | S _, EmptyString => EmptyString
  end.

(** [s.lstrip()], [s.rstrip()] and [s.strip()]. *)
Fixpoint lstrip (s : string) : string :=
  match s with
  | String c s' => if isspace c then lstrip s' else s
  | EmptyString => EmptyString
  end.

Fixpoint rstrip (s : string) : string :=
  match s with
  | EmptyString => EmptyString
  | String c s' =>
      match rstrip s' with
      | EmptyString => if isspace c then EmptyString else String c EmptyString
      | r => String c r
      end
  end.

Definition strip (s : string) : string := rstrip (lstrip s).

(** [sep.join(parts)]. *)
Fixpoint join (sep : string) (parts : list string) : string :=
  match parts with
  | [] => ""
  | [p] => p
  | p :: ps => p +:+ sep +:+ join sep ps
  end.

(** [c * n] for a one-character string [c]. *)
Definition repeat_char (c : ascii) (n : nat) : string :=
  string_of_list_ascii (replicate n c).

(** [s.split(sep)] for a one-character separator: the fields between the
    separators, empty ones included. *)
Fixpoint split_on_from (sep : ascii) (cur : list ascii) (s : string)
  : list string :=
  match s with
  | EmptyString => [string_of_list_ascii (rev cur)]
  | String c s' =>
      if Ascii.eqb c sep
      then string_of_list_ascii (rev cur) :: split_on_from sep [] s'
      else split_on_from sep (c :: cur) s'
  end.

(** [s.split(sep)]. *)
Definition split_on (sep : ascii) (s : string) : list string :=
  split_on_from sep [] s.

(** [str(n)] for a non-negative integer. *)
Definition str_of_nat (n : nat) : string :=
  NilZero.string_of_uint (Nat.to_uint n).

(** [float(n)]. *)
Definition float_of_nat (n : nat) : float :=
  PrimFloat.of_uint63 (Uint63.of_Z (Z.of_nat n)).

(** [x[lo:hi]] for in-range positions. *)
Definition slice {A} (x : list A) (lo hi : nat) : list A :=
  take (hi - lo) (drop lo x).

(** [s.split(sep, 1)] for a one-character separator: [s] as it is when it
    holds no separator, else the part before the first separator and the
    part after it. *)
Fixpoint split_once_from (sep : ascii) (cur : list ascii) (s : string)
  : list string :=
  match s with
  | EmptyString => [string_of_list_ascii (rev cur)]
  | String c s' =>
      if Ascii.eqb c sep then [string_of_list_ascii (rev cur); s']
      else split_once_from sep (c :: cur) s'
  end.

Definition split_once (sep : ascii) (s : string) : list string :=
  split_once_from sep [] s.

End Py.

(** ** [difflib.SequenceMatcher]

    [Differ()] creates its matchers with [isjunk=None] and the default
    [autojunk=True]: the junk set is empty, and only the "popular" elements
    of a long second sequence are dropped from the index. *)

Module SequenceMatcher.
Section Matcher.
Context `{Countable A}.

(** [_calculate_ratio]. *)
Definition calculate_ratio (matches length : nat) : float :=
  if length =? 0 then 1.0%float
  else (2.0 * Py.float_of_nat matches / Py.float_of_nat length)%float.

(** [__chain_b]: for each element of [b] the positions where it occurs,
    in increasing order; when [b] has 200 elements or more, the elements
    that occur more than [n // 100 + 1] times are removed. *)
Definition index_b (b : list A) : gmap A (list nat) :=
  fold_left
    (λ (b2j : gmap A (list nat)) '(i, elt),
       <[elt := default [] (b2j !! elt) ++ [i]]> b2j)
    (imap pair b) ∅.

(** [b2j] as [__chain_b] leaves it. *)
Definition chain_b (b : list A) : gmap A (list nat) :=
  let b2j := index_b b in
  let n := length b in
  if 200 <=? n then
    let ntest := n / 100 + 1 in
    filter (λ '(_, idxs), ¬ (ntest < length idxs)) b2j
  else b2j.

(** The three running values [besti, bestj, bestsize]. *)
Definition Match : Type := nat * nat * nat.

(** The inner loop of [find_longest_match], over the positions of [a[i]]
    in [b]: [continue] below [blo], [break] from [bhi] on. *)
Fixpoint longest_row (j2len : gmap nat nat) (blo bhi i : nat)
    (js : list nat) (newj2len : gmap nat nat) (best : Match)
  : gmap nat nat * Match :=
  match js with
  | [] => (newj2len, best)
  | j :: js' =>
      if j <? blo then longest_row j2len blo bhi i js' newj2len best
      else if bhi <=? j then (newj2len, best)
      else
        let k := match j with
                 | 0 => 0
                 | S j' => default 0 (j2len !! j')
                 end + 1 in
        let newj2len := <[j := k]> newj2len in
        let best := if best.2 <? k then (i + 1 - k, j + 1 - k, k) else best in
        longest_row j2len blo bhi i js' newj2len best
  end.

(** The outer loop, [for i in range(alo, ahi)]. *)
Definition longest_rows (a : list A) (b2j : gmap A (list nat))
    (alo ahi blo bhi : nat) : Match :=
  (fold_left
     (λ '(j2len, best) i,
        longest_row j2len blo bhi i
          (default [] (a !! i ≫= (b2j !!.))) ∅ best)
     (seq alo (ahi - alo)) (∅, (alo, blo, 0))).2.

(** [a[i] == b[j]] for positions of the two sequences. *)
Definition same_at (a b : list A) (i j : nat) : bool :=
  match a !! i, b !! j with
  | Some x, Some y => bool_decide (x = y)
  | _, _ => false
  end.

(** First [while]: grow the block to the left. *)
Fixpoint extend_left (a b : list A) (alo blo besti bestj bestsize : nat)
  : Match :=
  match besti, bestj with
  | S i', S j' =>
      if (alo <? besti) && (blo <? bestj) && same_at a b i' j'
      then extend_left a b alo blo i' j' (S bestsize)
      else (besti, bestj, bestsize)
  | _, _ => (besti, bestj, bestsize)
  end.

(** Second [while]: grow the block to the right. [fuel] bounds the number
    of rounds; [ahi - (besti + bestsize)] rounds are the most the loop
    condition allows. *)
Fixpoint extend_right (a b : list A) (ahi bhi besti bestj bestsize : nat)
    (fuel : nat) : nat :=
  match fuel with
  | 0 => bestsize
  | S fuel' =>
      if (besti + bestsize <? ahi) && (bestj + bestsize <? bhi)
         && same_at a b (besti + bestsize) (bestj + bestsize)
      then extend_right a b ahi bhi besti bestj (S bestsize) fuel'
      else bestsize
  end.

(** [find_longest_match]. The last two [while] loops of the source extend
    over junk elements only and never run with an empty junk set. *)
Definition find_longest_match (a b : list A) (b2j : gmap A (list nat))
    (alo ahi blo bhi : nat) : Match :=
  let '(besti, bestj, bestsize) := longest_rows a b2j alo ahi blo bhi in
  let '(besti, bestj, bestsize) :=
    extend_left a b alo blo besti bestj bestsize in
  let bestsize :=
    extend_right a b ahi bhi besti bestj bestsize
      (ahi - (besti + bestsize)) in
  (besti, bestj, bestsize).

(** A region [(alo, ahi, blo, bhi)] still to be searched. *)
Definition Region : Type := nat * nat * nat * nat.

(** The [while queue:] loop of [get_matching_blocks]. The head of [queue]
    is the last element of the Python list, the one [queue.pop()] takes.
    Each round takes one region; [fuel] bounds the number of rounds. *)
Fixpoint matching_loop (a b : list A) (b2j : gmap A (list nat))
    (fuel : nat) (queue : list Region) (matching_blocks : list Match)
  : list Match :=
  match fuel, queue with
  | 0, _ | _, [] => matching_blocks
  | S fuel', (alo, ahi, blo, bhi) :: queue =>
      let '(i, j, k) := find_longest_match a b b2j alo ahi blo bhi in
      if k =? 0 then matching_loop a b b2j fuel' queue matching_blocks
      else
        let matching_blocks := matching_blocks ++ [(i, j, k)] in
        let queue :=
          if (alo <? i) && (blo <? j) then (alo, i, blo, j) :: queue
          else queue in
        let queue :=
          if (i + k <? ahi) && (j + k <? bhi)
          then (i + k, ahi, j + k, bhi) :: queue
          else queue in
        matching_loop a b b2j fuel' queue matching_blocks
  end.

(** The order of tuples that [matching_blocks.sort()] uses. *)
Definition match_le (x y : Match) : Prop :=
  let '(i1, j1, k1) := x in
  let '(i2, j2, k2) := y in
  i1 < i2 ∨ (i1 = i2 ∧ (j1 < j2 ∨ (j1 = j2 ∧ k1 ≤ k2))).

#[export] Instance match_le_dec : RelDecision match_le.
Proof. intros [[i1 j1] k1] [[i2 j2] k2]; simpl; apply _. Defined.

(** The loop that merges adjacent blocks: the state is
    [(i1, j1, k1, non_adjacent)]. *)
Definition collapse_step (st : nat * nat * nat * list Match) (x : Match)
  : nat * nat * nat * list Match :=
  let '(i1, j1, k1, non_adjacent) := st in
  let '(i2, j2, k2) := x in
  if (i1 + k1 =? i2) && (j1 + k1 =? j2) then (i1, j1, k1 + k2, non_adjacent)
  else
    (i2, j2, k2,
     if k1 =? 0 then non_adjacent else non_adjacent ++ [(i1, j1, k1)]).

(** The blocks after the merging loop, the running block added if it is
    not empty. *)
Definition collapse (matching_blocks : list Match) : list Match :=
  let '(i1, j1, k1, non_adjacent) :=
    fold_left collapse_step matching_blocks (0, 0, 0, []) in
  if k1 =? 0 then non_adjacent else non_adjacent ++ [(i1, j1, k1)].

(** Rounds granted to the work-list loop; [matching_loop_fuel] shows that
    the loop has emptied its queue by then. *)
Definition matching_fuel (a : list A) : nat := 2 * length a + 1.

(** [get_matching_blocks]. *)
Definition get_matching_blocks (a b : list A) : list Match :=
  let la := length a in
  let lb := length b in
  let matching_blocks :=
    matching_loop a b (chain_b b) (matching_fuel a) [(0, la, 0, lb)] [] in
  collapse (merge_sort match_le matching_blocks) ++ [(la, lb, 0)].

(** The tags ['replace'], ['delete'], ['insert'] and ['equal']. *)
Inductive Tag := Replace | Delete | Insert | Equal.

(** An opcode [(tag, i1, i2, j1, j2)]. *)
Definition Opcode : Type := Tag * nat * nat * nat * nat.

(** The loop of [get_opcodes]: the state is [(i, j, answer)]. *)
Definition opcode_step (st : nat * nat * list Opcode) (x : Match)
  : nat * nat * list Opcode :=
  let '(i, j, answer) := st in
  let '(ai, bj, size) := x in
  let answer :=
    if (i <? ai) && (j <? bj) then answer ++ [(Replace, i, ai, j, bj)]
    else if i <? ai then answer ++ [(Delete, i, ai, j, bj)]
    else if j <? bj then answer ++ [(Insert, i, ai, j, bj)]
    else answer in
  let '(i, j) := (ai + size, bj + size) in
  let answer :=
    if size =? 0 then answer else answer ++ [(Equal, ai, i, bj, j)] in
  (i, j, answer).

(** [get_opcodes]. *)
Definition get_opcodes (a b : list A) : list Opcode :=
  (fold_left opcode_step (get_matching_blocks a b) (0, 0, [])).2.

(** [ratio]. *)
Definition ratio (a b : list A) : float :=
  let matches := sum_list ((λ triple : Match, triple.2) <$> get_matching_blocks a b) in
  calculate_ratio matches (length a + length b).

(** [fullbcount], the number of occurrences of each element of [b]; the
    state of the loop of [quick_ratio] is [(avail, matches)]. *)
Definition fullbcount (b : list A) : gmap A Z :=
  fold_left (λ (m : gmap A Z) elt, <[elt := (default 0 (m !! elt) + 1)%Z]> m)
    b ∅.

(** [quick_ratio]. *)
Definition quick_ratio (a b : list A) : float :=
  let fullbcount := fullbcount b in
  let '(_, matches) :=
    fold_left
      (λ '((avail, matches) : gmap A Z * nat) elt,
         let numb :=
           match avail !! elt with
           | Some n => n
           | None => default 0%Z (fullbcount !! elt)
           end in
         (<[elt := (numb - 1)%Z]> avail,
          if (0 <? numb)%Z then matches + 1 else matches))
      a (∅, 0) in
  calculate_ratio matches (length a + length b).

(** [real_quick_ratio]. *)
Definition real_quick_ratio (a b : list A) : float :=
  let la := length a in
  let lb := length b in
  calculate_ratio (la `min` lb) (la + lb).

End Matcher.
End SequenceMatcher.

(** ** [difflib.Differ]

    [Differ()] is used with its defaults: no line junk, no character junk.
    The sequences compared here are lists of tokens, so a "line" of the
    delta is a two-character tag followed by a token. *)

Module Differ.
Import SequenceMatcher.

(** The line feed that ends a line of hints. *)
Definition newline : string := String "010"%char "".

(** [_dump]: one line ['%s %s' % (tag, x[i])] for each [i] of
    [range(lo, hi)]. *)
Definition dump (tag : string) (x : list string) (lo hi : nat)
  : list string :=
  (λ line, tag +:+ " " +:+ line) <$> Py.slice x lo hi.

(** [_plain_replace]: the shorter block first. *)
Definition plain_replace (a : list string) (alo ahi : nat)
    (b : list string) (blo bhi : nat) : list string :=
  if bhi - blo <? ahi - alo
  then dump "+" b blo bhi ++ dump "-" a alo ahi
  else dump "-" a alo ahi ++ dump "+" b blo bhi.

(** [_keep_original_ws]. *)
Definition keep_original_ws (s tag_s : string) : string :=
  string_of_list_ascii
    ((λ '(c, tag_c),
        if Ascii.eqb tag_c " " && Py.isspace c then c else tag_c)
       <$> zip (list_ascii_of_string s) (list_ascii_of_string tag_s)).

(** [_qformat]. *)
Definition qformat (aline bline atags btags : string) : list string :=
  let atags := Py.rstrip (keep_original_ws aline atags) in
  let btags := Py.rstrip (keep_original_ws bline btags) in
  ["- " +:+ aline]
  ++ (if decide (atags = "") then [] else ["? " +:+ atags +:+ newline])
  ++ ["+ " +:+ bline]
  ++ (if decide (btags = "") then [] else ["? " +:+ btags +:+ newline]).

(** The intraline marking of a synch pair: the loop over the opcodes of
    the two lines read as character sequences builds [(atags, btags)]. *)
Definition intraline_tags (aelt belt : string) : string * string :=
  fold_left
    (λ '(atags, btags) '(tag, ai1, ai2, bj1, bj2),
       let la := ai2 - ai1 in
       let lb := bj2 - bj1 in
       match tag with
       | Replace =>
           (atags +:+ Py.repeat_char "^" la, btags +:+ Py.repeat_char "^" lb)
       | Delete => (atags +:+ Py.repeat_char "-" la, btags)
       | Insert => (atags, btags +:+ Py.repeat_char "+" lb)
       | Equal =>
           (atags +:+ Py.repeat_char " " la, btags +:+ Py.repeat_char " " lb)
       end)
    (get_opcodes (list_ascii_of_string aelt) (list_ascii_of_string belt))
    ("", "").

(** The search of [_fancy_replace] for a synch pair. [sr_best] is
    [(best_ratio, best_i, best_j)] once a pair has been recorded; until
    then [best_ratio] is 0.74 (the binary64 value nearest to it, written
    out below) and [best_i], [best_j] are unbound. [sr_eq] is
    [(eqi, eqj)]. *)
Record Search := {
  sr_best : option (float * nat * nat);
  sr_eq : option (nat * nat)
}.

(** [best_ratio]. *)
Definition best_ratio (st : Search) : float :=
  match sr_best st with
  | Some (r, _, _) => r
  | None => 0x1.7ae147ae147aep-1%float
  end.

(** [cutoff]. *)
Definition cutoff : float := 0.75%float.

(** The body of the two nested loops, for the pair [(i, j)]. *)
Definition search_step (a b : list string) (j : nat) (st : Search)
    (i : nat) : Search :=
  match a !! i, b !! j with
  | Some ai, Some bj =>
      if decide (ai = bj) then
        match sr_eq st with
        | None => {| sr_best := sr_best st; sr_eq := Some (i, j) |}
        | Some _ => st
        end
      else
        let ca := list_ascii_of_string ai in
        let cb := list_ascii_of_string bj in
        if (best_ratio st <? real_quick_ratio ca cb)%float
           && (best_ratio st <? quick_ratio ca cb)%float
           && (best_ratio st <? ratio ca cb)%float
        then {| sr_best := Some (ratio ca cb, i, j); sr_eq := sr_eq st |}
        else st
  | _, _ => st
  end.

(** The two nested loops, [j] over [range(blo, bhi)] and [i] over
    [range(alo, ahi)]. *)
Definition search (a : list string) (alo ahi : nat) (b : list string)
    (blo bhi : nat) : Search :=
  fold_left
    (λ st j, fold_left (search_step a b j) (seq alo (ahi - alo)) st)
    (seq blo (bhi - blo))
    {| sr_best := None; sr_eq := None |}.

(** The synch pair that [_fancy_replace] settles on: [None] for a plain
    replace, else [(best_i, best_j, identical)], where [identical] says
    that [eqi] is not [None] at that point. *)
Definition synch_point (st : Search) : option (nat * nat * bool) :=
  if (best_ratio st <? cutoff)%float then
    match sr_eq st with
    | None => None
    | Some (eqi, eqj) => Some (eqi, eqj, true)
    end
  else
    match sr_best st with
    | Some (_, best_i, best_j) => Some (best_i, best_j, false)
    | None => None
    end.

(** [_fancy_replace], with [_fancy_helper] as the local [helper]. Each
    nested call is on a strictly shorter pair of blocks; [fuel] bounds the
    nesting, and [(ahi - alo) + (bhi - blo)] is enough. *)
Fixpoint fancy_replace (fuel : nat) (a : list string) (alo ahi : nat)
    (b : list string) (blo bhi : nat) : list string :=
  match fuel with
  | 0 => []
  | S fuel' =>
      let helper alo ahi blo bhi :=
        if alo <? ahi then
          if blo <? bhi then fancy_replace fuel' a alo ahi b blo bhi
          else dump "-" a alo ahi
        else if blo <? bhi then dump "+" b blo bhi
        else [] in
      match synch_point (search a alo ahi b blo bhi) with
      | None => plain_replace a alo ahi b blo bhi
      | Some (best_i, best_j, identical) =>
          let aelt := default "" (a !! best_i) in
          let belt := default "" (b !! best_j) in
          helper alo best_i blo best_j
          ++ (if identical then ["  " +:+ aelt]
              else
                let '(atags, btags) := intraline_tags aelt belt in
                qformat aelt belt atags btags)
          ++ helper (best_i + 1) ahi (best_j + 1) bhi
      end
  end.

(** [compare]. *)
Definition compare (a b : list string) : list string :=
  get_opcodes a b ≫=
    (λ '(tag, alo, ahi, blo, bhi),
       match tag with
       | Replace =>
           fancy_replace ((ahi - alo) + (bhi - blo)) a alo ahi b blo bhi
       | Delete => dump "-" a alo ahi
       | Insert => dump "+" b blo bhi
       | Equal => dump " " a alo ahi
       end).

End Differ.

(** ** [app.py]: the edit counter and the highlighted diff *)

(** [calculate_edit_distance]: [(insertions, deletions)]. *)
Definition calculate_edit_distance (original edited : string) : nat * nat :=
  let diff := Differ.compare (Py.split original) (Py.split edited) in
  let insertions := length (filter (λ d, Py.startswith d "+" = true) diff) in
  let deletions := length (filter (λ d, Py.startswith d "-" = true) diff) in
  (insertions, deletions).

(** The double quote of the style attributes. *)
Definition quote : string := String "034"%char "".

(** The body of the loop of [highlight_differences]: the fragment appended
    for a line of the delta, if any. *)
Definition html_part (word : string) : option string :=
  if Py.startswith word "  " then
    Some ("<span>" +:+ Py.drop_chars 2 word +:+ "</span>")
  else if Py.startswith word "- " then
    Some ("<span style=" +:+ quote +:+ "background-color: #ffcdd2" +:+ quote
          +:+ ">" +:+ Py.drop_chars 2 word +:+ "</span>")
  else if Py.startswith word "+ " then
    Some ("<span style=" +:+ quote +:+ "background-color: #c8e6c9" +:+ quote
          +:+ ">" +:+ Py.drop_chars 2 word +:+ "</span>")
  else None.

(** [highlight_differences]: [html_parts] is the list that the loop builds,
    and the result joins it with single blanks. *)
Definition html_parts (original edited : string) : list string :=
  omap html_part (Differ.compare (Py.split original) (Py.split edited)).

Definition highlight_differences (original edited : string) : string :=
  Py.join " " (html_parts original edited).

(** [load_segments] on the decoded content of the uploaded file. *)
Definition load_segments (uploaded_file : option string) : list string :=
  match uploaded_file with
  | None => []
  | Some content =>
      Py.strip <$>
        filter (λ line, Py.strip line ≠ "") (Py.split_on "010" content)
  end.

(** ** The session state and [save_metrics] *)

(** The dataclass [EditMetrics]. *)
Record EditMetrics := {
  segment_id : Z;
  original : string;
  edited : string;
  edit_time : float;
  insertions : nat;
  deletions : nat
}.

(** [st.session_state] once [init_session_state] has run. *)
Record SessionState := {
  current_segment : Z;
  segments : list string;
  edit_metrics : list EditMetrics;
  start_time : option float
}.

(** The values [init_session_state] gives to a new session. *)
Definition init_session_state : SessionState :=
  {| current_segment := 0; segments := []; edit_metrics := [];
     start_time := None |}.

(** Assignments to the four variables of the session. *)
Definition set_current_segment (v : Z) (s : SessionState) : SessionState :=
  {| current_segment := v; segments := segments s;
     edit_metrics := edit_metrics s; start_time := start_time s |}.

Definition set_segments (v : list string) (s : SessionState) : SessionState :=
  {| current_segment := current_segment s; segments := v;
     edit_metrics := edit_metrics s; start_time := start_time s |}.

Definition set_edit_metrics (v : list EditMetrics) (s : SessionState)
  : SessionState :=
  {| current_segment := current_segment s; segments := segments s;
     edit_metrics := v; start_time := start_time s |}.

Definition set_start_time (v : option float) (s : SessionState)
  : SessionState :=
  {| current_segment := current_segment s; segments := segments s;
     edit_metrics := edit_metrics s; start_time := v |}.

(** [save_metrics]; [now] is the value [time.time()] returns. *)
Definition save_metrics (original edited : string) (now : float)
    (s : SessionState) : SessionState :=
  match start_time s with
  | None => s
  | Some started =>
      let edit_time := (now - started)%float in
      let '(insertions, deletions) :=
        calculate_edit_distance original edited in
      let metrics :=
        {| segment_id := current_segment s; original := original;
           edited := edited; edit_time := edit_time;
           insertions := insertions; deletions := deletions |} in
      set_edit_metrics (edit_metrics s ++ [metrics]) s
  end.

(** ** [display_results]: the statistics and the two exports *)

(** A [pandas.DataFrame]: the column labels and the rows of cells. *)
Inductive Cell :=
| CInt (z : Z)
| CFloat (x : float)
| CStr (t : string).

Record DataFrame := {
  columns : list string;
  rows : list (list Cell)
}.

(** [vars(m)]: the fields of the dataclass in declaration order. *)
Definition vars (m : EditMetrics) : list (string * Cell) :=
  [("segment_id", CInt (segment_id m));
   ("original", CStr (original m));
   ("edited", CStr (edited m));
   ("edit_time", CFloat (edit_time m));
   ("insertions", CInt (Z.of_nat (insertions m)));
   ("deletions", CInt (Z.of_nat (deletions m)))].

(** [pd.DataFrame(dicts)] for dictionaries with the same keys in the same
    order: the keys of the first one are the columns; no column exists when
    [dicts] is empty. *)
Definition make_frame (dicts : list (list (string * Cell))) : DataFrame :=
  {| columns := default [] (fmap (M := list) fst <$> head dicts);
     rows := fmap (M := list) snd <$> dicts |}.

(** [df[label]]: [None] stands for the [KeyError] of a missing column. *)
Definition column (df : DataFrame) (label : string) : option (list Cell) :=
  i ← list_find (λ c, c = label) (columns df);
  Some (omap (λ row : list Cell, row !! i.1) (rows df)).

(** [df.drop(columns=[label])]: [None] for the [KeyError]. *)
Definition drop_column (df : DataFrame) (label : string) : option DataFrame :=
  i ← list_find (λ c, c = label) (columns df);
  Some {| columns := delete i.1 (columns df);
          rows := delete i.1 <$> rows df |}.

(** [numpy]'s pairwise sum of a contiguous array of binary64 numbers
    ([DOUBLE_pairwise_sum]): fewer than 8 numbers are added in order,
    starting from -0.0; up to 128 numbers are added into eight running
    sums, which are then added as a tree, and the numbers left over are
    added in order; a longer array is cut in two near its middle, at a
    multiple of 8. *)
Definition sum_in_order (start : float) (xs : list float) : float :=
  fold_left (λ acc x, (acc + x)%float) xs start.

(** The loop over the blocks of 8 numbers that follow the first one; [r]
    holds the eight running sums. *)
Fixpoint unrolled (blocks : nat) (r xs : list float) : list float :=
  match blocks with
  | 0 => r
  | S blocks =>
      unrolled blocks (zip_with (λ a x, (a + x)%float) r (take 8 xs))
        (drop 8 xs)
  end.

(** The case of 8 to 128 numbers. *)
Definition block_sum (xs : list float) : float :=
  let n := length xs in
  let r := unrolled (n / 8 - 1) (take 8 xs) (drop 8 xs) in
  let res :=
    match r with
    | [r0; r1; r2; r3; r4; r5; r6; r7] =>
        (((r0 + r1) + (r2 + r3)) + ((r4 + r5) + (r6 + r7)))%float
    | _ => 0%float
    end in
  sum_in_order res (drop (n - n mod 8) xs).

(** [fuel] bounds the depth of the recursion; the length of the array is
    enough. *)
Fixpoint pairwise_sum (fuel : nat) (xs : list float) : float :=
  let n := length xs in
  if n <? 8 then sum_in_order neg_zero xs
  else if n <=? 128 then block_sum xs
  else
    match fuel with
    | 0 => 0%float
    | S fuel =>
        let n2 := n / 2 - (n / 2) mod 8 in
        (pairwise_sum fuel (take n2 xs) + pairwise_sum fuel (drop n2 xs))%float
    end.

(** The numbers of a float column as [sum] and [mean] take them: with
    [skipna=True], the default, a NaN counts as 0.0 in the sum and is left
    out of the count by which [mean] divides. *)
Definition float_values (cells : list Cell) : list float :=
  omap (λ c, match c with
             | CFloat x => Some (if is_nan x then 0%float else x)
             | _ => None
             end) cells.

Definition float_count (cells : list Cell) : nat :=
  length (omap (λ c, match c with
                     | CFloat x => if is_nan x then None else Some x
                     | _ => None
                     end) cells).

(** The sum of a float column: [numpy] adds the pairwise sum of the column
    to 0.0. For fewer than eight rows these are the additions in row
    order. *)
Definition float_sum (cells : list Cell) : float :=
  let values := float_values cells in
  (0 + pairwise_sum (length values) values)%float.

(** The sum of an [int64] column: every addition wraps around modulo 2^64;
    so does the sum of all of them. *)
Definition wrap64 (z : Z) : Z :=
  ((z + 2 ^ 63) mod 2 ^ 64 - 2 ^ 63)%Z.

Definition int_sum (cells : list Cell) : Z :=
  fold_left
    (λ acc c, match c with CInt z => wrap64 (acc + z) | _ => acc end)
    cells 0%Z.

(** The five numbers that both variants show with [st.metric], before
    they are formatted. *)
Record Statistics := {
  total_segments : nat;
  total_time : float;
  average_time : float;
  total_insertions : Z;
  total_deletions : Z
}.

(** The values of the objects handed to [json.dumps]. *)
Inductive Json :=
| JInt (z : Z)
| JNumber (x : float)
| JString (t : string).

(** What [display_results] hands to the page: the statistics, the
    "Total Edits" metric, which only [src/app.py] shows, the frame that
    [to_csv(index=False)] writes and the list that [json.dumps] writes. *)
Record Results := {
  statistics : Statistics;
  total_edits : option Z;
  csv : DataFrame;
  json_data : list (list (string * Json))
}.

Section DisplayResults.
(** The built-in [round(x, ndigits)] on floats. *)
Variable round : float → Z → float.

(** The object appended to [json_data] for a record. *)
Definition json_object (metric : EditMetrics) : list (string * Json) :=
  [("segment_id", JInt (segment_id metric));
   ("source", JString (original metric));
   ("post_edited", JString (edited metric));
   ("edit_time_seconds", JNumber (round (edit_time metric) 2));
   ("insertions", JInt (Z.of_nat (insertions metric)));
   ("deletions", JInt (Z.of_nat (deletions metric)))].

(** The five numbers that both variants compute from the frame. *)
Definition statistics_of (df : DataFrame) : option Statistics :=
  edit_time ← column df "edit_time";
  insertions ← column df "insertions";
  deletions ← column df "deletions";
  Some {| total_segments := length (rows df);
          total_time := float_sum edit_time;
          average_time :=
            (float_sum edit_time
             / Py.float_of_nat (float_count edit_time))%float;
          total_insertions := int_sum insertions;
          total_deletions := int_sum deletions |}.

(** [display_results] of [app.py]; [None] stands for the [KeyError] that
    an empty list of metrics leads to. *)
Definition display_results (edit_metrics : list EditMetrics)
  : option Results :=
  let df := make_frame (vars <$> edit_metrics) in
  stats ← statistics_of df;
  Some {| statistics := stats; total_edits := None; csv := df;
          json_data := json_object <$> edit_metrics |}.

(** [display_results] of [src/app.py]: the [segment_id] column is dropped
    from the frame first, and "Total Edits" shows the sum of the two
    [int64] totals. *)
Definition display_results_src (edit_metrics : list EditMetrics)
  : option Results :=
  let df := make_frame (vars <$> edit_metrics) in
  df ← drop_column df "segment_id";
  stats ← statistics_of df;
  Some {| statistics := stats;
          total_edits :=
            Some (wrap64 (total_insertions stats + total_deletions stats));
          csv := df;
          json_data := json_object <$> edit_metrics |}.
End DisplayResults.

(** The texts that the two download buttons of [display_results] offer:
    what [to_csv(index=False)] writes for the frame and what [json.dumps]
    writes for the list. The two writers, of [pandas] and of [json], are
    parameters. *)
Definition downloads (to_csv : DataFrame → string)
    (dumps : list (list (string * Json)) → string) (results : Results)
  : string * string :=
  (to_csv (csv results), dumps (json_data results)).

(** ** The Streamlit script [main]

    Streamlit runs [main] from the top on every interaction. A [Run] holds
    what the widgets and the clock return during one such run. *)

(** The values that [time.time()] returns during a run. The reading of the
    statistics expander is only shown, and is left out. *)
Record Clock := {
  at_display : float;  (* [time.time()] when the segment is displayed *)
  at_save : float      (* [time.time()] in [save_metrics] *)
}.

(** The widgets and the clock during one run. *)
Record Run := {
  uploaded_file : option string;  (* content of the uploaded file, if any *)
  segment_select : option nat;    (* the operator's choice; [None]: untouched *)
  edit_area : option string;      (* the text typed; [None]: untouched *)
  prev_segment : bool;            (* "Previous" was clicked *)
  next_segment : bool;            (* "Next" was clicked *)
  clock : Clock
}.

Inductive Exception :=
| StreamlitAPIException  (* [st.selectbox] with [index] out of range *)
| IndexError
| KeyError
| TypeError.

(** How a run ends: the script reaches its end (and has shown the results
    page or not), [st.rerun()] restarts it, or an exception stops it. *)
Inductive Outcome :=
| Finished (results_shown : bool)
| Rerun
| Raised (e : Exception).

(** [st.selectbox(label, range(n), index=index)]: the operator's choice
    when it is one of the options, else the option at [index]. *)
Definition selectbox (n : nat) (index : Z) (choice : option nat) : option Z :=
  if decide (0 ≤ index < Z.of_nat n)%Z then
    Some (match choice with
          | Some t => if t <? n then Z.of_nat t else index
          | None => index
          end)
  else None.

(** [st.button(label, disabled=disabled)]: a disabled button is never
    clicked. *)
Definition button (clicked disabled : bool) : bool :=
  clicked && negb disabled.

(** [if st.session_state.start_time is None: ... = time.time()]. *)
Definition start_timer (now : float) (s : SessionState) : SessionState :=
  match start_time s with
  | None => set_start_time (Some now) s
  | Some _ => s
  end.

Module App.

(** [main] of [app.py]. *)
Definition main (r : Run) (s : SessionState) : Outcome * SessionState :=
  if bool_decide (is_Some (uploaded_file r)) && (length (segments s) =? 0)
  then (Rerun, set_segments (load_segments (uploaded_file r)) s)
  else if bool_decide (segments s = []) then (Finished false, s)
  else
    match selectbox (length (segments s)) (current_segment s)
            (segment_select r) with
    | None => (Raised StreamlitAPIException, s)
    | Some segment_idx =>
        let s := set_current_segment segment_idx s in
        match segments s !! Z.to_nat (current_segment s) with
        | None => (Raised IndexError, s)
        | Some current_text =>
            let s := start_timer (at_display (clock r)) s in
            let edited_text := default current_text (edit_area r) in
            if button (prev_segment r) (current_segment s =? 0)%Z then
              let s := save_metrics current_text edited_text
                         (at_save (clock r)) s in
              let s := set_current_segment (current_segment s - 1)%Z s in
              let s := set_start_time None s in
              (Rerun, s)
            else
              let s :=
                if button (next_segment r)
                     (Z.of_nat (length (segments s)) <=? current_segment s)%Z
                then
                  let s := save_metrics current_text edited_text
                             (at_save (clock r)) s in
                  let s := set_current_segment (current_segment s + 1)%Z s in
                  set_start_time None s
                else s in
              let results_shown :=
                (Z.of_nat (length (segments s)) <=? current_segment s)%Z in
              if results_shown && bool_decide (edit_metrics s = [])
              then (Raised KeyError, s)
              else if bool_decide (edited_text ≠ current_text)
                      && bool_decide (start_time s = None)
              then (Raised TypeError, s)
              else (Finished results_shown, s)
        end
    end.

End App.

Module SrcApp.

(** [main] of [src/app.py]. *)
Definition main (r : Run) (s : SessionState) : Outcome * SessionState :=
  if bool_decide (is_Some (uploaded_file r)) && (length (segments s) =? 0)
  then (Rerun, set_segments (load_segments (uploaded_file r)) s)
  else if bool_decide (segments s = []) then (Finished false, s)
  else if (Z.of_nat (length (segments s)) <=? current_segment s)%Z then
    if bool_decide (edit_metrics s = []) then (Raised KeyError, s)
    else (Finished true, s)
  else
    match selectbox (length (segments s)) (current_segment s)
            (segment_select r) with
    | None => (Raised StreamlitAPIException, s)
    | Some segment_idx =>
        let s := set_current_segment segment_idx s in
        match segments s !! Z.to_nat (current_segment s) with
        | None => (Raised IndexError, s)
        | Some current_text =>
            let s := start_timer (at_display (clock r)) s in
            let edited_text := default current_text (edit_area r) in
            if button (prev_segment r) (current_segment s =? 0)%Z then
              let s := save_metrics current_text edited_text
                         (at_save (clock r)) s in
              let s := set_current_segment (current_segment s - 1)%Z s in
              let s := set_start_time None s in
              (Rerun, s)
            else if button (next_segment r) false then
              let s := save_metrics current_text edited_text
                         (at_save (clock r)) s in
              let s := set_current_segment (current_segment s + 1)%Z s in
              let s := set_start_time None s in
              (Rerun, s)
            else (Finished false, s)
        end
    end.

End SrcApp.

(** ** The navigation of the specification on top of the script

    A transition of the navigator is one interaction of the operator: a
    click on "Next" ([Advance]), a click on "Previous" ([Retreat]) or a
    choice in the segment selector ([Jump]). When the run it starts ends
    in [st.rerun()], the script runs once more with no widget touched. *)

Inductive Transition :=
| Advance (edited_text : string)
| Retreat (edited_text : string)
| Jump (target_index : nat) (edited_text : string).

(** The widgets during the run that a transition starts. *)
Definition run_of (t : Transition) (now : Clock) : Run :=
  match t with
  | Advance edited_text =>
      {| uploaded_file := None; segment_select := None;
         edit_area := Some edited_text; prev_segment := false;
         next_segment := true; clock := now |}
  | Retreat edited_text =>
      {| uploaded_file := None; segment_select := None;
         edit_area := Some edited_text; prev_segment := true;
         next_segment := false; clock := now |}
  | Jump target_index edited_text =>
      {| uploaded_file := None; segment_select := Some target_index;
         edit_area := Some edited_text; prev_segment := false;
         next_segment := false; clock := now |}
  end.

(** The widgets during a run in which nothing is touched; the selector
    shows the current segment. *)
Definition idle (now : Clock) : Run :=
  {| uploaded_file := None; segment_select := None; edit_area := None;
     prev_segment := false; next_segment := false; clock := now |}.

Section Navigator.
(** The script of either variant. *)
Variable main : Run → SessionState → Outcome * SessionState.

(** One interaction: [later] is the clock of the rerun, if there is
    one. *)
Definition interact (r : Run) (later : Clock) (s : SessionState)
  : Outcome * SessionState :=
  match main r s with
  | (Rerun, s') => main (idle later) s'
  | other => other
  end.

(** The session after a transition. *)
Definition transition (t : Transition) (now later : Clock)
    (s : SessionState) : SessionState :=
  (interact (run_of t now) later s).2.

(** [load(segments)]: the file is uploaded in a new session. *)
Definition load (content : string) (now later : Clock) : SessionState :=
  (interact
     {| uploaded_file := Some content; segment_select := None;
        edit_area := None; prev_segment := false; next_segment := false;
        clock := now |} later init_session_state).2.

(** A sequence of transitions, each with its two clocks. *)
Fixpoint transitions (ts : list (Transition * Clock * Clock))
    (s : SessionState) : SessionState :=
  match ts with
  | [] => s
  | (t, now, later) :: ts' => transitions ts' (transition t now later s)
  end.
End Navigator.

(** The guard of a transition in state [s]: a segment is active, and
    [Retreat] is not issued at the first segment nor [Jump] to a segment
    that does not exist. *)
Definition valid (t : Transition) (s : SessionState) : bool :=
  let n := Z.of_nat (length (segments s)) in
  let active := (0 <=? current_segment s)%Z && (current_segment s <? n)%Z in
  match t with
  | Advance _ => active
  | Retreat _ => active && (0 <? current_segment s)%Z
  | Jump target_index _ => active && (Z.of_nat target_index <? n)%Z
  end.

Section ValidSequences.
Variable main : Run → SessionState → Outcome * SessionState.

(** Each transition of the sequence is valid in the state it is issued
    in. *)
Fixpoint all_valid (ts : list (Transition * Clock * Clock))
    (s : SessionState) : bool :=
  match ts with
  | [] => true
  | (t, now, later) :: ts' =>
      valid t s && all_valid ts' (transition main t now later s)
  end.
End ValidSequences.

(** ** [pages/3_Evaluation.py]: the length guard before the scoring *)

Module Evaluation.

(** What the uploaded reference file yields: [process_file] raises, or the
    frame it returns has no [reference] column, or that column is read. *)
Inductive Reference :=
| Unreadable (message : string)
| NoReferenceColumn
| References (lines : list string).

(** The elements that the page shows below the file uploader. *)
Inductive Element :=
| Error (message : string)
| Info (message : string)
| Scores (bleu chrf ter : float) (comparison : list (string * string)).

(** The two elements shown by the [except] branch. *)
Definition processing_error (message : string) : list Element :=
  [Error ("Error processing data: " +:+ message);
   Info "Please make sure your reference file has the correct format."].

(** The message of the length guard. *)
Definition length_mismatch (references post_edited : nat) : string :=
  "Number of reference translations (" +:+ Py.str_of_nat references
  +:+ ") does not match number of post-edited translations ("
  +:+ Py.str_of_nat post_edited +:+ ")".

Section Page.
(** The three corpus scores of [sacrebleu]. *)
Variables corpus_bleu corpus_chrf corpus_ter
  : list string → list (list string) → float.

(** [calculate_metrics]. *)
Definition calculate_metrics (references hypotheses : list string)
  : float * float * float :=
  (corpus_bleu hypotheses [references],
   corpus_chrf hypotheses [references],
   corpus_ter hypotheses [references]).

(** [main], from the point where a user is selected: [reference_file] is
    the uploaded file, if any, [post_edited] what the database returns for
    the user, [calculate] the click on "Calculate Metrics". *)
Definition main (selected_user : string) (reference_file : option Reference)
    (post_edited : list string) (calculate : bool) : list Element :=
  match reference_file with
  | None => []
  | Some (Unreadable message) => processing_error message
  | Some ref_df =>
      if bool_decide (post_edited = []) then
        [Error ("No post-edited translations found for " +:+ selected_user
                +:+ ".")]
      else
        match ref_df with
        | References references =>
            if bool_decide (length references ≠ length post_edited) then
              [Error (length_mismatch (length references)
                        (length post_edited))]
            else if calculate then
              let '(bleu, chrf, ter) :=
                calculate_metrics references post_edited in
              [Scores bleu chrf ter (zip references post_edited)]
            else []
        | _ => processing_error "'reference'"
        end
  end.
End Page.

End Evaluation.

(** ** [pages/3_Evaluation.py]: the users and their post-edited texts *)

Module EvaluationPage.

(** A metric stored in a [user_progress] document: the two keys that the
    page reads, each of which may be missing. *)
Record Metric := {
  segment_id : option Z;
  edited : option string
}.

(** A document of the [user_progress] collection: the keys that the page
    reads, each of which may be missing; names are strings. *)
Record Document := {
  user_name : option string;
  user_surname : option string;
  metrics : option (list Metric)
}.

(** [get_users]: the name and surname of the documents that have both. *)
Definition get_users (user_progress : list Document)
  : list (string * string) :=
  omap (λ doc,
          name ← user_name doc; surname ← user_surname doc;
          Some (name, surname))
    user_progress.

(** [collection.find_one] with the two names as filter: the first document
    that has both. *)
Definition find_one (user_progress : list Document)
    (name surname : string) : option Document :=
  snd <$> list_find
            (λ doc, user_name doc = Some name ∧ user_surname doc = Some surname)
            user_progress.

(** [sorted(xs, key=...)] on elements paired with their integer keys. The
    sort of Python is stable, which determines its result: an element goes
    before the first element that has a greater key. *)
Fixpoint insert_sorted {X} (x : Z * X) (l : list (Z * X)) : list (Z * X) :=
  match l with
  | [] => [x]
  | y :: l' =>
      if (y.1 <? x.1)%Z then y :: insert_sorted x l' else x :: y :: l'
  end.

Definition sorted {X} (l : list (Z * X)) : list (Z * X) :=
  foldr insert_sorted [] l.

(** [get_post_edited_translations]; [inl key] stands for the [KeyError]
    that a metric without that key raises. *)
Definition get_post_edited_translations (user_progress : list Document)
    (user_name user_surname : string) : string + list string :=
  match find_one user_progress user_name user_surname ≫= metrics with
  | Some ms =>
      match mapM (λ x, k ← segment_id x; Some (k, x)) ms with
      | None => inl "segment_id"
      | Some keyed =>
          match mapM (λ m, edited m.2) (sorted keyed) with
          | None => inl "edited"
          | Some texts => inr texts
          end
      end
  | None => inr []
  end.

(** The option shown for a user, [f"{user['name']} {user['surname']}"]. *)
Definition user_option (user : string * string) : string :=
  user.1 +:+ " " +:+ user.2.

Section Page.
(** The three corpus scores of [sacrebleu]. *)
Variables corpus_bleu corpus_chrf corpus_ter
  : list string → list (list string) → float.

(** [main] from its first line: [choice] is the position that the operator
    chose in the user selector, if any, and [None] as a result stands for
    the [ValueError] of unpacking a split that has not two parts. *)
Definition main (user_progress : list Document) (choice : option nat)
    (reference_file : option Evaluation.Reference) (calculate : bool)
  : option (list Evaluation.Element) :=
  let users := get_users user_progress in
  if bool_decide (users = []) then
    Some [Evaluation.Error "No users found in the database."]
  else
    let user_options := user_option <$> users in
    let selected_user :=
      default (default "" (head user_options))
        (choice ≫= (user_options !!.)) in
    match Py.split_once " " selected_user with
    | [selected_name; selected_surname] =>
        Some
          match reference_file with
          | None => []
          | Some (Evaluation.Unreadable message) =>
              Evaluation.processing_error message
          | Some _ =>
              match get_post_edited_translations user_progress
                      selected_name selected_surname with
              | inl key =>
                  Evaluation.processing_error
                    ("'" +:+ key +:+ "'")
              | inr post_edited =>
                  Evaluation.main corpus_bleu corpus_chrf corpus_ter
                    selected_user reference_file post_edited calculate
              end
          end
    | _ => None
    end.
End Page.

End EvaluationPage.

(** * Notions used by the properties *)

(** What both navigation buttons do to the session before the script is
    restarted or goes on: the timer is running by then, the metrics are
    saved, the index moves by [step] and the timer is cleared. *)
Definition leave (step : Z) (current_text edited_text : string)
    (now : Clock) (s : SessionState) : SessionState :=
  let s := start_timer (at_display now) s in
  let s := save_metrics current_text edited_text (at_save now) s in
  let s := set_current_segment (current_segment s + step) s in
  set_start_time None s.

(** The transitions that leave a record behind. *)
Definition recording (t : Transition) : bool :=
  match t with
  | Advance _ | Retreat _ => true
  | Jump _ _ => false
  end.

(** How many transitions of a sequence leave a record behind. *)
Definition recorded (ts : list (Transition * Clock * Clock)) : nat :=
  length (filter (λ x, recording x.1.1 = true) ts).

(** The two segments of the worked scenario, as an uploaded file. *)
Definition scenario_file : string :=
  "The cat sat." +:+ Differ.newline +:+ "It was sunny.".

(** A run during which the clock stands at [x]. *)
Definition tick (x : float) : Clock :=
  {| at_display := x; at_save := x |}.

(** The worked scenario in [src/app.py]: the file is loaded at 100 s, the
    first segment is edited and left at 105 s, the second one is left
    unchanged at 107 s. *)
Definition scenario_src : SessionState :=
  transitions SrcApp.main
    [(Advance "The cat sat on the mat.", tick 105, tick 105);
     (Advance "It was sunny.", tick 107, tick 107)]
    (load SrcApp.main scenario_file (tick 100) (tick 100)).

(** The same in [app.py], whose "Next" does not restart the script: the
    second segment is displayed, and its timer started, by the run of the
    next interaction, here at 105 s. *)
Definition scenario_app : SessionState :=
  let s := load App.main scenario_file (tick 100) (tick 100) in
  let s :=
    transition App.main (Advance "The cat sat on the mat.") (tick 105)
      (tick 105) s in
  let s := (App.main (idle (tick 105)) s).2 in
  transition App.main (Advance "It was sunny.") (tick 107) (tick 107) s.

(** The columns of the frame built from the records. *)
Definition labels : list string :=
  ["segment_id"; "original"; "edited"; "edit_time"; "insertions";
   "deletions"].

(** A row of the frame exported by [app.py]. *)
Definition csv_row (m : EditMetrics) : list Cell :=
  [CInt (segment_id m); CStr (original m); CStr (edited m);
   CFloat (edit_time m); CInt (Z.of_nat (insertions m));
   CInt (Z.of_nat (deletions m))].

(** A row of the frame exported by [src/app.py]. *)
Definition csv_row_src (m : EditMetrics) : list Cell :=
  [CStr (original m); CStr (edited m); CFloat (edit_time m);
   CInt (Z.of_nat (insertions m)); CInt (Z.of_nat (deletions m))].

(** [Delta lines a b]: the lines are a delta from the tokens [a] to the
    tokens [b]. Read in order, the lines tagged with two blanks or with a
    minus sign carry the tokens of [a], those tagged with two blanks or
    with a plus sign carry the tokens of [b], and the lines that start with
    a question mark carry no token. *)
Inductive Delta : list string → list string → list string → Prop :=
| delta_end : Delta [] [] []
| delta_same x lines a b :
    Delta lines a b → Delta (("  " +:+ x) :: lines) (x :: a) (x :: b)
| delta_minus x lines a b :
    Delta lines a b → Delta (("- " +:+ x) :: lines) (x :: a) b
| delta_plus x lines a b :
    Delta lines a b → Delta (("+ " +:+ x) :: lines) a (x :: b)
| delta_hint h lines a b :
    Delta lines a b → Delta (("? " +:+ h) :: lines) a b.

(** The pairs recorded by the search of [_fancy_replace] lie in the two
    blocks, and the pair recorded as identical holds equal tokens. *)
Definition search_in (a : list string) (alo ahi : nat) (b : list string)
    (blo bhi : nat) (st : Differ.Search) : Prop :=
  (∀ i j, Differ.sr_eq st = Some (i, j) →
     alo ≤ i < ahi ∧ blo ≤ j < bhi
     ∧ ∃ x, a !! i = Some x ∧ b !! j = Some x)
  ∧ (∀ r i j, Differ.sr_best st = Some (r, i, j) →
       alo ≤ i < ahi ∧ blo ≤ j < bhi).

(** [_fancy_helper] on top of a function [replace] for the case where both
    blocks are non-empty. *)
Definition fancy_helper (replace : nat → nat → nat → nat → list string)
    (a b : list string) (alo ahi blo bhi : nat) : list string :=
  if alo <? ahi then
    if blo <? bhi then replace alo ahi blo bhi
    else Differ.dump "-" a alo ahi
  else if blo <? bhi then Differ.dump "+" b blo bhi
  else [].

(** The lines that [compare] writes for one opcode. *)
Definition opcode_lines (a b : list string)
    (op : SequenceMatcher.Opcode) : list string :=
  let '(tag, alo, ahi, blo, bhi) := op in
  match tag with
  | SequenceMatcher.Replace =>
      Differ.fancy_replace ((ahi - alo) + (bhi - blo)) a alo ahi b blo bhi
  | SequenceMatcher.Delete => Differ.dump "-" a alo ahi
  | SequenceMatcher.Insert => Differ.dump "+" b blo bhi
  | SequenceMatcher.Equal => Differ.dump " " a alo ahi
  end.

(** How a fragment of the highlighted diff is marked. *)
Inductive Mark := Unmarked | Removed | Added.

#[local] Instance Mark_eq_dec : EqDecision Mark.
Proof. solve_decision. Defined.

(** The markup of a fragment: a token in a plain span, in a span with the
    "removed" background or in a span with the "added" background. *)
Definition fragment (f : Mark * string) : string :=
  match f.1 with
  | Unmarked => "<span>" +:+ f.2 +:+ "</span>"
  | Removed =>
      "<span style=" +:+ quote +:+ "background-color: #ffcdd2" +:+ quote
      +:+ ">" +:+ f.2 +:+ "</span>"
  | Added =>
      "<span style=" +:+ quote +:+ "background-color: #c8e6c9" +:+ quote
      +:+ ">" +:+ f.2 +:+ "</span>"
  end.

Section Notions.
Context `{Countable A}.
Import SequenceMatcher.

(** Every position listed for an element holds that element. *)
Definition index_sound (b : list A) (b2j : gmap A (list nat)) : Prop :=
  ∀ x js j, b2j !! x = Some js → j ∈ js → b !! j = Some x.

(** [a[i:i+k] == b[j:j+k]], position by position. *)
Definition matches (a b : list A) (i j k : nat) : Prop :=
  ∀ d, d < k → ∃ x, a !! (i + d) = Some x ∧ b !! (j + d) = Some x.

(** A block of equal elements inside the region searched. *)
Definition block_in (a b : list A) (alo ahi blo bhi : nat) (m : Match)
  : Prop :=
  alo ≤ m.1.1 ∧ m.1.1 + m.2 ≤ ahi ∧ blo ≤ m.1.2 ∧ m.1.2 + m.2 ≤ bhi
  ∧ matches a b m.1.1 m.1.2 m.2.

(** At row [i], [j2len] maps [j] to the length of a block of equal
    elements that ends at [a[i-1]] and [b[j]] and lies in the region. *)
Definition row_ok (a b : list A) (alo blo bhi i : nat)
    (j2len : gmap nat nat) : Prop :=
  ∀ j k, j2len !! j = Some k →
    1 ≤ k ∧ k ≤ i - alo ∧ k ≤ j + 1 - blo ∧ j < bhi
    ∧ matches a b (i - k) (j + 1 - k) k.

(** The region of the two sequences that a block covers. *)
Definition box (m : Match) : Region :=
  (m.1.1, m.1.1 + m.2, m.1.2, m.1.2 + m.2).

(** [x] ends before [y] starts, in both sequences. *)
Definition before (x y : Region) : Prop :=
  x.1.1.2 ≤ y.1.1.1 ∧ x.2 ≤ y.1.2.

(** One of the two regions ends before the other starts. *)
Definition apart (x y : Region) : Prop := before x y ∨ before y x.

(** [x] is a part of [y]. *)
Definition within (x y : Region) : Prop :=
  y.1.1.1 ≤ x.1.1.1 ∧ x.1.1.2 ≤ y.1.1.2 ∧ y.1.2 ≤ x.1.2 ∧ x.2 ≤ y.2.

(** A region of the two sequences. *)
Definition region_ok (a b : list A) (r : Region) : Prop :=
  r.1.1.1 ≤ r.1.1.2 ≤ length a ∧ r.1.2 ≤ r.2 ≤ length b.

(** A non-empty block of equal elements of the two sequences. *)
Definition good_block (a b : list A) (m : Match) : Prop :=
  0 < m.2 ∧ block_in a b 0 (length a) 0 (length b) m.

(** What the work-list loop keeps: the regions still to be searched and the
    blocks found lie pairwise apart. *)
Definition loop_inv (a b : list A) (queue : list Region)
    (matching_blocks : list Match) : Prop :=
  Forall (region_ok a b) queue
  ∧ Forall (good_block a b) matching_blocks
  ∧ StronglySorted apart queue
  ∧ StronglySorted apart (box <$> matching_blocks)
  ∧ (∀ q m, q ∈ queue → m ∈ matching_blocks → apart q (box m)).

(** A block of the two sequences, possibly empty. *)
Definition whole_block (a b : list A) (m : Match) : Prop :=
  block_in a b 0 (length a) 0 (length b) m.

(** Block [x] ends before block [y] starts, in both sequences. *)
Definition precedes (x y : Match) : Prop := before (box x) (box y).

(** The state of the merging loop: the blocks put aside and the running
    block form a sequence of blocks that follow one another, and all the
    blocks still to come follow the running block. *)
Definition collapse_inv (a b : list A)
    (st : nat * nat * nat * list Match) (rest : list Match) : Prop :=
  let '(i1, j1, k1, non_adjacent) := st in
  Forall (whole_block a b) (non_adjacent ++ [(i1, j1, k1)])
  ∧ StronglySorted precedes (non_adjacent ++ [(i1, j1, k1)])
  ∧ Forall (precedes (i1, j1, k1)) rest
  ∧ Forall (whole_block a b) rest
  ∧ StronglySorted precedes rest.

(** Rounds that the work-list loop can still make: a region whose part of
    [a] has [n] elements accounts for at most [2 * n + 1] of them. *)
Definition rounds_left (queue : list Region) : nat :=
  sum_list ((λ r : Region, 2 * (r.1.1.2 - r.1.1.1) + 1) <$> queue).

End Notions.

Section SameNotions.
Context `{Countable A}.

(** Every list of the index holds the positions of its element, all of
    them and in increasing order. *)
Definition index_exact (b : list A) (b2j : gmap A (list nat)) : Prop :=
  ∀ x js, b2j !! x = Some js →
    js = filter (λ j, b !! j = Some x) (seq 0 (length b)).

(** The number of consecutive indexed elements of [a] that end at
    position [i], that position included. *)
Fixpoint indexed_run (a : list A) (b2j : gmap A (list nat)) (i : nat)
  : nat :=
  match a !! i ≫= (b2j !!.) with
  | None => 0
  | Some _ =>
      match i with
      | 0 => 1
      | S i' => indexed_run a b2j i' + 1
      end
  end.

(** What the rows of [find_longest_match] keep when a sequence is compared
    with itself, before row [i]: the lengths recorded for the previous row
    are bounded by the runs of indexed elements, the diagonal one is that
    run, and the best block lies on the diagonal and is as long as every
    run seen. *)
Definition diagonal_inv (a : list A) (b2j : gmap A (list nat)) (i : nat)
    (j2len : gmap nat nat) (best : SequenceMatcher.Match) : Prop :=
  (∀ j k, j2len !! j = Some k →
     ∃ i', i = S i' ∧ k ≤ indexed_run a b2j (i' `min` j))
  ∧ (∀ i', i = S i' → default 0 (j2len !! i') = indexed_run a b2j i')
  ∧ best.1.1 = best.1.2
  ∧ (∀ m, m < i → indexed_run a b2j m ≤ best.2).

End SameNotions.

(** A segment as [load_segments] keeps them: not empty, with no whitespace
    at either end and no line feed inside. *)
Definition clean (segment : string) : Prop :=
  segment ≠ "" ∧ Py.strip segment = segment
  ∧ ("010"%char) ∉ list_ascii_of_string segment.

(** ** Sessions reached by running the script *)

Section Script.
(** The script of either variant. *)
Variable main : Run → SessionState → Outcome * SessionState.

(** The session after the script has run once for each element of [rs],
    in order: Streamlit keeps the session state from one run to the next,
    however the run ends. *)
Definition runs (rs : list Run) (s : SessionState) : SessionState :=
  fold_left (λ s r, (main r s).2) rs s.
End Script.

(** The record that [save_metrics] builds when segment [current_text],
    displayed since [started], is left with the text [edited_text]. *)
Definition record_of (current_segment : Z) (current_text edited_text : string)
    (started now : float) : EditMetrics :=
  {| segment_id := current_segment; original := current_text;
     edited := edited_text; edit_time := (now - started)%float;
     insertions := (calculate_edit_distance current_text edited_text).1;
     deletions := (calculate_edit_distance current_text edited_text).2 |}.

(** A record that agrees with the segments: its [segment_id] is the
    position of its [original] among them, and its counts are those of
    [calculate_edit_distance] for its two texts. *)
Definition faithful (segments : list string) (m : EditMetrics) : Prop :=
  (0 ≤ segment_id m)%Z
  ∧ segments !! Z.to_nat (segment_id m) = Some (original m)
  ∧ (insertions m, deletions m)
    = calculate_edit_distance (original m) (edited m).

(** Every segment has been left. *)
Definition complete (s : SessionState) : Prop :=
  segments s ≠ []
  ∧ current_segment s = Z.of_nat (length (segments s)).

(** What every run of the script keeps: the index lies between 0 and the
    number of segments, the records are faithful, and there is a record
    once every segment has been left. *)
Definition sound_session (s : SessionState) : Prop :=
  (0 ≤ current_segment s ≤ Z.of_nat (length (segments s)))%Z
  ∧ Forall (faithful (segments s)) (edit_metrics s)
  ∧ (complete s → edit_metrics s ≠ []).

(** The text holds a blank. *)
Definition has_blank (s : string) : Prop :=
  (" "%char) ∈ list_ascii_of_string s.

(** ** Edit times as whole numbers of clock steps

    Between 2004 and 2038 [time.time()] lies in [2^30, 2^31), where
    neighbouring binary64 numbers are 2^-22 apart: every reading of the
    clock is a whole number of steps of 2^-22 s, and so is the difference
    of two readings that [save_metrics] stores. *)

(** The binary64 number nearest to [k * 2^q], which is [k * 2^q] itself
    when [|k| < 2^53]. *)
Definition scaled (q k : Z) : spec_float :=
  binary_normalize prec emax k q false.

(** The number of steps of [2^q] in [x]. *)
Definition ticks (q : Z) (x : float) : Z :=
  match Prim2SF x with
  | S754_finite s m e => cond_Zopp s (Z.shiftl (Zpos m) (e - q))
  | _ => 0%Z
  end.

(** [x] is a whole number of steps of [2^q]. *)
Definition whole_ticks (q : Z) (x : float) : Prop :=
  Prim2SF x = scaled q (ticks q x).










(** * Properties *)

(** ** [save_metrics] *)

Lemma save_metrics_idle original edited now s :
  start_time s = None → save_metrics original edited now s = s.
Proof. intros Hs. unfold save_metrics. by rewrite Hs. Qed.

Lemma save_metrics_running original edited now s started :
  start_time s = Some started →
  ∃ m, save_metrics original edited now s
       = set_edit_metrics (edit_metrics s ++ [m]) s
       ∧ segment_id m = current_segment s.
Proof.
  intros Hs. unfold save_metrics. rewrite Hs.
  destruct (calculate_edit_distance original edited) as [ins del].
  eexists; split; [reflexivity|done].
Qed.

(** C10. Without a running timer [save_metrics] changes nothing; with one,
    it appends exactly one record, whose [segment_id] is the current
    segment, and leaves every other field of the session as it was. *)
Theorem save_metrics_frame (original edited : string) (now : float)
    (s : SessionState) :
  match start_time s with
  | None => save_metrics original edited now s = s
  | Some _ =>
      ∃ m, save_metrics original edited now s
           = set_edit_metrics (edit_metrics s ++ [m]) s
           ∧ segment_id m = current_segment s
  end.
Proof.
  destruct (start_time s) as [started|] eqn:Hs.
  - by apply (save_metrics_running _ _ _ _ started).
  - by apply save_metrics_idle.
Qed.

(** ** Script runs *)

Lemma selectbox_untouched n index :
  (0 ≤ index < Z.of_nat n)%Z → selectbox n index None = Some index.
Proof. intros Hi. unfold selectbox. by rewrite decide_True. Qed.

Lemma selectbox_choice n index t :
  (0 ≤ index < Z.of_nat n)%Z → t < n →
  selectbox n index (Some t) = Some (Z.of_nat t).
Proof.
  intros Hi Ht. unfold selectbox. rewrite decide_True by done.
  by rewrite (proj2 (Nat.ltb_lt _ _) Ht).
Qed.

Lemma selectbox_outside n index choice :
  ¬ (0 ≤ index < Z.of_nat n)%Z → selectbox n index choice = None.
Proof. intros Hi. unfold selectbox. by rewrite decide_False. Qed.

Lemma active_lookup (s : SessionState) :
  (0 ≤ current_segment s < Z.of_nat (length (segments s)))%Z →
  is_Some (segments s !! Z.to_nat (current_segment s)).
Proof. intros Hi. apply lookup_lt_is_Some. lia. Qed.

Lemma start_timer_running now s :
  is_Some (start_time (start_timer now s)).
Proof. unfold start_timer. destruct (start_time s) eqn:E; simpl; eauto. Qed.

Lemma start_timer_fields now s :
  current_segment (start_timer now s) = current_segment s
  ∧ segments (start_timer now s) = segments s
  ∧ edit_metrics (start_timer now s) = edit_metrics s.
Proof. unfold start_timer. by destruct (start_time s). Qed.

Lemma valid_active t s :
  valid t s = true →
  (0 ≤ current_segment s < Z.of_nat (length (segments s)))%Z.
Proof. unfold valid. destruct t; intros Hv; lia. Qed.

Lemma active_segments s :
  (0 ≤ current_segment s < Z.of_nat (length (segments s)))%Z →
  segments s ≠ [].
Proof. intros Hi Hn. rewrite Hn in Hi. simpl in Hi. lia. Qed.

Lemma interact_no_rerun main r later s o s' :
  main r s = (o, s') → o ≠ Rerun → interact main r later s = (o, s').
Proof. intros Hm Ho. unfold interact. rewrite Hm. by destruct o. Qed.

Lemma interact_rerun main r later s s' :
  main r s = (Rerun, s') → interact main r later s = main (idle later) s'.
Proof. intros Hm. unfold interact. by rewrite Hm. Qed.

Lemma set_current_segment_same s :
  set_current_segment (current_segment s) s = s.
Proof. by destruct s. Qed.

(** A run in which the operator only chooses a segment. *)
Lemma App_main_jump target_index edited_text now s :
  valid (Jump target_index edited_text) s = true →
  ∃ o, o ≠ Rerun
       ∧ App.main (run_of (Jump target_index edited_text) now) s
         = (o, start_timer (at_display now)
                 (set_current_segment (Z.of_nat target_index) s)).
Proof.
  intros Hv. pose proof (valid_active _ _ Hv) as Hact.
  assert (Ht : target_index < length (segments s)).
  { unfold valid in Hv. lia. }
  destruct (lookup_lt_is_Some_2 (segments s) target_index Ht) as [txt Htxt].
  pose proof (active_segments _ Hact) as Hne.
  set (s1 := set_current_segment (Z.of_nat target_index) s).
  pose proof (start_timer_running (at_display now) s1) as [t0 Ht0].
  pose proof (start_timer_fields (at_display now) s1) as (Hc & Hs & Hm).
  unfold App.main, run_of, button; simpl.
  rewrite (bool_decide_eq_false_2 _ Hne).
  rewrite (selectbox_choice _ _ _ Hact Ht).
  rewrite Nat2Z.id, Htxt. fold s1.
  rewrite Hs, Hc, Ht0. simpl.
  rewrite (proj2 (Z.leb_gt _ _)) by lia. simpl.
  rewrite andb_false_r. eexists; split; [|reflexivity]. done.
Qed.

Lemma SrcApp_main_jump target_index edited_text now s :
  valid (Jump target_index edited_text) s = true →
  SrcApp.main (run_of (Jump target_index edited_text) now) s
  = (Finished false,
     start_timer (at_display now)
       (set_current_segment (Z.of_nat target_index) s)).
Proof.
  intros Hv. pose proof (valid_active _ _ Hv) as Hact.
  assert (Ht : target_index < length (segments s)).
  { unfold valid in Hv. lia. }
  destruct (lookup_lt_is_Some_2 (segments s) target_index Ht) as [txt Htxt].
  pose proof (active_segments _ Hact) as Hne.
  set (s1 := set_current_segment (Z.of_nat target_index) s).
  pose proof (start_timer_fields (at_display now) s1) as (Hc & Hs & Hm).
  unfold SrcApp.main, run_of, button; simpl.
  rewrite (bool_decide_eq_false_2 _ Hne).
  rewrite (proj2 (Z.leb_gt _ _) (proj2 Hact)).
  rewrite (selectbox_choice _ _ _ Hact Ht).
  rewrite Nat2Z.id, Htxt. done.
Qed.

(** A choice in the segment selector, as a whole: the index moves, and the
    timer is started if none is running. *)
Lemma transition_jump (target_index : nat) (edited_text : string)
    (now later : Clock) (s : SessionState) :
  valid (Jump target_index edited_text) s = true →
  transition App.main (Jump target_index edited_text) now later s
  = start_timer (at_display now)
      (set_current_segment (Z.of_nat target_index) s)
  ∧ transition SrcApp.main (Jump target_index edited_text) now later s
    = start_timer (at_display now)
        (set_current_segment (Z.of_nat target_index) s).
Proof.
  intros Hv. unfold transition. split.
  - destruct (App_main_jump target_index edited_text now s Hv)
      as (o & Ho & Hm).
    by rewrite (interact_no_rerun _ _ _ _ _ _ Hm Ho).
  - pose proof (SrcApp_main_jump target_index edited_text now s Hv) as Hm.
    by rewrite (interact_no_rerun _ _ _ _ _ _ Hm).
Qed.

(** C2, as the code has it. A choice in the segment selector sets the
    current index to the chosen segment; it appends no record for the
    segment that is left, and the segments stay as they are. This holds in
    [app.py] and in [src/app.py]. *)
Theorem jump_only_moves (target_index : nat) (edited_text : string)
    (now later : Clock) (s : SessionState) :
  valid (Jump target_index edited_text) s = true →
  let moved (s' : SessionState) :=
    current_segment s' = Z.of_nat target_index
    ∧ edit_metrics s' = edit_metrics s
    ∧ segments s' = segments s in
  moved (transition App.main (Jump target_index edited_text) now later s)
  ∧ moved (transition SrcApp.main (Jump target_index edited_text) now later s).
Proof.
  intros Hv moved.
  destruct (transition_jump target_index edited_text now later s Hv)
    as [-> ->].
  destruct (start_timer_fields (at_display now)
              (set_current_segment (Z.of_nat target_index) s))
    as (Hc & Hs & Hm).
  by split.
Qed.

Lemma leave_fields step current_text edited_text now s :
  (∃ m, edit_metrics (leave step current_text edited_text now s)
        = edit_metrics s ++ [m]
        ∧ segment_id m = current_segment s)
  ∧ current_segment (leave step current_text edited_text now s)
    = (current_segment s + step)%Z
  ∧ segments (leave step current_text edited_text now s) = segments s
  ∧ start_time (leave step current_text edited_text now s) = None.
Proof.
  unfold leave.
  destruct (start_timer_running (at_display now) s) as [t0 Ht0].
  destruct (start_timer_fields (at_display now) s) as (Hc & Hs & Hm).
  destruct (save_metrics_running current_text edited_text (at_save now)
              (start_timer (at_display now) s) t0 Ht0) as (m & -> & Hid).
  simpl.
  rewrite Hc, Hs, Hm. split_and!; try done. exists m. by rewrite <- Hc.
Qed.

Lemma App_main_advance edited_text now s :
  valid (Advance edited_text) s = true →
  ∃ o current_text,
    o ≠ Rerun
    ∧ segments s !! Z.to_nat (current_segment s) = Some current_text
    ∧ App.main (run_of (Advance edited_text) now) s
      = (o, leave 1 current_text edited_text now s).
Proof.
  intros Hv. pose proof (valid_active _ _ Hv) as Hact.
  destruct (active_lookup _ Hact) as [txt Htxt].
  pose proof (active_segments _ Hact) as Hne.
  destruct (start_timer_fields (at_display now) s) as (Hc & Hs & Hm).
  unfold App.main, run_of, button; simpl.
  rewrite (bool_decide_eq_false_2 _ Hne).
  rewrite (selectbox_untouched _ _ Hact).
  rewrite set_current_segment_same, Htxt, Hs, Hc.
  rewrite (proj2 (Z.leb_gt _ _) (proj2 Hact)). simpl.
  fold (leave 1 txt edited_text now s).
  repeat case_match;
    (eexists _, txt; split_and!; [|done|reflexivity]; done).
Qed.

Lemma SrcApp_main_advance edited_text now s :
  valid (Advance edited_text) s = true →
  ∃ current_text,
    segments s !! Z.to_nat (current_segment s) = Some current_text
    ∧ SrcApp.main (run_of (Advance edited_text) now) s
      = (Rerun, leave 1 current_text edited_text now s).
Proof.
  intros Hv. pose proof (valid_active _ _ Hv) as Hact.
  destruct (active_lookup _ Hact) as [txt Htxt].
  pose proof (active_segments _ Hact) as Hne.
  unfold SrcApp.main, run_of, button; simpl.
  rewrite (bool_decide_eq_false_2 _ Hne).
  rewrite (proj2 (Z.leb_gt _ _) (proj2 Hact)).
  rewrite (selectbox_untouched _ _ Hact).
  rewrite set_current_segment_same, Htxt. by exists txt.
Qed.

Lemma main_retreat edited_text now s :
  valid (Retreat edited_text) s = true →
  ∃ current_text,
    segments s !! Z.to_nat (current_segment s) = Some current_text
    ∧ App.main (run_of (Retreat edited_text) now) s
      = (Rerun, leave (-1) current_text edited_text now s)
    ∧ SrcApp.main (run_of (Retreat edited_text) now) s
      = (Rerun, leave (-1) current_text edited_text now s).
Proof.
  intros Hv. pose proof (valid_active _ _ Hv) as Hact.
  assert (Hpos : (current_segment s =? 0)%Z = false).
  { unfold valid in Hv. lia. }
  destruct (active_lookup _ Hact) as [txt Htxt].
  pose proof (active_segments _ Hact) as Hne.
  destruct (start_timer_fields (at_display now) s) as (Hc & Hs & Hm).
  exists txt. split; [done|].
  unfold App.main, SrcApp.main, run_of, button; simpl.
  rewrite (bool_decide_eq_false_2 _ Hne).
  rewrite (proj2 (Z.leb_gt _ _) (proj2 Hact)).
  rewrite (selectbox_untouched _ _ Hact).
  rewrite set_current_segment_same, Htxt, Hc, Hpos. done.
Qed.

(** A run in which no button is clicked and no file arrives leaves the
    records and the segments as they are. *)
Lemma quiet_run_fields (r : Run) (s : SessionState) :
  uploaded_file r = None → prev_segment r = false → next_segment r = false →
  (edit_metrics (App.main r s).2 = edit_metrics s
   ∧ segments (App.main r s).2 = segments s)
  ∧ (edit_metrics (SrcApp.main r s).2 = edit_metrics s
     ∧ segments (SrcApp.main r s).2 = segments s).
Proof.
  intros Hu Hp Hn. unfold App.main, SrcApp.main, button.
  rewrite Hu, Hp, Hn. simpl.
  split; repeat case_match; simpl;
    rewrite ?(proj1 (proj2 (proj2 (start_timer_fields _ _)))),
            ?(proj2 (proj2 (start_timer_fields _ _)));
    try done.
  all: destruct (start_timer_fields (at_display (clock r))
                   (set_current_segment z s)) as (? & ? & ?); done.
Qed.

Lemma idle_quiet later :
  uploaded_file (idle later) = None
  ∧ prev_segment (idle later) = false ∧ next_segment (idle later) = false.
Proof. done. Qed.

Lemma transition_records_App t now later s :
  valid t s = true →
  length (edit_metrics (transition App.main t now later s))
  = length (edit_metrics s) + (if recording t then 1 else 0).
Proof.
  intros Hv. destruct t as [e|e|target e]; simpl.
  - destruct (App_main_advance e now s Hv) as (o & txt & Ho & _ & Hm).
    unfold transition. rewrite (interact_no_rerun _ _ _ _ _ _ Hm Ho). cbn [snd].
    destruct (leave_fields 1 txt e now s) as ((m & -> & _) & _).
    by rewrite length_app.
  - destruct (main_retreat e now s Hv) as (txt & _ & Hm & _).
    unfold transition. rewrite (interact_rerun _ _ _ _ _ Hm).
    destruct (idle_quiet later) as (Hu & Hp & Hn).
    rewrite (proj1 (proj1 (quiet_run_fields _ _ Hu Hp Hn))).
    destruct (leave_fields (-1) txt e now s) as ((m & -> & _) & _).
    by rewrite length_app.
  - rewrite (proj1 (transition_jump target e now later s Hv)).
    rewrite (proj2 (proj2 (start_timer_fields _ _))). simpl. lia.
Qed.

Lemma transition_records_SrcApp t now later s :
  valid t s = true →
  length (edit_metrics (transition SrcApp.main t now later s))
  = length (edit_metrics s) + (if recording t then 1 else 0).
Proof.
  intros Hv. destruct (idle_quiet later) as (Hu & Hp & Hn).
  destruct t as [e|e|target e]; simpl.
  - destruct (SrcApp_main_advance e now s Hv) as (txt & _ & Hm).
    unfold transition. rewrite (interact_rerun _ _ _ _ _ Hm).
    rewrite (proj1 (proj2 (quiet_run_fields _ _ Hu Hp Hn))).
    destruct (leave_fields 1 txt e now s) as ((m & -> & _) & _).
    by rewrite length_app.
  - destruct (main_retreat e now s Hv) as (txt & _ & _ & Hm).
    unfold transition. rewrite (interact_rerun _ _ _ _ _ Hm).
    rewrite (proj1 (proj2 (quiet_run_fields _ _ Hu Hp Hn))).
    destruct (leave_fields (-1) txt e now s) as ((m & -> & _) & _).
    by rewrite length_app.
  - rewrite (proj2 (transition_jump target e now later s Hv)).
    rewrite (proj2 (proj2 (start_timer_fields _ _))). simpl. lia.
Qed.

Section RecordCount.
Variable main : Run → SessionState → Outcome * SessionState.
Hypothesis transition_records : ∀ t now later s,
  valid t s = true →
  length (edit_metrics (transition main t now later s))
  = length (edit_metrics s) + (if recording t then 1 else 0).

Lemma transitions_records ts : ∀ s k,
  all_valid main ts s = true →
  length (edit_metrics (transitions main (take k ts) s))
  = length (edit_metrics s) + recorded (take k ts).
Proof using transition_records.
  induction ts as [|[[t now] later] ts IH]; intros s k Hv.
  - rewrite take_nil. unfold recorded. simpl. lia.
  - destruct k as [|k]; [unfold recorded; simpl; lia|].
    simpl in Hv. apply andb_prop in Hv as [Hv Hvs].
    simpl. rewrite (IH _ _ Hvs), (transition_records _ _ _ _ Hv).
    unfold recorded. rewrite filter_cons. cbn [fst].
    destruct (recording t).
    + rewrite decide_True by done. simpl. lia.
    + rewrite decide_False by done. lia.
Qed.
End RecordCount.

Lemma load_fields main content now later :
  main = App.main ∨ main = SrcApp.main →
  edit_metrics (load main content now later) = [].
Proof.
  destruct (idle_quiet later) as (Hu & Hp & Hn).
  intros [-> | ->]; unfold load.
  - rewrite (interact_rerun _ _ _ _
               (set_segments (load_segments (Some content)) init_session_state))
      by done.
    by rewrite (proj1 (proj1 (quiet_run_fields _ _ Hu Hp Hn))).
  - rewrite (interact_rerun _ _ _ _
               (set_segments (load_segments (Some content)) init_session_state))
      by done.
    by rewrite (proj1 (proj2 (quiet_run_fields _ _ Hu Hp Hn))).
Qed.

(** Each transition keeps the records there are: an advance and a retreat
    append one record, for the segment that is left, and a jump appends
    none. *)
Lemma transition_appends_App t now later s :
  valid t s = true →
  if recording t
  then ∃ m, edit_metrics (transition App.main t now later s)
            = edit_metrics s ++ [m]
            ∧ segment_id m = current_segment s
  else edit_metrics (transition App.main t now later s) = edit_metrics s.
Proof.
  intros Hv. destruct t as [e|e|target e]; simpl.
  - destruct (App_main_advance e now s Hv) as (o & txt & Ho & _ & Hm).
    unfold transition. rewrite (interact_no_rerun _ _ _ _ _ _ Hm Ho). cbn [snd].
    apply leave_fields.
  - destruct (main_retreat e now s Hv) as (txt & _ & Hm & _).
    unfold transition. rewrite (interact_rerun _ _ _ _ _ Hm).
    destruct (idle_quiet later) as (Hu & Hp & Hn).
    rewrite (proj1 (proj1 (quiet_run_fields _ _ Hu Hp Hn))).
    apply leave_fields.
  - rewrite (proj1 (transition_jump target e now later s Hv)).
    by rewrite (proj2 (proj2 (start_timer_fields _ _))).
Qed.

Lemma transition_appends_SrcApp t now later s :
  valid t s = true →
  if recording t
  then ∃ m, edit_metrics (transition SrcApp.main t now later s)
            = edit_metrics s ++ [m]
            ∧ segment_id m = current_segment s
  else edit_metrics (transition SrcApp.main t now later s) = edit_metrics s.
Proof.
  intros Hv. destruct (idle_quiet later) as (Hu & Hp & Hn).
  destruct t as [e|e|target e]; simpl.
  - destruct (SrcApp_main_advance e now s Hv) as (txt & _ & Hm).
    unfold transition. rewrite (interact_rerun _ _ _ _ _ Hm).
    rewrite (proj1 (proj2 (quiet_run_fields _ _ Hu Hp Hn))).
    apply leave_fields.
  - destruct (main_retreat e now s Hv) as (txt & _ & _ & Hm).
    unfold transition. rewrite (interact_rerun _ _ _ _ _ Hm).
    rewrite (proj1 (proj2 (quiet_run_fields _ _ Hu Hp Hn))).
    apply leave_fields.
  - rewrite (proj2 (transition_jump target e now later s Hv)).
    by rewrite (proj2 (proj2 (start_timer_fields _ _))).
Qed.

Section RecordHistory.
Variable main : Run → SessionState → Outcome * SessionState.
Hypothesis transition_appends : ∀ t now later s,
  valid t s = true →
  if recording t
  then ∃ m, edit_metrics (transition main t now later s)
            = edit_metrics s ++ [m]
            ∧ segment_id m = current_segment s
  else edit_metrics (transition main t now later s) = edit_metrics s.

Lemma transitions_app ts ts' s :
  transitions main (ts ++ ts') s
  = transitions main ts' (transitions main ts s).
Proof.
  revert s. induction ts as [|[[t now] later] ts IH]; intros s; [done|].
  simpl. by rewrite IH.
Qed.

Lemma transitions_step ts k t now later s :
  ts !! k = Some (t, now, later) →
  transitions main (take (S k) ts) s
  = transition main t now later (transitions main (take k ts) s).
Proof. intros Hk. by rewrite (take_S_r _ _ _ Hk), transitions_app. Qed.

Lemma all_valid_step ts : ∀ s k t now later,
  all_valid main ts s = true →
  ts !! k = Some (t, now, later) →
  valid t (transitions main (take k ts) s) = true.
Proof.
  induction ts as [|[[t0 now0] later0] ts IH]; intros s k t now later Hv Hk;
    [done|].
  simpl in Hv. apply andb_prop in Hv as [Hv Hvs].
  destruct k as [|k]; simpl in Hk |- *.
  - by simplify_eq.
  - by apply (IH _ k t now later).
Qed.

Lemma history_step ts s k t now later :
  all_valid main ts s = true →
  ts !! k = Some (t, now, later) →
  if recording t
  then ∃ m, edit_metrics (transitions main (take (S k) ts) s)
            = edit_metrics (transitions main (take k ts) s) ++ [m]
            ∧ segment_id m = current_segment (transitions main (take k ts) s)
  else edit_metrics (transitions main (take (S k) ts) s)
       = edit_metrics (transitions main (take k ts) s).
Proof using transition_appends.
  intros Hv Hk. rewrite (transitions_step _ _ _ _ _ _ Hk).
  apply transition_appends. by apply (all_valid_step ts s k t now later).
Qed.

Lemma history_prefix ts s j k :
  all_valid main ts s = true → j ≤ k →
  edit_metrics (transitions main (take j ts) s)
    `prefix_of` edit_metrics (transitions main (take k ts) s).
Proof using transition_appends.
  intros Hv. induction 1 as [|k Hjk IH]; [done|].
  etrans; [exact IH|].
  destruct (ts !! k) as [[[t now] later]|] eqn:Hk.
  - pose proof (history_step ts s k t now later Hv Hk) as Hstep.
    destruct (recording t).
    + destruct Hstep as (m & -> & _). by apply prefix_app_r.
    + by rewrite Hstep.
  - apply lookup_ge_None in Hk. by rewrite !take_ge by lia.
Qed.
End RecordHistory.

(** C3, as the code has it. After a file is loaded, and along every
    sequence of valid transitions, the number of records after each
    transition is the number of advance and retreat transitions made so
    far. The records are a history: what they held after any earlier
    transition is a prefix of what they hold now, so that no record is
    ever overwritten or removed; the next transition, when it is an
    advance or a retreat, appends exactly one record, for the segment that
    is left, a revisit included; when it is a jump it appends none. This
    holds for [app.py] and for [src/app.py]. *)
Theorem records_count_moves (content : string) (now later : Clock)
    (ts : list (Transition * Clock * Clock)) (k : nat) :
  let counted (main : Run → SessionState → Outcome * SessionState) :=
    let after (j : nat) :=
      transitions main (take j ts) (load main content now later) in
    length (edit_metrics (after k)) = recorded (take k ts)
    ∧ (∀ j, j ≤ k →
         edit_metrics (after j) `prefix_of` edit_metrics (after k))
    ∧ (∀ t now' later', ts !! k = Some (t, now', later') →
       if recording t
       then ∃ m, edit_metrics (after (S k)) = edit_metrics (after k) ++ [m]
                 ∧ segment_id m = current_segment (after k)
       else edit_metrics (after (S k)) = edit_metrics (after k)) in
  (all_valid App.main ts (load App.main content now later) = true →
   counted App.main)
  ∧ (all_valid SrcApp.main ts (load SrcApp.main content now later) = true →
     counted SrcApp.main).
Proof.
  intros counted. split; intros Hv; split_and!.
  - rewrite (transitions_records _ transition_records_App _ _ _ Hv).
    by rewrite load_fields by auto.
  - intros j Hj. by apply (history_prefix _ transition_appends_App).
  - intros t now' later' Hk.
    apply (history_step _ transition_appends_App _ _ _ _ _ _ Hv Hk).
  - rewrite (transitions_records _ transition_records_SrcApp _ _ _ Hv).
    by rewrite load_fields by auto.
  - intros j Hj. by apply (history_prefix _ transition_appends_SrcApp).
  - intros t now' later' Hk.
    apply (history_step _ transition_appends_SrcApp _ _ _ _ _ _ Hv Hk).
Qed.

(** C4. An advance attempted once every segment has been left, and a
    retreat attempted at the first segment while its timer runs, change
    nothing in the session: the records, the current index and the timer
    are as before, in [app.py] and in [src/app.py]. *)
Theorem rejected_moves_keep_state (edited_text : string) (now later : Clock)
    (s : SessionState) :
  segments s ≠ [] →
  (current_segment s = Z.of_nat (length (segments s)) →
   transition App.main (Advance edited_text) now later s = s
   ∧ transition SrcApp.main (Advance edited_text) now later s = s)
  ∧ (current_segment s = 0%Z → is_Some (start_time s) →
     transition App.main (Retreat edited_text) now later s = s
     ∧ transition SrcApp.main (Retreat edited_text) now later s = s).
Proof.
  intros Hne. split.
  - intros Hc. unfold transition, interact, App.main, SrcApp.main, run_of.
    simpl. rewrite (bool_decide_eq_false_2 _ Hne).
    rewrite selectbox_outside by lia.
    rewrite (proj2 (Z.leb_le _ _)) by lia.
    split; [done|]. by case_bool_decide.
  - intros Hc [t0 Ht0].
    assert (Hact : (0 ≤ current_segment s < Z.of_nat (length (segments s)))%Z).
    { destruct (segments s); [done|]. simpl. lia. }
    destruct (active_lookup _ Hact) as [txt Htxt].
    assert (Hst : start_timer (at_display now) s = s).
    { unfold start_timer. by rewrite Ht0. }
    unfold transition, interact, App.main, SrcApp.main, run_of, button.
    simpl. rewrite (bool_decide_eq_false_2 _ Hne).
    rewrite (proj2 (Z.leb_gt _ _) (proj2 Hact)).
    rewrite (selectbox_untouched _ _ Hact).
    rewrite set_current_segment_same, Htxt, Hst, Hc, Ht0. simpl.
    rewrite (proj2 (Z.leb_gt _ _)) by lia. simpl.
    by rewrite andb_false_r.
Qed.

(** ** The worked session *)

Lemma rejected_moves_keep_state_witness :
  let complete :=
    {| current_segment := 2; segments := ["The cat sat."; "It was sunny."];
       edit_metrics := []; start_time := None |} in
  let first :=
    {| current_segment := 0; segments := ["The cat sat."; "It was sunny."];
       edit_metrics := []; start_time := Some 100%float |} in
  (transition App.main (Advance "x") (tick 105) (tick 105) complete = complete
   ∧ transition SrcApp.main (Advance "x") (tick 105) (tick 105) complete
     = complete)
  ∧ (transition App.main (Retreat "x") (tick 105) (tick 105) first = first
     ∧ transition SrcApp.main (Retreat "x") (tick 105) (tick 105) first
       = first).
Proof.
  intros complete first. split.
  - apply (proj1 (rejected_moves_keep_state "x" (tick 105) (tick 105)
                    complete ltac:(discriminate))).
    reflexivity.
  - apply (proj2 (rejected_moves_keep_state "x" (tick 105) (tick 105)
                    first ltac:(discriminate)));
      [reflexivity|by eexists].
Defined.

(** C2, the claim as it is written, fails: from the first of the two loaded
    segments, a jump to the second appends no record for the segment that
    is left, in either variant. *)
Lemma jump_saves_no_record :
  let s := load App.main scenario_file (tick 100) (tick 100) in
  let s' := load SrcApp.main scenario_file (tick 100) (tick 100) in
  ¬ (∃ m, edit_metrics
            (transition App.main (Jump 1 "The cat sat.") (tick 103)
               (tick 103) s)
          = edit_metrics s ++ [m])
  ∧ ¬ (∃ m, edit_metrics
              (transition SrcApp.main (Jump 1 "The cat sat.") (tick 103)
                 (tick 103) s')
            = edit_metrics s' ++ [m])
  ∧ start_time
      (transition SrcApp.main (Jump 1 "The cat sat.") (tick 103) (tick 103)
         s')
    = Some 100%float.
Proof.
  split_and!.
  - intros [m Hm]. vm_compute in Hm. discriminate Hm.
  - intros [m Hm]. vm_compute in Hm. discriminate Hm.
  - vm_compute. reflexivity.
Qed.

Lemma jump_only_moves_witness :
  let s := load App.main scenario_file (tick 100) (tick 100) in
  let moved (s' : SessionState) :=
    current_segment s' = 1%Z
    ∧ edit_metrics s' = edit_metrics s
    ∧ segments s' = segments s in
  moved (transition App.main (Jump 1 "The cat sat.") (tick 103) (tick 103) s)
  ∧ moved (transition SrcApp.main (Jump 1 "The cat sat.") (tick 103)
             (tick 103) s).
Proof.
  intros s.
  apply (jump_only_moves 1 "The cat sat." (tick 103) (tick 103) s).
  vm_compute. reflexivity.
Defined.

(** C3, the claim as it is written, fails: one valid transition, a jump,
    has been made and the records are still empty. *)
Lemma jump_breaks_record_count :
  let ts := [(Jump 1 "The cat sat.", tick 103, tick 103)] in
  let s := load App.main scenario_file (tick 100) (tick 100) in
  let s' := load SrcApp.main scenario_file (tick 100) (tick 100) in
  (all_valid App.main ts s = true
   ∧ length (edit_metrics (transitions App.main ts s)) ≠ length ts)
  ∧ (all_valid SrcApp.main ts s' = true
     ∧ length (edit_metrics (transitions SrcApp.main ts s')) ≠ length ts).
Proof. vm_compute. repeat split; discriminate. Qed.

Lemma records_count_moves_witness :
  let ts :=
    [(Advance "The cat sat on the mat.", tick 105, tick 105);
     (Retreat "It was sunny.", tick 107, tick 107);
     (Jump 1 "The cat sat.", tick 108, tick 108);
     (Advance "It was sunny.", tick 110, tick 110)] in
  let counted (main : Run → SessionState → Outcome * SessionState) :=
    let after (j : nat) :=
      transitions main (take j ts)
        (load main scenario_file (tick 100) (tick 100)) in
    length (edit_metrics (after 3)) = recorded (take 3 ts)
    ∧ (∀ j, j ≤ 3 →
         edit_metrics (after j) `prefix_of` edit_metrics (after 3))
    ∧ (∀ t now' later', ts !! 3 = Some (t, now', later') →
       if recording t
       then ∃ m, edit_metrics (after 4) = edit_metrics (after 3) ++ [m]
                 ∧ segment_id m = current_segment (after 3)
       else edit_metrics (after 4) = edit_metrics (after 3)) in
  counted App.main ∧ counted SrcApp.main.
Proof.
  intros ts counted. split.
  - apply (proj1 (records_count_moves scenario_file (tick 100) (tick 100)
                    ts 3)).
    vm_compute. reflexivity.
  - apply (proj2 (records_count_moves scenario_file (tick 100) (tick 100)
                    ts 3)).
    vm_compute. reflexivity.
Defined.

(** C1, the claim as it is written, fails: the record of the first segment
    does not have 3 insertions and 0 deletions, in either variant. The
    tokens "sat." and "sat" differ, so one token is deleted and four are
    inserted. *)
Lemma scenario_not_three_insertions :
  ¬ (∃ m, edit_metrics scenario_app !! 0 = Some m
          ∧ insertions m = 3 ∧ deletions m = 0)
  ∧ ¬ (∃ m, edit_metrics scenario_src !! 0 = Some m
            ∧ insertions m = 3 ∧ deletions m = 0).
Proof.
  split; intros (m & Hm & Hi & _); vm_compute in Hm;
    injection Hm as <-; discriminate Hi.
Qed.

(** C1, as the code has it. In the worked scenario the record of segment 0
    has 4 insertions and 1 deletion, the record of segment 1 has 2.0 s, 0
    insertions and 0 deletions, and the statistics give 2 segments and a
    total time of 7.0 s; in [app.py] and in [src/app.py]. *)
Theorem scenario_records (round : float → Z → float) :
  let expected :=
    [ {| segment_id := 0; original := "The cat sat.";
         edited := "The cat sat on the mat."; edit_time := 5;
         insertions := 4; deletions := 1 |};
      {| segment_id := 1; original := "It was sunny.";
         edited := "It was sunny."; edit_time := 2;
         insertions := 0; deletions := 0 |} ] in
  edit_metrics scenario_app = expected
  ∧ edit_metrics scenario_src = expected
  ∧ statistics <$> display_results round expected
    = Some {| total_segments := 2; total_time := 7; average_time := 3.5;
              total_insertions := 4; total_deletions := 1 |}
  ∧ statistics <$> display_results_src round expected
    = Some {| total_segments := 2; total_time := 7; average_time := 3.5;
              total_insertions := 4; total_deletions := 1 |}.
Proof. intros expected. split_and!; vm_compute; reflexivity. Qed.

(** ** The statistics of [display_results] *)

Lemma wrap64_add_l (x y : Z) : wrap64 (wrap64 x + y) = wrap64 (x + y).
Proof.
  unfold wrap64. f_equal.
  replace (((x + 2 ^ 63) mod 2 ^ 64 - 2 ^ 63 + y + 2 ^ 63))%Z
    with ((x + 2 ^ 63) mod 2 ^ 64 + y)%Z by lia.
  replace (x + y + 2 ^ 63)%Z with ((x + 2 ^ 63) + y)%Z by lia.
  by rewrite Zplus_mod_idemp_l.
Qed.

Lemma wrap64_small (x : Z) :
  (- 2 ^ 63 ≤ x < 2 ^ 63)%Z → wrap64 x = x.
Proof. intros Hx. unfold wrap64. rewrite Z.mod_small; lia. Qed.

(** The wrapped sum of an integer column is the exact sum, wrapped once. *)
Lemma int_sum_wrap {X} (f : X → Z) (xs : list X) :
  int_sum ((λ x, CInt (f x)) <$> xs)
  = wrap64 (foldr (λ x acc, (f x + acc)%Z) 0%Z xs).
Proof.
  unfold int_sum.
  assert (Hgen : ∀ acc,
    fold_left (λ acc c, match c with CInt z => wrap64 (acc + z) | _ => acc end)
      ((λ x, CInt (f x)) <$> xs) (wrap64 acc)
    = wrap64 (acc + foldr (λ x acc, (f x + acc)%Z) 0%Z xs)).
  { induction xs as [|x xs IH]; intros acc; simpl.
    - by rewrite Z.add_0_r.
    - rewrite wrap64_add_l, IH. f_equal. lia. }
  specialize (Hgen 0%Z). by rewrite wrap64_small in Hgen by lia.
Qed.


Lemma frame_rows_column (i : nat) (rs : list EditMetrics) (d : Cell) :
  i < 6 →
  omap (λ row : list Cell, row !! i)
    (fmap (M := list) snd <$> (vars <$> rs))
  = (λ m, nth i (snd <$> vars m) d) <$> rs.
Proof.
  intros Hi. induction rs as [|m rs IH]; [done|].
  rewrite !fmap_cons. cbn [omap list_omap]. rewrite IH.
  do 6 (destruct i as [|i]; [done|]). lia.
Qed.

Lemma frame_columns (rs : list EditMetrics) :
  rs ≠ [] → columns (make_frame (vars <$> rs)) = labels.
Proof. by destruct rs. Qed.

Lemma frame_column (label : string) (i : nat) (rs : list EditMetrics)
    (d : Cell) :
  rs ≠ [] → i < 6 →
  list_find (λ c, c = label) labels = Some (i, label) →
  column (make_frame (vars <$> rs)) label
  = Some ((λ m, nth i (snd <$> vars m) d) <$> rs).
Proof.
  intros Hne Hi Hfind. unfold column.
  rewrite (frame_columns _ Hne), Hfind. simpl.
  by rewrite (frame_rows_column i rs d Hi).
Qed.

(** The statistics of a non-empty list of records, column by column. *)
Lemma statistics_of_frame (rs : list EditMetrics) :
  rs ≠ [] →
  statistics_of (make_frame (vars <$> rs))
  = Some {| total_segments := length rs;
            total_time := float_sum ((λ m, CFloat (edit_time m)) <$> rs);
            average_time :=
              (float_sum ((λ m, CFloat (edit_time m)) <$> rs)
               / Py.float_of_nat
                   (float_count ((λ m, CFloat (edit_time m)) <$> rs)))%float;
            total_insertions :=
              int_sum ((λ m, CInt (Z.of_nat (insertions m))) <$> rs);
            total_deletions :=
              int_sum ((λ m, CInt (Z.of_nat (deletions m))) <$> rs) |}.
Proof.
  intros Hne. unfold statistics_of.
  rewrite (frame_column "edit_time" 3 rs (CInt 0) Hne) by (done || lia).
  rewrite (frame_column "insertions" 4 rs (CInt 0) Hne) by (done || lia).
  rewrite (frame_column "deletions" 5 rs (CInt 0) Hne) by (done || lia).
  simpl. by rewrite !length_fmap.
Qed.

Lemma dropped_rows_column (i : nat) (rs : list EditMetrics) (d : Cell) :
  i < 5 →
  omap (λ row : list Cell, row !! i)
    (delete 0 <$> (fmap (M := list) snd <$> (vars <$> rs)))
  = (λ m, nth (S i) (snd <$> vars m) d) <$> rs.
Proof.
  intros Hi. induction rs as [|m rs IH]; [done|].
  rewrite !fmap_cons. cbn [omap list_omap]. rewrite IH.
  do 5 (destruct i as [|i]; [done|]). lia.
Qed.

(** Dropping the first column leaves the three columns of the statistics
    as they are. *)
Lemma statistics_of_dropped_frame (rs : list EditMetrics) :
  rs ≠ [] →
  (drop_column (make_frame (vars <$> rs)) "segment_id" ≫= statistics_of)
  = statistics_of (make_frame (vars <$> rs)).
Proof.
  intros Hne. rewrite (statistics_of_frame _ Hne).
  unfold drop_column. rewrite (frame_columns _ Hne).
  assert (H0 : list_find (λ c, c = "segment_id") labels
               = Some (0, "segment_id")) by done.
  rewrite H0. cbn [mbind option_bind fst].
  unfold statistics_of, column. cbn [columns rows].
  assert (H2 : list_find (λ c, c = "edit_time") (delete 0 labels)
               = Some (2, "edit_time")) by done.
  assert (H3 : list_find (λ c, c = "insertions") (delete 0 labels)
               = Some (3, "insertions")) by done.
  assert (H4 : list_find (λ c, c = "deletions") (delete 0 labels)
               = Some (4, "deletions")) by done.
  rewrite H2, H3, H4. cbn [mbind option_bind fst].
  unfold make_frame. cbn [rows].
  rewrite !(dropped_rows_column _ rs (CInt 0)) by lia.
  simpl. by rewrite !length_fmap.
Qed.


(** ** The exports of [display_results] *)

Lemma csv_row_inj (rs rs' : list EditMetrics) :
  csv_row <$> rs = csv_row <$> rs' → rs = rs'.
Proof.
  revert rs'. induction rs as [|m rs IH]; intros [|m' rs'] Heq; try done.
  rewrite !fmap_cons in Heq. injection Heq as Hm Hrs.
  f_equal; [|by apply IH].
  destruct m, m'. unfold csv_row in Hm. by simplify_eq/=.
Qed.

Lemma display_results_some round (rs : list EditMetrics) :
  rs ≠ [] →
  ∃ stats,
    display_results round rs
    = Some {| statistics := stats; total_edits := None;
              csv := make_frame (vars <$> rs);
              json_data := json_object round <$> rs |}
    ∧ ∃ df, drop_column (make_frame (vars <$> rs)) "segment_id" = Some df
            ∧ columns df = delete 0 labels
            ∧ rows df = csv_row_src <$> rs
            ∧ display_results_src round rs
              = Some {| statistics := stats;
                        total_edits :=
                          Some (wrap64 (total_insertions stats
                                        + total_deletions stats));
                        csv := df;
                        json_data := json_object round <$> rs |}.
Proof.
  intros Hne. eexists. unfold display_results, display_results_src.
  pose proof (statistics_of_dropped_frame rs Hne) as Hd.
  rewrite (statistics_of_frame _ Hne) in Hd |- *.
  split; [reflexivity|].
  unfold drop_column in Hd |- *. rewrite (frame_columns _ Hne) in Hd |- *.
  assert (H0 : list_find (λ c, c = "segment_id") labels
               = Some (0, "segment_id")) by done.
  rewrite H0 in Hd |- *. cbn [mbind option_bind fst] in Hd |- *.
  eexists. split; [reflexivity|]. rewrite Hd. split_and!; try done.
  unfold make_frame. cbn [rows].
  clear. induction rs as [|m rs IH]; [done|].
  rewrite !fmap_cons. by rewrite IH.
Qed.

Lemma make_frame_records (rs : list EditMetrics) :
  rs ≠ [] →
  make_frame (vars <$> rs) = {| columns := labels; rows := csv_row <$> rs |}.
Proof.
  intros Hne. unfold make_frame. f_equal; [by destruct rs|].
  clear. induction rs as [|m rs IH]; [done|].
  rewrite !fmap_cons. by rewrite IH.
Qed.

(** C5, as the code has it. For a non-empty list of records, the CSV
    export is what [to_csv(index=False)] writes for a frame with one row
    per record: in [app.py] its columns are segment_id, original, edited,
    edit_time, insertions, deletions and each row holds the six fields of
    its record, so that no other list of records has this frame; in
    [src/app.py] the segment_id column is dropped first and the frame holds
    the other five columns. In both, the JSON export is what [json.dumps]
    writes for a list with one object per record, with the keys
    segment_id, source, post_edited, edit_time_seconds (the edit time
    rounded to 2 decimals by [round]), insertions, deletions. How the two
    writers turn these values into text is not part of the embedding. *)
Theorem exports_of_records (round : float → Z → float)
    (to_csv : DataFrame → string)
    (dumps : list (list (string * Json)) → string)
    (rs : list EditMetrics) :
  rs ≠ [] →
  let frame :=
    {| columns :=
         ["segment_id"; "original"; "edited"; "edit_time"; "insertions";
          "deletions"];
       rows :=
         (λ m, [CInt (segment_id m); CStr (original m); CStr (edited m);
                CFloat (edit_time m); CInt (Z.of_nat (insertions m));
                CInt (Z.of_nat (deletions m))]) <$> rs |} in
  let frame_src :=
    {| columns :=
         ["original"; "edited"; "edit_time"; "insertions"; "deletions"];
       rows :=
         (λ m, [CStr (original m); CStr (edited m); CFloat (edit_time m);
                CInt (Z.of_nat (insertions m));
                CInt (Z.of_nat (deletions m))]) <$> rs |} in
  let objects :=
    (λ m,
       [("segment_id", JInt (segment_id m));
        ("source", JString (original m));
        ("post_edited", JString (edited m));
        ("edit_time_seconds", JNumber (round (edit_time m) 2%Z));
        ("insertions", JInt (Z.of_nat (insertions m)));
        ("deletions", JInt (Z.of_nat (deletions m)))]) <$> rs in
  downloads to_csv dumps <$> display_results round rs
  = Some (to_csv frame, dumps objects)
  ∧ downloads to_csv dumps <$> display_results_src round rs
    = Some (to_csv frame_src, dumps objects)
  ∧ csv <$> display_results round rs = Some frame
  ∧ csv <$> display_results_src round rs = Some frame_src
  ∧ json_data <$> display_results round rs = Some objects
  ∧ json_data <$> display_results_src round rs = Some objects
  ∧ (∀ rs', csv <$> display_results round rs' = Some frame → rs' = rs).
Proof.
  intros Hne frame frame_src objects.
  assert (Hframe : ∀ l, l ≠ [] →
            csv <$> display_results round l
            = Some {| columns := labels; rows := csv_row <$> l |}).
  { intros l Hl.
    destruct (display_results_some round l Hl) as (stats & -> & _).
    cbn [fmap option_fmap option_map csv].
    by rewrite (make_frame_records l Hl). }
  destruct (display_results_some round rs Hne)
    as (stats & Hr & df & _ & Hcols & Hrows & Hr').
  assert (Hdf : df = frame_src).
  { destruct df as [c r]. simpl in Hcols, Hrows. by rewrite Hcols, Hrows. }
  rewrite Hr, Hr', Hdf, (make_frame_records rs Hne).
  split_and!; try done.
  intros rs' Hrs'.
  destruct (decide (rs' = [])) as [->|Hne']; [done|].
  rewrite (Hframe rs' Hne') in Hrs'. injection Hrs' as Hrows'.
  by apply csv_row_inj.
Qed.

(** C5, the claim as it is written, fails in [src/app.py]: the exported
    frame has no segment_id column, and two lists of records that differ
    in their segment ids are exported as the same frame, hence as the same
    CSV text, whatever [to_csv] writes. *)
Lemma src_csv_drops_segment_id :
  let record (id : Z) :=
    {| segment_id := id; original := "a"; edited := "b"; edit_time := 1;
       insertions := 1; deletions := 1 |} in
  (columns ∘ csv) <$> display_results_src (λ x _, x) [record 0%Z]
  = Some ["original"; "edited"; "edit_time"; "insertions"; "deletions"]
  ∧ csv <$> display_results_src (λ x _, x) [record 0%Z]
    = csv <$> display_results_src (λ x _, x) [record 1%Z]
  ∧ (∀ to_csv dumps,
       (fst ∘ downloads to_csv dumps)
         <$> display_results_src (λ x _, x) [record 0%Z]
       = (fst ∘ downloads to_csv dumps)
           <$> display_results_src (λ x _, x) [record 1%Z])
  ∧ [record 0%Z] ≠ [record 1%Z].
Proof. split_and!; [by vm_compute..|done|discriminate]. Qed.

Lemma exports_of_records_witness :
  let rs :=
    [ {| segment_id := 0; original := "a"; edited := "b"; edit_time := 1;
         insertions := 1; deletions := 1 |} ] in
  let frame :=
    {| columns :=
         ["segment_id"; "original"; "edited"; "edit_time"; "insertions";
          "deletions"];
       rows := [[CInt 0; CStr "a"; CStr "b"; CFloat 1; CInt 1; CInt 1]] |} in
  let frame_src :=
    {| columns :=
         ["original"; "edited"; "edit_time"; "insertions"; "deletions"];
       rows := [[CStr "a"; CStr "b"; CFloat 1; CInt 1; CInt 1]] |} in
  let objects :=
    [[("segment_id", JInt 0); ("source", JString "a");
      ("post_edited", JString "b"); ("edit_time_seconds", JNumber 1);
      ("insertions", JInt 1); ("deletions", JInt 1)]] in
  let to_csv (df : DataFrame) := Py.join "," (columns df) in
  let dumps (data : list (list (string * Json))) :=
    Py.str_of_nat (length data) in
  downloads to_csv dumps <$> display_results (λ x _, x) rs
  = Some (to_csv frame, dumps objects)
  ∧ downloads to_csv dumps <$> display_results_src (λ x _, x) rs
    = Some (to_csv frame_src, dumps objects)
  ∧ csv <$> display_results (λ x _, x) rs = Some frame
  ∧ csv <$> display_results_src (λ x _, x) rs = Some frame_src
  ∧ json_data <$> display_results (λ x _, x) rs = Some objects
  ∧ json_data <$> display_results_src (λ x _, x) rs = Some objects
  ∧ (∀ rs', csv <$> display_results (λ x _, x) rs' = Some frame → rs' = rs).
Proof.
  intros rs frame frame_src objects to_csv dumps.
  apply (exports_of_records (λ x _, x) to_csv dumps rs). discriminate.
Defined.

(** ** Sums of edit times that do not round

    The binary64 numbers [k * 2^q] with [|k| < 2^53] are added and
    subtracted without rounding as long as the result is such a number
    too. The lemmas follow the specification of the binary64 operations
    ([SpecFloat]): to round a number that fits in 53 bits, only zeros are
    shifted out. *)





























(** Every sum that [numpy] forms on the way is exact, when the absolute
    values of the numbers add up to less than [2^53] steps. *)
Section ExactSums.
Variable q : Z.
Hypothesis Hq : (-1022 ≤ q ≤ 971)%Z.









End ExactSums.

(** The total of a column of edit times. *)









(** ** [pages/3_Evaluation.py]: the length guard before the scoring *)

(** C8, as the code has it. Scores are computed only for a reference
    sequence and a post-edited sequence of equal length. When the lengths
    differ and the post-edited sequence is not empty, the page shows the
    length-mismatch error, which names both counts, and nothing else; when
    the post-edited sequence is empty, it shows that no post-edited
    translations were found for the user, and nothing else. *)
Theorem scoring_guard
    (corpus_bleu corpus_chrf corpus_ter
       : list string → list (list string) → float)
    (selected_user : string) (references : list string)
    (post_edited : list string) (calculate : bool) :
  let page :=
    Evaluation.main corpus_bleu corpus_chrf corpus_ter selected_user
      (Some (Evaluation.References references)) post_edited calculate in
  ((∃ bleu chrf ter comparison, Evaluation.Scores bleu chrf ter comparison ∈ page) →
   length references = length post_edited)
  ∧ (length references ≠ length post_edited → post_edited ≠ [] →
     page = [Evaluation.Error (Evaluation.length_mismatch (length references)
                      (length post_edited))])
  ∧ (post_edited = [] →
     page = [Evaluation.Error ("No post-edited translations found for "
                    +:+ selected_user +:+ ".")]).
Proof.
  intros page. unfold page, Evaluation.main. split_and!.
  - intros (bleu & chrf & ter & comparison & Hin).
    repeat case_bool_decide; try (by apply list_elem_of_singleton in Hin).
    + destruct calculate; [|by apply elem_of_nil in Hin].
      by destruct (decide (length references = length post_edited)).
  - intros Hlen Hne.
    by rewrite (bool_decide_eq_false_2 _ Hne), (bool_decide_eq_true_2 _ Hlen).
  - intros ->. done.
Qed.

(** C8, the claim as it is written, fails: with one reference and no
    post-edited translation the lengths differ, and the error shown is not
    the length mismatch naming the two counts. *)
Lemma empty_post_edited_not_a_mismatch :
  Evaluation.main (λ _ _, 0%float) (λ _ _, 0%float) (λ _ _, 0%float)
    "Ada Lovelace" (Some (Evaluation.References ["Hello."])) [] true
  ≠ [Evaluation.Error (Evaluation.length_mismatch 1 0)].
Proof. vm_compute. discriminate. Qed.

Lemma scoring_guard_witness :
  let page :=
    Evaluation.main (λ _ _, 0%float) (λ _ _, 0%float) (λ _ _, 0%float)
      "Ada Lovelace" (Some (Evaluation.References ["Hello."; "World."]))
      ["Hello."] true in
  page = [Evaluation.Error (Evaluation.length_mismatch 2 1)].
Proof.
  intros page.
  apply (proj1 (proj2
    (scoring_guard (λ _ _, 0%float) (λ _ _, 0%float)
       (λ _ _, 0%float) "Ada Lovelace" ["Hello."; "World."] ["Hello."]
       true))); simpl; [lia|discriminate].
Defined.

(** ** [difflib]: one sequence is empty *)

Section EmptySide.
Context `{Countable A}.
Import SequenceMatcher.

Lemma longest_rows_no_index (a : list A) (alo ahi blo bhi : nat) :
  longest_rows a ∅ alo ahi blo bhi = (alo, blo, 0).
Proof.
  unfold longest_rows.
  generalize (seq alo (ahi - alo)). intros l.
  assert (Hgen : ∀ best,
    fold_left
      (λ '(j2len, best) i,
         longest_row j2len blo bhi i
           (default [] (a !! i ≫= (((∅ : gmap A (list nat))) !!.))) ∅ best)
      l (∅, best) = (∅, best)).
  { induction l as [|i l IH]; intros best; [done|]. simpl.
    destruct (a !! i) as [x|]; simpl; [rewrite lookup_empty|]; apply IH. }
  by rewrite Hgen.
Qed.

Lemma find_longest_match_empty_b (a : list A) (ahi : nat) :
  find_longest_match a [] ∅ 0 ahi 0 0 = (0, 0, 0).
Proof.
  unfold find_longest_match. rewrite longest_rows_no_index. simpl.
  destruct (ahi - 0); simpl; [done|].
  by rewrite andb_false_r.
Qed.

Lemma find_longest_match_empty_a (b : list A) b2j (bhi : nat) :
  find_longest_match [] b b2j 0 0 0 bhi = (0, 0, 0).
Proof. done. Qed.

Lemma get_matching_blocks_empty_b (a : list A) :
  get_matching_blocks a [] = [(length a, 0, 0)].
Proof.
  unfold get_matching_blocks, matching_fuel.
  replace (2 * length a + 1) with (S (2 * length a)) by lia.
  cbn [matching_loop length chain_b index_b imap fold_left].
  change (chain_b []) with (∅ : gmap A (list nat)).
  rewrite find_longest_match_empty_b. simpl.
  by destruct (length a + (length a + 0)).
Qed.

Lemma get_matching_blocks_empty_a (b : list A) :
  get_matching_blocks [] b = [(0, length b, 0)].
Proof. done. Qed.

Lemma get_opcodes_empty_b (a : list A) :
  get_opcodes a []
  = if 0 <? length a then [(Delete, 0, length a, 0, 0)] else [].
Proof.
  unfold get_opcodes. rewrite get_matching_blocks_empty_b. simpl.
  by destruct (length a).
Qed.

Lemma get_opcodes_empty_a (b : list A) :
  get_opcodes [] b
  = if 0 <? length b then [(Insert, 0, 0, 0, length b)] else [].
Proof.
  unfold get_opcodes. rewrite get_matching_blocks_empty_a. simpl.
  by destruct (length b).
Qed.

End EmptySide.

Lemma slice_all {X} (x : list X) : Py.slice x 0 (length x) = x.
Proof. unfold Py.slice. rewrite Nat.sub_0_r. simpl. apply firstn_all. Qed.

Lemma compare_empty_b (a : list string) :
  Differ.compare a [] = (λ line, "- " +:+ line) <$> a.
Proof.
  unfold Differ.compare. rewrite get_opcodes_empty_b.
  destruct a as [|x a]; [done|].
  change (0 <? length (x :: a)) with true. cbn [mbind list_bind].
  unfold Differ.dump. by rewrite slice_all, app_nil_r.
Qed.

Lemma compare_empty_a (b : list string) :
  Differ.compare [] b = (λ line, "+ " +:+ line) <$> b.
Proof.
  unfold Differ.compare. rewrite get_opcodes_empty_a.
  destruct b as [|x b]; [done|].
  change (0 <? length (x :: b)) with true. cbn [mbind list_bind].
  unfold Differ.dump. by rewrite slice_all, app_nil_r.
Qed.

Lemma count_tagged (tag : ascii) (p : ascii) (xs : list string) :
  length (filter (λ d, Py.startswith d (String p "") = true)
            ((λ line, String tag (String " " line)) <$> xs))
  = if decide (p = tag) then length xs else 0.
Proof.
  induction xs as [|x xs IH]; [by case_decide|].
  rewrite fmap_cons, filter_cons. unfold Py.startswith at 1. simpl.
  destruct (ascii_dec p tag) as [->|Hne].
  - rewrite decide_True by done. rewrite decide_True in IH by done.
    simpl. rewrite IH. by rewrite decide_True.
  - rewrite decide_False by done. rewrite decide_False in IH by done.
    rewrite decide_False by done. exact IH.
Qed.

(** C6. When the edited text is empty, every token of the original is a
    deletion and nothing is inserted; when the original is empty, every
    token of the edited text is an insertion and nothing is deleted. *)
Theorem one_side_empty (original edited : string) :
  (edited = "" → original ≠ "" →
   calculate_edit_distance original edited
   = (0, length (Py.split original)))
  ∧ (original = "" → edited ≠ "" →
     calculate_edit_distance original edited
     = (length (Py.split edited), 0)).
Proof.
  unfold calculate_edit_distance. split.
  - intros -> _. change (Py.split "") with (@nil string).
    rewrite compare_empty_b.
    change (λ line : string, "- " +:+ line)
      with (λ line : string, String "-" (String " " line)).
    by rewrite !count_tagged.
  - intros -> _. change (Py.split "") with (@nil string).
    rewrite compare_empty_a.
    change (λ line : string, "+ " +:+ line)
      with (λ line : string, String "+" (String " " line)).
    by rewrite !count_tagged.
Qed.

Lemma one_side_empty_witness :
  calculate_edit_distance "The cat sat." "" = (0, 3)
  ∧ calculate_edit_distance "" "It was sunny." = (3, 0).
Proof.
  split.
  - apply (proj1 (one_side_empty "The cat sat." "")); [reflexivity|discriminate].
  - apply (proj2 (one_side_empty "" "It was sunny.")); [reflexivity|discriminate].
Defined.

(** ** [difflib]: what a delta is *)

Lemma Delta_app l1 a1 b1 l2 a2 b2 :
  Delta l1 a1 b1 → Delta l2 a2 b2 →
  Delta (l1 ++ l2) (a1 ++ a2) (b1 ++ b2).
Proof. induction 1; intros H2; simpl; try constructor; auto. Qed.

Lemma Delta_dump_minus (xs : list string) :
  Delta ((λ line, "-" +:+ " " +:+ line) <$> xs) xs [].
Proof. induction xs; simpl; [constructor|by apply delta_minus]. Qed.

Lemma Delta_dump_plus (xs : list string) :
  Delta ((λ line, "+" +:+ " " +:+ line) <$> xs) [] xs.
Proof. induction xs; simpl; [constructor|by apply delta_plus]. Qed.

Lemma Delta_dump_same (xs : list string) :
  Delta ((λ line, " " +:+ " " +:+ line) <$> xs) xs xs.
Proof. induction xs; simpl; [constructor|by apply delta_same]. Qed.

Lemma Delta_qformat (aline bline atags btags : string) :
  Delta (Differ.qformat aline bline atags btags) [aline] [bline].
Proof.
  unfold Differ.qformat.
  repeat case_decide; simpl;
    repeat (first [apply delta_minus | apply delta_plus
                  | apply (delta_hint (_ +:+ Differ.newline))
                  | apply delta_end]).
Qed.

(** ** Slices *)

Lemma slice_nil {X} (x : list X) (lo hi : nat) :
  hi ≤ lo → Py.slice x lo hi = [].
Proof.
  intros Hle. unfold Py.slice.
  by replace (hi - lo) with 0 by lia.
Qed.

Lemma slice_split {X} (x : list X) (lo mid hi : nat) :
  lo ≤ mid ≤ hi → Py.slice x lo hi = Py.slice x lo mid ++ Py.slice x mid hi.
Proof.
  intros [Hl Hh]. unfold Py.slice.
  replace (hi - lo) with ((mid - lo) + (hi - mid)) by lia.
  rewrite <- take_take_drop, drop_drop.
  by replace (lo + (mid - lo)) with mid by lia.
Qed.

Lemma slice_one {X} (x : list X) (i : nat) (e : X) :
  x !! i = Some e → Py.slice x i (i + 1) = [e].
Proof.
  intros Hi. unfold Py.slice. replace (i + 1 - i) with 1 by lia.
  rewrite <- (take_drop_middle x i e Hi) at 1.
  rewrite drop_app_length'; [done|].
  rewrite length_take. apply lookup_lt_Some in Hi. lia.
Qed.

Lemma slice_from {X} (x : list X) (lo hi : nat) :
  length x ≤ hi → Py.slice x lo hi = drop lo x.
Proof.
  intros Hh. unfold Py.slice. apply take_ge. rewrite length_drop. lia.
Qed.

(** A fold keeps what each of its steps keeps. *)
Lemma fold_left_keeps {S X} (P : S → Prop) (Q : X → Prop) (f : S → X → S)
    (l : list X) (s : S) :
  P s → Forall Q l → (∀ s x, P s → Q x → P (f s x)) →
  P (fold_left f l s).
Proof.
  intros Hs Hl Hf. revert s Hs.
  induction Hl as [|x l Hx Hl IH]; intros s Hs; simpl; auto.
Qed.

Lemma Forall_seq_range (lo n : nat) :
  Forall (λ i, lo ≤ i < lo + n) (seq lo n).
Proof. apply Forall_forall. intros i Hi. apply elem_of_seq in Hi. lia. Qed.

(** ** [difflib.Differ]: the lines of a replaced block *)

Lemma search_step_in a alo ahi b blo bhi j st i :
  search_in a alo ahi b blo bhi st →
  alo ≤ i < ahi → blo ≤ j < bhi →
  search_in a alo ahi b blo bhi (Differ.search_step a b j st i).
Proof.
  intros Hst Hi Hj. unfold Differ.search_step.
  destruct (a !! i) as [ai|] eqn:Hai; [|done].
  destruct (b !! j) as [bj|] eqn:Hbj; [|done].
  case_decide as Hsame.
  - case_match; [done|].
    split; simpl; [|apply Hst].
    intros i' j' [= <- <-]. split_and!; try lia. exists ai. by subst.
  - case_match; [|done].
    split; simpl; [apply Hst|].
    intros r i' j' [= _ <- <-]. lia.
Qed.

Lemma search_result_in a alo ahi b blo bhi :
  search_in a alo ahi b blo bhi (Differ.search a alo ahi b blo bhi).
Proof.
  unfold Differ.search.
  apply (fold_left_keeps (search_in a alo ahi b blo bhi)
           (λ j, blo ≤ j < blo + (bhi - blo))).
  - split; simpl; done.
  - apply Forall_seq_range.
  - intros st j Hst Hj.
    apply (fold_left_keeps (search_in a alo ahi b blo bhi)
             (λ i, alo ≤ i < alo + (ahi - alo))); [done|apply Forall_seq_range|].
    intros st' i Hst' Hi. apply search_step_in; [done|lia..].
Qed.

Lemma synch_point_in a alo ahi b blo bhi best_i best_j identical :
  Differ.synch_point (Differ.search a alo ahi b blo bhi)
  = Some (best_i, best_j, identical) →
  alo ≤ best_i < ahi ∧ blo ≤ best_j < bhi
  ∧ (identical = true → ∃ x, a !! best_i = Some x ∧ b !! best_j = Some x).
Proof.
  pose proof (search_result_in a alo ahi b blo bhi) as [Heq Hbest].
  unfold Differ.synch_point.
  destruct (Differ.best_ratio _ <? Differ.cutoff)%float.
  - destruct (Differ.sr_eq _) as [[i j]|] eqn:Hp; [|done].
    intros [= <- <- <-]. destruct (Heq i j eq_refl) as (? & ? & ?). done.
  - destruct (Differ.sr_best _) as [[[r i] j]|] eqn:Hp; [|done].
    intros [= <- <- <-]. destruct (Hbest r i j eq_refl) as (? & ?). done.
Qed.

Lemma fancy_helper_delta replace a b alo ahi blo bhi :
  (alo < ahi → blo < bhi →
   Delta (replace alo ahi blo bhi) (Py.slice a alo ahi) (Py.slice b blo bhi)) →
  Delta (fancy_helper replace a b alo ahi blo bhi)
    (Py.slice a alo ahi) (Py.slice b blo bhi).
Proof.
  intros Hr. unfold fancy_helper.
  destruct (Nat.ltb_spec alo ahi) as [Ha|Ha];
    destruct (Nat.ltb_spec blo bhi) as [Hb|Hb].
  - by apply Hr.
  - rewrite (slice_nil b) by done. apply Delta_dump_minus.
  - rewrite (slice_nil a) by done. apply Delta_dump_plus.
  - rewrite (slice_nil a), (slice_nil b) by done. constructor.
Qed.

(** The lines that replace a block of [a] by a block of [b] are a delta
    from the one to the other. *)
Lemma fancy_replace_delta (fuel : nat) (a b : list string) :
  ∀ alo ahi blo bhi,
    alo < ahi ≤ length a → blo < bhi ≤ length b →
    (ahi - alo) + (bhi - blo) ≤ fuel →
    Delta (Differ.fancy_replace fuel a alo ahi b blo bhi)
      (Py.slice a alo ahi) (Py.slice b blo bhi).
Proof.
  induction fuel as [|fuel IH]; intros alo ahi blo bhi Ha Hb Hfuel; [lia|].
  cbn [Differ.fancy_replace].
  destruct (Differ.synch_point _) as [[[best_i best_j] identical]|] eqn:Hsp.
  - apply synch_point_in in Hsp as (Hi & Hj & Hid).
    destruct (lookup_lt_is_Some_2 a best_i ltac:(lia)) as [aelt Haelt].
    destruct (lookup_lt_is_Some_2 b best_j ltac:(lia)) as [belt Hbelt].
    rewrite Haelt, Hbelt. cbn [default from_option id].
    rewrite (slice_split a alo best_i ahi) by lia.
    rewrite (slice_split a best_i (best_i + 1) ahi) by lia.
    rewrite (slice_split b blo best_j bhi) by lia.
    rewrite (slice_split b best_j (best_j + 1) bhi) by lia.
    rewrite (slice_one a best_i aelt Haelt), (slice_one b best_j belt Hbelt).
    apply Delta_app; [|apply Delta_app].
    + apply (fancy_helper_delta
               (λ alo ahi blo bhi, Differ.fancy_replace fuel a alo ahi b blo bhi)).
      intros ? ?. apply IH; lia.
    + destruct identical.
      * destruct (Hid eq_refl) as (x & Hx & Hx').
        assert (aelt = x) as -> by congruence.
        assert (belt = x) as -> by congruence.
        apply delta_same. constructor.
      * destruct (Differ.intraline_tags aelt belt) as [atags btags].
        apply Delta_qformat.
    + apply (fancy_helper_delta
               (λ alo ahi blo bhi, Differ.fancy_replace fuel a alo ahi b blo bhi)).
      intros ? ?. apply IH; lia.
  - unfold Differ.plain_replace. case_match.
    + rewrite <- (app_nil_l (Py.slice a alo ahi)).
      rewrite <- (app_nil_r (Py.slice b blo bhi)).
      apply Delta_app; [apply Delta_dump_plus|apply Delta_dump_minus].
    + rewrite <- (app_nil_r (Py.slice a alo ahi)).
      rewrite <- (app_nil_l (Py.slice b blo bhi)).
      apply Delta_app; [apply Delta_dump_minus|apply Delta_dump_plus].
Qed.

(** ** [difflib.SequenceMatcher]: the blocks found are matching blocks *)

Section Blocks.
Context `{Countable A}.
Import SequenceMatcher.

Lemma index_b_sound (b : list A) : index_sound b (index_b b).
Proof.
  unfold index_b.
  apply (fold_left_keeps (index_sound b) (λ p, b !! p.1 = Some p.2)).
  - intros x js j Hx. by rewrite lookup_empty in Hx.
  - apply Forall_forall. intros [i elt] Hin.
    apply elem_of_lookup_imap in Hin as (i' & y & [= -> ->] & Hy). done.
  - intros b2j [i elt] Hsound Hi x js j. simpl in Hi.
    destruct (decide (elt = x)) as [->|Hne].
    + rewrite lookup_insert_eq. intros [= <-] Hj.
      apply elem_of_app in Hj as [Hj|Hj].
      * destruct (b2j !! x) as [js|] eqn:Hjs; simpl in Hj.
        -- by apply (Hsound x js).
        -- by apply elem_of_nil in Hj.
      * apply list_elem_of_singleton in Hj as ->. done.
    + rewrite lookup_insert_ne by done. apply Hsound.
Qed.

Lemma chain_b_sound (b : list A) : index_sound b (chain_b b).
Proof.
  unfold chain_b. case_match; [|apply index_b_sound].
  intros x js j Hx. apply map_lookup_filter_Some in Hx as [Hx _].
  by apply index_b_sound.
Qed.

Lemma matches_grow_right (a b : list A) i j k x :
  matches a b i j k → a !! (i + k) = Some x → b !! (j + k) = Some x →
  matches a b i j (S k).
Proof.
  intros Hm Ha Hb d Hd. destruct (decide (d = k)) as [->|Hne].
  - by exists x.
  - apply Hm. lia.
Qed.

Lemma matches_grow_left (a b : list A) i j k x :
  matches a b (S i) (S j) k → a !! i = Some x → b !! j = Some x →
  matches a b i j (S k).
Proof.
  intros Hm Ha Hb [|d] Hd.
  - exists x. by rewrite !Nat.add_0_r.
  - destruct (Hm d ltac:(lia)) as (y & Hy & Hy'). exists y.
    by rewrite <- !Nat.add_succ_comm.
Qed.

Lemma matches_one (a b : list A) i j x i' j' :
  a !! i = Some x → b !! j = Some x → i' = i → j' = j →
  matches a b i' j' 1.
Proof.
  intros Ha Hb -> -> d Hd. replace d with 0 by lia. exists x.
  by rewrite !Nat.add_0_r.
Qed.

Lemma same_at_true (a b : list A) i j :
  same_at a b i j = true → ∃ x, a !! i = Some x ∧ b !! j = Some x.
Proof.
  unfold same_at. destruct (a !! i) as [x|]; [|done].
  destruct (b !! j) as [y|]; [|done].
  intros Heq. apply bool_decide_eq_true in Heq as ->. by exists y.
Qed.

Lemma longest_row_ok (a b : list A) (alo ahi blo bhi i : nat) (x : A)
    (j2len : gmap nat nat) (js : list nat) :
  alo ≤ i < ahi → a !! i = Some x →
  Forall (λ j, b !! j = Some x) js →
  row_ok a b alo blo bhi i j2len →
  ∀ newj2len best,
    row_ok a b alo blo bhi (S i) newj2len →
    block_in a b alo ahi blo bhi best →
    row_ok a b alo blo bhi (S i)
      (longest_row j2len blo bhi i js newj2len best).1
    ∧ block_in a b alo ahi blo bhi
        (longest_row j2len blo bhi i js newj2len best).2.
Proof.
  intros Hi Hx Hjs Hrow.
  induction Hjs as [|j js Hj Hjs IH]; intros newj2len best Hnew Hbest;
    [done|].
  cbn [longest_row].
  destruct (Nat.ltb_spec j blo) as [Hlo|Hlo]; [by apply IH|].
  destruct (Nat.leb_spec bhi j) as [Hhi|Hhi]; [done|].
  set (k := match j with 0 => 0 | S j' => default 0 (j2len !! j') end + 1).
  assert (Hk : 1 ≤ k ∧ k ≤ S i - alo ∧ k ≤ j + 1 - blo
               ∧ matches a b (S i - k) (j + 1 - k) k).
  { unfold k. destruct j as [|j'].
    - split_and!; try (simpl; lia).
      apply (matches_one _ _ i 0 x); [done..|simpl; lia|simpl; lia].
    - destruct (j2len !! j') as [k'|] eqn:Hk'; cbn [default from_option id].
      + destruct (Hrow j' k' Hk') as (H1 & H2 & H3 & H4 & H5).
        split_and!; try lia.
        replace (k' + 1) with (S k') by lia.
        replace (S i - S k') with (i - k') by lia.
        replace (S j' + 1 - S k') with (j' + 1 - k') by lia.
        apply (matches_grow_right _ _ _ _ _ x); [done|..].
        * by replace (i - k' + k') with i by lia.
        * by replace (j' + 1 - k' + k') with (S j') by lia.
      + split_and!; try lia.
        apply (matches_one _ _ i (S j') x); [done..|lia|lia]. }
  destruct Hk as (Hk1 & Hk2 & Hk3 & Hk4).
  apply IH.
  - intros j0 k0. destruct (decide (j = j0)) as [<-|Hne].
    + rewrite lookup_insert_eq. intros [= <-]. split_and!; try done; lia.
    + rewrite lookup_insert_ne by done. apply Hnew.
  - case_match; [|done].
    unfold block_in. simpl.
    replace (i + 1 - k) with (S i - k) by lia.
    split_and!; try lia. done.
Qed.

Lemma longest_rows_fold (a b : list A) (b2j : gmap A (list nat))
    (alo ahi blo bhi : nat) :
  ahi ≤ length a → index_sound b b2j →
  ∀ n i st,
    alo ≤ i → i + n ≤ ahi →
    row_ok a b alo blo bhi i st.1 →
    block_in a b alo ahi blo bhi st.2 →
    block_in a b alo ahi blo bhi
      (fold_left
         (λ '(j2len, best) i,
            longest_row j2len blo bhi i
              (default [] (a !! i ≫= (b2j !!.))) ∅ best)
         (seq i n) st).2.
Proof.
  intros Hahi Hsound. induction n as [|n IH]; intros i [j2len best] Hi Hn
    Hrow Hbest; [done|].
  cbn [seq fold_left].
  destruct (lookup_lt_is_Some_2 a i ltac:(lia)) as [x Hx].
  assert (Hjs : Forall (λ j, b !! j = Some x)
                  (default [] (a !! i ≫= (b2j !!.)))).
  { rewrite Hx. simpl. destruct (b2j !! x) as [js|] eqn:Hjs; simpl; [|done].
    apply Forall_forall. intros j Hj. by apply (Hsound x js). }
  destruct (longest_row_ok a b alo ahi blo bhi i x j2len _ ltac:(lia) Hx
              Hjs Hrow ∅ best) as [Hrow' Hbest']; [|done|].
  { intros j k Hjk. by rewrite lookup_empty in Hjk. }
  destruct (longest_row j2len blo bhi i _ ∅ best) as [j2len' best'] eqn:Hr.
  apply IH; [lia|lia|done|done].
Qed.

Lemma longest_rows_block (a b : list A) (b2j : gmap A (list nat))
    (alo ahi blo bhi : nat) :
  alo ≤ ahi ≤ length a → blo ≤ bhi → index_sound b b2j →
  block_in a b alo ahi blo bhi (longest_rows a b2j alo ahi blo bhi).
Proof.
  intros Ha Hb Hsound. unfold longest_rows.
  apply (longest_rows_fold a b b2j alo ahi blo bhi); [lia|done|lia|lia|..].
  - intros j k Hjk. simpl in Hjk. by rewrite lookup_empty in Hjk.
  - unfold block_in. simpl. split_and!; try lia. intros d Hd. lia.
Qed.

Lemma extend_left_block (a b : list A) (alo ahi blo bhi : nat) :
  ∀ besti bestj bestsize,
    block_in a b alo ahi blo bhi (besti, bestj, bestsize) →
    block_in a b alo ahi blo bhi
      (extend_left a b alo blo besti bestj bestsize).
Proof.
  induction besti as [|i' IH]; intros bestj bestsize Hblock; [done|].
  destruct bestj as [|j']; [done|]. cbn [extend_left].
  destruct ((alo <? S i') && (blo <? S j') && same_at a b i' j') eqn:Hc;
    [|done].
  apply andb_prop in Hc as [Hc Hsame]. apply andb_prop in Hc as [Hi Hj].
  apply Nat.ltb_lt in Hi, Hj.
  apply same_at_true in Hsame as (x & Hx & Hx').
  destruct Hblock as (H1 & H2 & H3 & H4 & H5). simpl in *.
  apply IH. unfold block_in. simpl. split_and!; try lia.
  by apply (matches_grow_left _ _ _ _ _ x).
Qed.

Lemma extend_right_block (a b : list A) (alo ahi blo bhi besti bestj : nat) :
  ∀ fuel bestsize,
    block_in a b alo ahi blo bhi (besti, bestj, bestsize) →
    block_in a b alo ahi blo bhi
      (besti, bestj, extend_right a b ahi bhi besti bestj bestsize fuel).
Proof.
  induction fuel as [|fuel IH]; intros bestsize Hblock; [done|].
  cbn [extend_right].
  destruct ((besti + bestsize <? ahi) && (bestj + bestsize <? bhi)
            && same_at a b (besti + bestsize) (bestj + bestsize)) eqn:Hc;
    [|done].
  apply andb_prop in Hc as [Hc Hsame]. apply andb_prop in Hc as [Hi Hj].
  apply Nat.ltb_lt in Hi, Hj.
  apply same_at_true in Hsame as (x & Hx & Hx').
  destruct Hblock as (H1 & H2 & H3 & H4 & H5). simpl in *.
  apply IH. unfold block_in. simpl. split_and!; try lia.
  by apply (matches_grow_right _ _ _ _ _ x).
Qed.

(** [find_longest_match] returns a block of equal elements inside the
    region it is asked to search. *)
Lemma find_longest_match_block (a b : list A) (b2j : gmap A (list nat))
    (alo ahi blo bhi : nat) :
  alo ≤ ahi ≤ length a → blo ≤ bhi → index_sound b b2j →
  block_in a b alo ahi blo bhi
    (find_longest_match a b b2j alo ahi blo bhi).
Proof.
  intros Ha Hb Hsound. unfold find_longest_match.
  pose proof (longest_rows_block a b b2j alo ahi blo bhi Ha Hb Hsound)
    as Hrows.
  destruct (longest_rows a b2j alo ahi blo bhi) as [[i j] k].
  pose proof (extend_left_block a b alo ahi blo bhi i j k Hrows) as Hleft.
  destruct (extend_left a b alo blo i j k) as [[i' j'] k'].
  by apply extend_right_block.
Qed.

End Blocks.

(** ** [difflib.SequenceMatcher]: the blocks found do not cross *)

Section WorkList.
Context `{Countable A}.
Import SequenceMatcher.

#[local] Instance apart_sym : Symmetric apart.
Proof. intros x y [?|?]; [by right|by left]. Qed.

Lemma apart_within x y z : within x y → apart y z → apart x z.
Proof. unfold within, apart, before. lia. Qed.

Lemma loop_inv_pop (a b : list A) r queue mbs :
  loop_inv a b (r :: queue) mbs →
  loop_inv a b queue mbs
  ∧ region_ok a b r
  ∧ Forall (apart r) queue
  ∧ (∀ m, m ∈ mbs → apart r (box m)).
Proof.
  intros (Hq & Hb & Hqq & Hbb & Hqb).
  apply Forall_cons in Hq as [Hr Hq].
  apply StronglySorted_cons in Hqq as [Hrq Hqq].
  split; [|split; [done|split; [done|]]].
  - split_and!; try done.
    intros q m Hq' Hm. apply Hqb; [by right|done].
  - intros m Hm. apply Hqb; [by left|done].
Qed.

Lemma loop_inv_block (a b : list A) queue mbs m :
  loop_inv a b queue mbs → good_block a b m →
  (∀ q, q ∈ queue → apart q (box m)) →
  (∀ m', m' ∈ mbs → apart (box m') (box m)) →
  loop_inv a b queue (mbs ++ [m]).
Proof.
  intros (Hq & Hb & Hqq & Hbb & Hqb) Hm Hqm Hbm.
  split_and!; try done.
  - apply Forall_app. split; [done|]. by apply Forall_singleton.
  - rewrite fmap_app. apply StronglySorted_app_2; [|done|].
    + intros x1 x2 Hx1 Hx2. simpl in Hx2.
      apply list_elem_of_singleton in Hx2 as ->.
      apply list_elem_of_fmap in Hx1 as (m' & -> & Hm'). by apply Hbm.
    + simpl. repeat constructor.
  - intros q m' Hq' Hm'. apply elem_of_app in Hm' as [Hm'|Hm'].
    + by apply Hqb.
    + apply list_elem_of_singleton in Hm' as ->. by apply Hqm.
Qed.

Lemma loop_inv_push (a b : list A) queue mbs r :
  loop_inv a b queue mbs → region_ok a b r →
  (∀ q, q ∈ queue → apart r q) →
  (∀ m, m ∈ mbs → apart r (box m)) →
  loop_inv a b (r :: queue) mbs.
Proof.
  intros (Hq & Hb & Hqq & Hbb & Hqb) Hr Hrq Hrb.
  split_and!; try done.
  - by constructor.
  - apply StronglySorted_cons. split; [|done]. by apply Forall_forall.
  - intros q m Hq' Hm. apply elem_of_cons in Hq' as [->|Hq'].
    + by apply Hrb.
    + by apply Hqb.
Qed.

(** The blocks that the loop has collected when it stops are non-empty
    blocks of equal elements that lie pairwise apart. *)
Lemma matching_loop_blocks (a b : list A) (b2j : gmap A (list nat)) :
  index_sound b b2j →
  ∀ fuel queue mbs,
    loop_inv a b queue mbs →
    Forall (good_block a b) (matching_loop a b b2j fuel queue mbs)
    ∧ StronglySorted apart (box <$> matching_loop a b b2j fuel queue mbs).
Proof.
  intros Hsound. induction fuel as [|fuel IH]; intros queue mbs Hinv.
  { destruct Hinv as (_ & Hb & _ & Hbb & _). by destruct queue. }
  destruct queue as [|[[[alo ahi] blo] bhi] queue].
  { destruct Hinv as (_ & Hb & _ & Hbb & _). done. }
  cbn [matching_loop].
  apply loop_inv_pop in Hinv as (Hinv & Hr & Hrq & Hrb).
  destruct Hr as [Hra Hrb']. simpl in Hra, Hrb'.
  pose proof (find_longest_match_block a b b2j alo ahi blo bhi
                ltac:(lia) ltac:(lia) Hsound) as Hblock.
  destruct (find_longest_match a b b2j alo ahi blo bhi) as [[i j] k].
  destruct Hblock as (H1 & H2 & H3 & H4 & H5). simpl in H1, H2, H3, H4, H5.
  destruct (Nat.eqb_spec k 0) as [->|Hk]; [by apply IH|].
  rewrite Forall_forall in Hrq.
  assert (Hwm : within (box (i, j, k)) (alo, ahi, blo, bhi)).
  { unfold within, box. simpl. lia. }
  apply IH.
  assert (Hinv1 : loop_inv a b queue (mbs ++ [(i, j, k)])).
  { apply loop_inv_block; [done|..].
    - split; [simpl; lia|]. unfold block_in. simpl. split_and!; try lia. done.
    - intros q Hq. symmetry. apply (apart_within _ _ _ Hwm). by apply Hrq.
    - intros m' Hm'. symmetry. apply (apart_within _ _ _ Hwm). by apply Hrb. }
  assert (Hinv2 : loop_inv a b
            (if (alo <? i) && (blo <? j) then (alo, i, blo, j) :: queue
             else queue) (mbs ++ [(i, j, k)])).
  { case_match; [|done].
    assert (Hw : within (alo, i, blo, j) (alo, ahi, blo, bhi)).
    { unfold within. simpl. lia. }
    apply loop_inv_push; [done|..].
    - unfold region_ok. simpl. lia.
    - intros q Hq. apply (apart_within _ _ _ Hw). by apply Hrq.
    - intros m Hm. apply elem_of_app in Hm as [Hm|Hm].
      + apply (apart_within _ _ _ Hw). by apply Hrb.
      + apply list_elem_of_singleton in Hm as ->. left.
        unfold before, box. simpl. lia. }
  destruct ((i + k <? ahi) && (j + k <? bhi)) eqn:Hc; [|exact Hinv2].
  assert (Hw : within (i + k, ahi, j + k, bhi) (alo, ahi, blo, bhi)).
  { unfold within. simpl. lia. }
  apply loop_inv_push; [done|..].
  - unfold region_ok. simpl. lia.
  - intros q Hq. destruct ((alo <? i) && (blo <? j)) eqn:Hc'.
    + apply elem_of_cons in Hq as [->|Hq].
      * right. unfold before. simpl. lia.
      * apply (apart_within _ _ _ Hw). by apply Hrq.
    + apply (apart_within _ _ _ Hw). by apply Hrq.
  - intros m Hm. apply elem_of_app in Hm as [Hm|Hm].
    + apply (apart_within _ _ _ Hw). by apply Hrb.
    + apply list_elem_of_singleton in Hm as ->. right.
      unfold before, box. simpl. lia.
Qed.

End WorkList.

(** ** [difflib.SequenceMatcher]: the sorted blocks follow one another *)

Section Sorted.
Context `{Countable A}.
Import SequenceMatcher.

#[local] Instance match_le_trans : Transitive match_le.
Proof.
  intros [[i1 j1] k1] [[i2 j2] k2] [[i3 j3] k3]. unfold match_le. lia.
Qed.

#[local] Instance match_le_total : Total match_le.
Proof. intros [[i1 j1] k1] [[i2 j2] k2]. unfold match_le. lia. Qed.

Lemma StronglySorted_symmetric {X} (R : relation X) `{!Symmetric R}
    (l l' : list X) :
  l ≡ₚ l' → StronglySorted R l → StronglySorted R l'.
Proof.
  induction 1 as [|x l l' Hp IH|x y l|l l' l'' Hp IH Hp' IH']; intros Hs.
  - done.
  - apply StronglySorted_cons in Hs as [Hx Hs].
    apply StronglySorted_cons. split; [by rewrite <- Hp|by apply IH].
  - apply StronglySorted_cons in Hs as [Hy Hs].
    apply StronglySorted_cons in Hs as [Hx Hs].
    apply Forall_cons in Hy as [Hyx Hy].
    repeat (apply StronglySorted_cons; split); try done.
    constructor; [by symmetry|done].
  - auto.
Qed.

Lemma StronglySorted_fmap_inv {X Y} (f : X → Y) (R : relation Y)
    (l : list X) :
  StronglySorted R (f <$> l) → StronglySorted (λ x y, R (f x) (f y)) l.
Proof.
  induction l as [|x l IH]; [constructor|].
  rewrite fmap_cons. intros Hs.
  apply StronglySorted_cons in Hs as [Hx Hs].
  apply StronglySorted_cons. split; [|by apply IH].
  rewrite Forall_fmap in Hx. exact Hx.
Qed.

Lemma StronglySorted_both {X} (P : X → Prop) (R1 R2 R3 : relation X)
    (l : list X) :
  (∀ x y, P x → P y → R1 x y → R2 x y → R3 x y) →
  Forall P l → StronglySorted R1 l → StronglySorted R2 l →
  StronglySorted R3 l.
Proof.
  intros Himp. induction l as [|x l IH]; intros HP H1 H2; [constructor|].
  apply Forall_cons in HP as [Hx HP].
  apply StronglySorted_cons in H1 as [Hx1 H1].
  apply StronglySorted_cons in H2 as [Hx2 H2].
  apply StronglySorted_cons. split; [|by apply IH].
  rewrite Forall_forall in HP, Hx1, Hx2 |- *. intros y Hy.
  apply Himp; auto.
Qed.

(** Sorting the blocks found puts them in the order in which they follow
    one another in both sequences. *)
Lemma sorted_blocks_precede (a b : list A) (mbs : list Match) :
  Forall (good_block a b) mbs →
  StronglySorted apart (box <$> mbs) →
  Forall (good_block a b) (merge_sort match_le mbs)
  ∧ StronglySorted precedes (merge_sort match_le mbs).
Proof.
  intros Hgood Hapart.
  pose proof (merge_sort_Permutation match_le mbs) as Hp.
  assert (Hgood' : Forall (good_block a b) (merge_sort match_le mbs)).
  { by rewrite Hp. }
  split; [done|].
  apply (StronglySorted_both (good_block a b) match_le
           (λ x y, apart (box x) (box y))); [|done|..].
  - intros [[i1 j1] k1] [[i2 j2] k2] [Hk1 _] [Hk2 _].
    unfold match_le, apart, precedes, before, box. simpl in *. lia.
  - apply StronglySorted_merge_sort; apply _.
  - apply StronglySorted_fmap_inv.
    apply (StronglySorted_symmetric apart (box <$> mbs)); [|done].
    by apply fmap_Permutation.
Qed.

Lemma precedes_trans (x y z : Match) :
  precedes x y → precedes y z → precedes x z.
Proof. unfold precedes, before, box. simpl. lia. Qed.

Lemma matches_app (a b : list A) i j k1 k2 :
  matches a b i j k1 → matches a b (i + k1) (j + k1) k2 →
  matches a b i j (k1 + k2).
Proof.
  intros H1 H2 d Hd. destruct (decide (d < k1)) as [Hlt|Hge]; [by apply H1|].
  destruct (H2 (d - k1) ltac:(lia)) as (x & Hx & Hx'). exists x.
  by replace (i + d) with (i + k1 + (d - k1)) by lia;
     replace (j + d) with (j + k1 + (d - k1)) by lia.
Qed.

Lemma collapse_step_inv (a b : list A) st x rest :
  collapse_inv a b st (x :: rest) →
  collapse_inv a b (collapse_step st x) rest.
Proof.
  destruct st as [[[i1 j1] k1] na]. destruct x as [[i2 j2] k2].
  intros (Hw & Hs & Hpre & Hwr & Hsr).
  apply Forall_cons in Hpre as [Hpx Hpre].
  apply Forall_cons in Hwr as [Hwx Hwr].
  apply StronglySorted_cons in Hsr as [Hxr Hsr].
  apply Forall_app in Hw as [Hwna Hwc].
  rewrite Forall_singleton in Hwc.
  apply (proj1 (StronglySorted_app _ _ _)) in Hs as (Hnc & Hsna & _).
  unfold collapse_step.
  destruct ((i1 + k1 =? i2) && (j1 + k1 =? j2)) eqn:Hadj.
  - apply andb_prop in Hadj as [Hi Hj].
    apply Nat.eqb_eq in Hi, Hj. subst i2 j2.
    assert (Hwm : whole_block a b (i1, j1, k1 + k2)).
    { unfold whole_block, block_in in Hwc, Hwx. simpl in Hwc, Hwx.
      destruct Hwc as (? & ? & ? & ? & Hm1).
      destruct Hwx as (? & ? & ? & ? & Hm2).
      unfold whole_block, block_in. simpl. split_and!; try lia.
      by apply matches_app. }
    split_and!; try done.
    + apply Forall_app. split; [done|by apply Forall_singleton].
    + apply StronglySorted_app_2; [|done|repeat constructor].
      intros n c Hn Hc. apply list_elem_of_singleton in Hc as ->.
      specialize (Hnc n (i1, j1, k1) Hn ltac:(by left)).
      revert Hnc. unfold precedes, before, box. simpl. lia.
    + eapply Forall_impl; [exact Hxr|]. intros y.
      unfold precedes, before, box. simpl. lia.
  - assert (Hnx : ∀ n, n ∈ na → precedes n (i2, j2, k2)).
    { intros n Hn. eapply precedes_trans; [|exact Hpx].
      apply Hnc; [done|by left]. }
    destruct (Nat.eqb_spec k1 0) as [->|Hk1].
    + split_and!; try done.
      * apply Forall_app. split; [done|by apply Forall_singleton].
      * apply StronglySorted_app_2; [|done|repeat constructor].
        intros n c Hn Hc. apply list_elem_of_singleton in Hc as ->. auto.
    + split_and!; try done.
      * apply Forall_app. split; [|by apply Forall_singleton].
        apply Forall_app. split; [done|by apply Forall_singleton].
      * apply StronglySorted_app_2; [| |repeat constructor].
        -- intros n c Hn Hc. apply list_elem_of_singleton in Hc as ->.
           apply elem_of_app in Hn as [Hn|Hn]; [auto|].
           by apply list_elem_of_singleton in Hn as ->.
        -- apply StronglySorted_app_2; [done|done|repeat constructor].
Qed.

Lemma collapse_fold_inv (a b : list A) rest : ∀ st,
  collapse_inv a b st rest →
  collapse_inv a b (fold_left collapse_step rest st) [].
Proof.
  induction rest as [|x rest IH]; intros st Hinv; [done|].
  simpl. apply IH. by apply collapse_step_inv.
Qed.

(** The blocks of [get_matching_blocks], the closing dummy included, are
    blocks of equal elements that follow one another. *)
Lemma get_matching_blocks_chain (a b : list A) :
  ∃ blocks,
    get_matching_blocks a b = blocks ++ [(length a, length b, 0)]
    ∧ Forall (whole_block a b) blocks
    ∧ StronglySorted precedes blocks.
Proof.
  unfold get_matching_blocks.
  destruct (matching_loop_blocks a b (chain_b b) (chain_b_sound b)
              (matching_fuel a) [(0, length a, 0, length b)] [])
    as [Hgood Hapart].
  { split_and!; try (by constructor).
    - apply Forall_singleton. unfold region_ok. simpl. lia.
    - repeat constructor.
    - intros q m _ Hm. by apply elem_of_nil in Hm. }
  destruct (sorted_blocks_precede a b _ Hgood Hapart) as [Hgood' Hsorted].
  eexists. split; [reflexivity|].
  set (sorted := merge_sort match_le _) in *.
  assert (Hinv : collapse_inv a b (0, 0, 0, []) sorted).
  { split_and!; try done.
    - apply Forall_singleton. unfold whole_block, block_in. simpl.
      split_and!; try lia. intros d Hd. lia.
    - repeat constructor.
    - apply Forall_forall. intros [[i j] k] _.
      unfold precedes, before, box. simpl. lia.
    - eapply Forall_impl; [exact Hgood'|]. by intros m [_ Hm]. }
  apply collapse_fold_inv in Hinv. unfold collapse.
  destruct (fold_left collapse_step sorted (0, 0, 0, []))
    as [[[i1 j1] k1] na].
  destruct Hinv as (Hw & Hs & _).
  destruct (Nat.eqb_spec k1 0) as [->|Hk1]; [|done].
  apply Forall_app in Hw as [Hw _].
  apply (proj1 (StronglySorted_app _ _ _)) in Hs as (_ & Hs & _). done.
Qed.

End Sorted.

(** ** [Differ.compare] yields a delta *)

Lemma matches_slice `{Countable A} (a b : list A) (i j k : nat) :
  matches a b i j k → Py.slice a i (i + k) = Py.slice b j (j + k).
Proof.
  intros Hm. unfold Py.slice.
  replace (i + k - i) with k by lia. replace (j + k - j) with k by lia.
  apply list_eq. intros d. rewrite !lookup_take, !lookup_drop.
  case_decide; [|done].
  destruct (Hm d ltac:(lia)) as (x & -> & ->). done.
Qed.

Lemma compare_opcode_lines (a b : list string) :
  Differ.compare a b = SequenceMatcher.get_opcodes a b ≫= opcode_lines a b.
Proof.
  unfold Differ.compare. f_equal.
Qed.

(** One round of the loop of [get_opcodes], from the position [(i, j)] to
    the end of the block [(ai, bj, size)]: the opcodes added give a delta
    from [a[i:ai+size]] to [b[j:bj+size]]. *)
Lemma opcode_step_delta (a b : list string) (i j ai bj size : nat)
    (answer : list SequenceMatcher.Opcode) :
  i ≤ ai → j ≤ bj → ai + size ≤ length a → bj + size ≤ length b →
  matches a b ai bj size →
  ∃ ops,
    SequenceMatcher.opcode_step (i, j, answer) (ai, bj, size)
    = (ai + size, bj + size, answer ++ ops)
    ∧ Delta (ops ≫= opcode_lines a b)
        (Py.slice a i (ai + size)) (Py.slice b j (bj + size)).
Proof.
  intros Hi Hj Ha Hb Hm.
  rewrite (slice_split a i ai (ai + size)) by lia.
  rewrite (slice_split b j bj (bj + size)) by lia.
  assert (Hequal : ∃ ops,
    (if size =? 0 then [] else [(SequenceMatcher.Equal, ai, ai + size, bj, bj + size)])
    = ops
    ∧ Delta (ops ≫= opcode_lines a b)
        (Py.slice a ai (ai + size)) (Py.slice b bj (bj + size))).
  { eexists. split; [reflexivity|].
    destruct (Nat.eqb_spec size 0) as [->|Hs].
    - rewrite !slice_nil by lia. constructor.
    - rewrite bind_singleton. cbn [opcode_lines].
      rewrite <- (matches_slice a b ai bj size Hm).
      apply Delta_dump_same. }
  destruct Hequal as (eq_ops & Heq & Hdelta).
  assert (Hgap : ∃ ops,
    (if (i <? ai) && (j <? bj)
     then answer ++ [(SequenceMatcher.Replace, i, ai, j, bj)]
     else if i <? ai then answer ++ [(SequenceMatcher.Delete, i, ai, j, bj)]
     else if j <? bj then answer ++ [(SequenceMatcher.Insert, i, ai, j, bj)]
     else answer) = answer ++ ops
    ∧ Delta (ops ≫= opcode_lines a b) (Py.slice a i ai) (Py.slice b j bj)).
  { destruct (Nat.ltb_spec i ai) as [Hia|Hia];
      destruct (Nat.ltb_spec j bj) as [Hjb|Hjb]; cbn [andb].
    - eexists. split; [reflexivity|]. rewrite bind_singleton.
      cbn [opcode_lines]. apply fancy_replace_delta; lia.
    - eexists. split; [reflexivity|]. rewrite bind_singleton.
      cbn [opcode_lines]. rewrite (slice_nil b) by lia.
      apply Delta_dump_minus.
    - eexists. split; [reflexivity|]. rewrite bind_singleton.
      cbn [opcode_lines]. rewrite (slice_nil a) by lia.
      apply Delta_dump_plus.
    - exists []. split; [by rewrite app_nil_r|].
      rewrite !slice_nil by lia. constructor. }
  destruct Hgap as (gap_ops & Hgap & Hgapd).
  exists (gap_ops ++ eq_ops). split.
  - unfold SequenceMatcher.opcode_step. rewrite Hgap.
    rewrite app_assoc. f_equal. rewrite <- Heq.
    by destruct (size =? 0); rewrite ?app_nil_r.
  - rewrite bind_app. by apply Delta_app.
Qed.

(** The loop of [get_opcodes] over blocks that follow one another and end
    with the closing dummy. *)
Lemma opcodes_delta (a b : list string) (blocks : list SequenceMatcher.Match) :
  ∀ i j answer,
    i ≤ length a → j ≤ length b →
    Forall (whole_block a b) blocks →
    StronglySorted precedes blocks →
    Forall (λ m, i ≤ m.1.1 ∧ j ≤ m.1.2) blocks →
    ∃ ops,
      (fold_left SequenceMatcher.opcode_step
         (blocks ++ [(length a, length b, 0)]) (i, j, answer)).2
      = answer ++ ops
      ∧ Delta (ops ≫= opcode_lines a b) (drop i a) (drop j b).
Proof.
  induction blocks as [|[[ai bj] size] blocks IH];
    intros i j answer Hi Hj Hw Hs Hfrom.
  - destruct (opcode_step_delta a b i j (length a) (length b) 0 answer)
      as (ops & Hstep & Hdelta); [lia..| |].
    { intros d Hd. lia. }
    exists ops. simpl app. cbn [fold_left]. rewrite Hstep. split; [done|].
    rewrite !Nat.add_0_r in Hdelta.
    by rewrite !slice_from in Hdelta by lia.
  - apply Forall_cons in Hw as [Hwm Hw].
    apply StronglySorted_cons in Hs as [Hms Hs].
    apply Forall_cons in Hfrom as [[Hia Hjb] Hfrom].
    destruct Hwm as (_ & Ha & _ & Hb & Hm). simpl in Ha, Hb, Hm, Hia, Hjb.
    destruct (opcode_step_delta a b i j ai bj size answer)
      as (ops & Hstep & Hdelta); [done..|].
    destruct (IH (ai + size) (bj + size) (answer ++ ops))
      as (ops' & Hfold & Hdelta'); [lia|lia|done|done| |].
    { eapply Forall_impl; [exact Hms|]. intros [[i' j'] k'].
      unfold precedes, before, box. simpl. lia. }
    exists (ops ++ ops'). rewrite <- app_comm_cons. cbn [fold_left].
    rewrite Hstep, Hfold. split; [by rewrite app_assoc|].
    rewrite bind_app.
    rewrite <- (take_drop (ai + size - i) (drop i a)).
    rewrite <- (take_drop (bj + size - j) (drop j b)).
    rewrite !drop_drop.
    replace (i + (ai + size - i)) with (ai + size) by lia.
    replace (j + (bj + size - j)) with (bj + size) by lia.
    by apply Delta_app.
Qed.

(** The lines of [compare] are a delta from its first argument to its
    second. *)
Lemma compare_delta (a b : list string) : Delta (Differ.compare a b) a b.
Proof.
  rewrite compare_opcode_lines. unfold SequenceMatcher.get_opcodes.
  destruct (get_matching_blocks_chain a b) as (blocks & -> & Hw & Hs).
  destruct (opcodes_delta a b blocks 0 0 []) as (ops & Hops & Hdelta);
    try done; try lia.
  { apply Forall_forall. intros m _. lia. }
  rewrite app_nil_l in Hops. rewrite <- Hops in Hdelta. exact Hdelta.
Qed.

(** ** The highlighted diff and the edit counter *)

Lemma tagged_line (c : ascii) (x : string) :
  String c (String " " "") +:+ x = String c (String " " x).
Proof. done. Qed.

Lemma prefix_empty (x : string) : String.prefix "" x = true.
Proof. by destruct x. Qed.

Lemma prefix_cons (p c : ascii) (s1 s2 : string) :
  String.prefix (String p s1) (String c s2)
  = if ascii_dec p c then String.prefix s1 s2 else false.
Proof. done. Qed.

Lemma startswith_tag (c p : ascii) (x : string) :
  Py.startswith (String c (String " " x)) (String p (String " " ""))
  = bool_decide (p = c).
Proof.
  unfold Py.startswith. rewrite !prefix_cons, prefix_empty.
  destruct (ascii_dec p c) as [->|Hne].
  - rewrite bool_decide_eq_true_2 by done. by destruct (ascii_dec " " " ").
  - by rewrite bool_decide_eq_false_2.
Qed.

Lemma html_part_tagged (c : ascii) (x : string) :
  html_part (String c (String " " x))
  = if decide (c = " "%char) then Some (fragment (Unmarked, x))
    else if decide (c = "-"%char) then Some (fragment (Removed, x))
    else if decide (c = "+"%char) then Some (fragment (Added, x))
    else None.
Proof.
  unfold html_part.
  change "  " with (String " " (String " " "")).
  change "- " with (String "-" (String " " "")).
  change "+ " with (String "+" (String " " "")).
  rewrite !startswith_tag.
  repeat case_decide; subst; try done;
    repeat (case_bool_decide; try congruence); done.
Qed.

Lemma startswith_tagged (c p : ascii) (x : string) :
  Py.startswith (String c (String " " x)) (String p "")
  = bool_decide (p = c).
Proof.
  unfold Py.startswith. rewrite prefix_cons, prefix_empty.
  destruct (ascii_dec p c) as [->|Hne].
  - by rewrite bool_decide_eq_true_2.
  - by rewrite bool_decide_eq_false_2.
Qed.

Lemma delta_fragments (lines a b : list string) :
  Delta lines a b →
  ∃ fs : list (Mark * string),
    omap html_part lines = fragment <$> fs
    ∧ snd <$> filter (λ f, f.1 ≠ Added) fs = a
    ∧ snd <$> filter (λ f, f.1 ≠ Removed) fs = b
    ∧ length (filter (λ d, Py.startswith d "+" = true) lines)
      = length (filter (λ f, f.1 = Added) fs)
    ∧ length (filter (λ d, Py.startswith d "-" = true) lines)
      = length (filter (λ f, f.1 = Removed) fs).
Proof.
  induction 1 as [|x lines a b _ (fs & Hp & Ha & Hb & Hi & Hd)
                  |x lines a b _ (fs & Hp & Ha & Hb & Hi & Hd)
                  |x lines a b _ (fs & Hp & Ha & Hb & Hi & Hd)
                  |h lines a b _ (fs & Hp & Ha & Hb & Hi & Hd)].
  - by exists [].
  - exists ((Unmarked, x) :: fs). rewrite tagged_line.
    rewrite !filter_cons, !startswith_tagged. cbn [omap list_omap].
    rewrite html_part_tagged, Hp.
    split_and!; [reflexivity|..]; repeat case_decide; simplify_eq/=;
      congruence.
  - exists ((Removed, x) :: fs). rewrite tagged_line.
    rewrite !filter_cons, !startswith_tagged. cbn [omap list_omap].
    rewrite html_part_tagged, Hp.
    split_and!; [reflexivity|..]; repeat case_decide; simplify_eq/=;
      congruence.
  - exists ((Added, x) :: fs). rewrite tagged_line.
    rewrite !filter_cons, !startswith_tagged. cbn [omap list_omap].
    rewrite html_part_tagged, Hp.
    split_and!; [reflexivity|..]; repeat case_decide; simplify_eq/=;
      congruence.
  - exists fs. rewrite tagged_line.
    rewrite !filter_cons, !startswith_tagged. cbn [omap list_omap].
    rewrite html_part_tagged, Hp.
    split_and!; [reflexivity|..]; repeat case_decide; simplify_eq/=;
      congruence.
Qed.

(** C9. The highlighted diff is a list of fragments, joined by single
    blanks, such that the tokens of the fragments that are unmarked or
    marked as removed are those of the original text, in order, the tokens
    of the fragments that are unmarked or marked as added are those of the
    edited text, in order, and the fragments marked as added and as removed
    are as many as the insertions and the deletions that
    [calculate_edit_distance] counts. *)
Theorem highlight_agrees_with_counts (original edited : string) :
  ∃ fs : list (Mark * string),
    html_parts original edited = fragment <$> fs
    ∧ highlight_differences original edited
      = Py.join " " (fragment <$> fs)
    ∧ snd <$> filter (λ f, f.1 ≠ Added) fs = Py.split original
    ∧ snd <$> filter (λ f, f.1 ≠ Removed) fs = Py.split edited
    ∧ length (filter (λ f, f.1 = Added) fs)
      = (calculate_edit_distance original edited).1
    ∧ length (filter (λ f, f.1 = Removed) fs)
      = (calculate_edit_distance original edited).2.
Proof.
  destruct (delta_fragments _ _ _
              (compare_delta (Py.split original) (Py.split edited)))
    as (fs & Hp & Ha & Hb & Hi & Hd).
  exists fs. unfold highlight_differences, html_parts, calculate_edit_distance.
  rewrite Hp. cbn [fst snd]. by rewrite Hi, Hd.
Qed.

(** ** The rounds granted to the loops are enough *)

Section Fuel.
Context `{Countable A}.
Import SequenceMatcher.

Lemma rounds_left_cons (alo ahi blo bhi : nat) (queue : list Region) :
  rounds_left ((alo, ahi, blo, bhi) :: queue)
  = 2 * (ahi - alo) + 1 + rounds_left queue.
Proof. done. Qed.

(** Once the rounds granted cover [rounds_left], granting more changes
    nothing: the loop has stopped on an empty queue. *)
Lemma matching_loop_fuel (a b : list A) (b2j : gmap A (list nat)) :
  index_sound b b2j →
  ∀ fuel queue mbs fuel',
    Forall (region_ok a b) queue →
    rounds_left queue ≤ fuel → fuel ≤ fuel' →
    matching_loop a b b2j fuel' queue mbs
    = matching_loop a b b2j fuel queue mbs.
Proof.
  intros Hsound. induction fuel as [|fuel IH];
    intros queue mbs fuel' Hq Hfuel Hle.
  { destruct queue as [|[[[alo ahi] blo] bhi] queue].
    - by destruct fuel'.
    - rewrite rounds_left_cons in Hfuel. lia. }
  destruct queue as [|[[[alo ahi] blo] bhi] queue]; [by destruct fuel'|].
  destruct fuel' as [|fuel']; [lia|].
  cbn [matching_loop].
  apply Forall_cons in Hq as [[Hra Hrb] Hq]. simpl in Hra, Hrb.
  rewrite rounds_left_cons in Hfuel.
  pose proof (find_longest_match_block a b b2j alo ahi blo bhi
                ltac:(lia) ltac:(lia) Hsound) as Hblock.
  destruct (find_longest_match a b b2j alo ahi blo bhi) as [[i j] k].
  destruct Hblock as (H1 & H2 & H3 & H4 & _). simpl in H1, H2, H3, H4.
  destruct (Nat.eqb_spec k 0) as [->|Hk]; [apply IH; [done|lia|lia]|].
  apply IH; [| |lia].
  - repeat case_match; repeat (apply Forall_cons; split); try done;
      unfold region_ok; simpl; lia.
  - repeat case_match; rewrite ?rounds_left_cons; lia.
Qed.

Lemma matching_fuel_enough (a b : list A) (extra : nat) :
  matching_loop a b (chain_b b) (matching_fuel a + extra)
    [(0, length a, 0, length b)] []
  = matching_loop a b (chain_b b) (matching_fuel a)
      [(0, length a, 0, length b)] [].
Proof.
  apply matching_loop_fuel; [apply chain_b_sound| | |lia].
  - apply Forall_singleton. unfold region_ok. simpl. lia.
  - unfold rounds_left, matching_fuel. simpl. lia.
Qed.

End Fuel.

Lemma fancy_helper_ext (f g : nat → nat → nat → nat → list string)
    (a b : list string) (alo ahi blo bhi : nat) :
  (alo < ahi → blo < bhi → f alo ahi blo bhi = g alo ahi blo bhi) →
  fancy_helper f a b alo ahi blo bhi = fancy_helper g a b alo ahi blo bhi.
Proof.
  intros Hfg. unfold fancy_helper.
  destruct (Nat.ltb_spec alo ahi); [|done].
  destruct (Nat.ltb_spec blo bhi); [|done]. by apply Hfg.
Qed.

(** [_fancy_replace] with more rounds than the two blocks are long gives
    the same lines. *)
Lemma fancy_replace_fuel (a b : list string) :
  ∀ fuel fuel' alo ahi blo bhi,
    alo < ahi → blo < bhi →
    (ahi - alo) + (bhi - blo) ≤ fuel → fuel ≤ fuel' →
    Differ.fancy_replace fuel' a alo ahi b blo bhi
    = Differ.fancy_replace fuel a alo ahi b blo bhi.
Proof.
  induction fuel as [|fuel IH]; intros fuel' alo ahi blo bhi Ha Hb Hf Hle;
    [lia|].
  destruct fuel' as [|fuel']; [lia|]. cbn [Differ.fancy_replace].
  destruct (Differ.synch_point _) as [[[best_i best_j] identical]|] eqn:Hsp;
    [|done].
  apply synch_point_in in Hsp as (Hi & Hj & _).
  f_equal; [|f_equal].
  - apply (fancy_helper_ext
             (λ alo ahi blo bhi, Differ.fancy_replace fuel' a alo ahi b blo bhi)
             (λ alo ahi blo bhi, Differ.fancy_replace fuel a alo ahi b blo bhi)).
    intros ? ?. apply IH; lia.
  - apply (fancy_helper_ext
             (λ alo ahi blo bhi, Differ.fancy_replace fuel' a alo ahi b blo bhi)
             (λ alo ahi blo bhi, Differ.fancy_replace fuel a alo ahi b blo bhi)).
    intros ? ?. apply IH; lia.
Qed.

(** ** Lists and strings *)

Lemma filter_agree {X} (P Q : X → Prop) `{!∀ x, Decision (P x)}
    `{!∀ x, Decision (Q x)} (l : list X) :
  Forall (λ x, P x ↔ Q x) l → filter P l = filter Q l.
Proof.
  induction 1 as [|x l Hx _ IH]; [done|].
  rewrite !filter_cons, IH. destruct (decide (P x)), (decide (Q x)); tauto.
Qed.

Lemma filter_none {X} (P : X → Prop) `{!∀ x, Decision (P x)} (l : list X) :
  Forall (λ x, ¬ P x) l → filter P l = [].
Proof.
  induction 1 as [|x l Hx _ IH]; [done|].
  by rewrite filter_cons, decide_False.
Qed.

Lemma append_cons (c : ascii) (s1 s2 : string) :
  String c s1 +:+ s2 = String c (s1 +:+ s2).
Proof. done. Qed.

Lemma string_of_list_ascii_app (l1 l2 : list ascii) :
  string_of_list_ascii (l1 ++ l2)
  = string_of_list_ascii l1 +:+ string_of_list_ascii l2.
Proof.
  induction l1 as [|c l1 IH]; [done|]. simpl. by rewrite IH, append_cons.
Qed.

Lemma append_nil_r (s : string) : s +:+ "" = s.
Proof. induction s as [|c s IH]; [done|]. by rewrite append_cons, IH. Qed.

Lemma append_assoc (s1 s2 s3 : string) :
  (s1 +:+ s2) +:+ s3 = s1 +:+ (s2 +:+ s3).
Proof.
  induction s1 as [|c s1 IH]; [done|]. by rewrite !append_cons, IH.
Qed.

Lemma elem_of_rev_list {X} (x : X) (l : list X) : x ∈ rev l ↔ x ∈ l.
Proof. rewrite rev_alt. apply elem_of_reverse. Qed.

(** ** [difflib]: a sequence compared with itself *)

Section Same.
Context `{Countable A}.
Import SequenceMatcher.

Lemma index_b_snoc (b : list A) (y : A) :
  index_b (b ++ [y])
  = <[y := default [] (index_b b !! y) ++ [length b]]> (index_b b).
Proof.
  unfold index_b. rewrite imap_app, fold_left_app. simpl.
  by rewrite Nat.add_0_r.
Qed.

Lemma index_b_dom (b : list A) (j : nat) (x : A) :
  b !! j = Some x → is_Some (index_b b !! x).
Proof.
  revert j. induction b as [|y b IH] using rev_ind; intros j Hj; [done|].
  rewrite index_b_snoc. destruct (decide (y = x)) as [->|Hne].
  - rewrite lookup_insert_eq. eauto.
  - rewrite lookup_insert_ne by done.
    apply lookup_app_Some in Hj as [Hj|[_ Hj]]; [by apply (IH j)|].
    apply list_lookup_singleton_Some in Hj as [_ ?]. done.
Qed.

Lemma index_b_exact (b : list A) : index_exact b (index_b b).
Proof.
  induction b as [|y b IH] using rev_ind.
  - intros x js Hx. unfold index_b in Hx. simpl in Hx.
    by rewrite lookup_empty in Hx.
  - intros x js. rewrite index_b_snoc, length_app. simpl.
    rewrite Nat.add_1_r, seq_S, filter_app. simpl.
    assert (Hpre : filter (λ j, (b ++ [y]) !! j = Some x) (seq 0 (length b))
                   = filter (λ j, b !! j = Some x) (seq 0 (length b))).
    { apply filter_agree. apply Forall_forall. intros j Hj.
      apply elem_of_seq in Hj. by rewrite lookup_app_l by lia. }
    rewrite Hpre.
    assert (Hlast : (b ++ [y]) !! length b = Some y).
    { by rewrite lookup_app_r, Nat.sub_diag by lia. }
    destruct (decide (y = x)) as [->|Hne].
    + rewrite lookup_insert_eq. intros [= <-].
      rewrite filter_cons, decide_True by done. rewrite filter_nil.
      f_equal. destruct (index_b b !! x) as [js|] eqn:Hjs; simpl.
      * by apply IH.
      * symmetry. apply filter_none. apply Forall_forall. intros j Hj Hbj.
        destruct (index_b_dom b j x Hbj) as [js Hjs']. congruence.
    + rewrite lookup_insert_ne by done. intros Hx.
      rewrite filter_cons, decide_False, filter_nil, app_nil_r.
      * by apply IH.
      * rewrite Hlast. congruence.
Qed.

Lemma chain_b_exact (b : list A) : index_exact b (chain_b b).
Proof.
  unfold chain_b. case_match; [|apply index_b_exact].
  intros x js Hx. apply map_lookup_filter_Some in Hx as [Hx _].
  by apply index_b_exact.
Qed.

Lemma indexed_run_indexed (a : list A) (b2j : gmap A (list nat)) i x js :
  a !! i = Some x → b2j !! x = Some js →
  indexed_run a b2j i
  = match i with 0 => 1 | S i' => indexed_run a b2j i' + 1 end.
Proof. intros Ha Hx. destruct i; simpl; rewrite Ha; simpl; by rewrite Hx. Qed.

Lemma indexed_run_none (a : list A) (b2j : gmap A (list nat)) i :
  a !! i ≫= (b2j !!.) = None → indexed_run a b2j i = 0.
Proof. intros Hn. destruct i; simpl; by rewrite Hn. Qed.

Lemma longest_row_diagonal (a : list A) (b2j : gmap A (list nat)) (i : nat)
    (x : A) (xs : list nat) (j2len : gmap nat nat) :
  a !! i = Some x → b2j !! x = Some xs →
  (∀ j k, j2len !! j = Some k →
     ∃ i', i = S i' ∧ k ≤ indexed_run a b2j (i' `min` j)) →
  (∀ i', i = S i' → default 0 (j2len !! i') = indexed_run a b2j i') →
  ∀ js, StronglySorted lt js →
    Forall (λ j, a !! j = Some x ∧ j < length a) js →
    ∀ newj2len best,
      (∀ j k, newj2len !! j = Some k → k ≤ indexed_run a b2j (i `min` j)) →
      best.1.1 = best.1.2 →
      (∀ m, m < i → indexed_run a b2j m ≤ best.2) →
      (i ∈ js ∨ (newj2len !! i = Some (indexed_run a b2j i)
                 ∧ indexed_run a b2j i ≤ best.2)) →
      diagonal_inv a b2j (S i)
        (longest_row j2len 0 (length a) i js newj2len best).1
        (longest_row j2len 0 (length a) i js newj2len best).2.
Proof.
  intros Ha Hx Hrow Hdiag js Hsorted Hjs.
  induction Hjs as [|j js [Hj Hlt] Hjs IH]; intros newj2len best Hnew Hbd Hruns
    Hseen.
  - destruct Hseen as [Hin|[Hi Hle]]; [by apply elem_of_nil in Hin|].
    cbn [longest_row fst snd]. split_and!.
    + intros j k Hjk. exists i. split; [done|]. by apply Hnew.
    + intros i' [= <-]. by rewrite Hi.
    + done.
    + intros m Hm. destruct (decide (m = i)) as [->|]; [done|].
      apply Hruns. lia.
  - apply StronglySorted_inv in Hsorted as [Hsorted Hall].
    cbn [longest_row]. change (j <? 0) with false. cbv iota.
    rewrite (proj2 (Nat.leb_gt _ _) Hlt).
    set (k := match j with 0 => 0 | S j' => default 0 (j2len !! j') end + 1).
    assert (Hrunij : indexed_run a b2j (i `min` j)
                     = match i `min` j with
                       | 0 => 1
                       | S m => indexed_run a b2j m + 1
                       end).
    { destruct (Nat.min_spec i j) as [[_ ->]|[_ ->]];
        by eapply indexed_run_indexed. }
    assert (Hk : k ≤ indexed_run a b2j (i `min` j)).
    { rewrite Hrunij. unfold k. destruct j as [|j'].
      - rewrite Nat.min_0_r. simpl. lia.
      - destruct (j2len !! j') as [k'|] eqn:Hk'; cbn [default from_option id].
        + destruct (Hrow j' k' Hk') as (i' & -> & Hle).
          rewrite <- Nat.succ_min_distr. lia.
        + destruct (i `min` S j'); lia. }
    assert (Hkdiag : j = i → k = indexed_run a b2j i).
    { intros ->. rewrite (indexed_run_indexed a b2j i x xs Ha Hx).
      unfold k. destruct i as [|i']; [done|]. by rewrite (Hdiag i'). }
    destruct (Nat.lt_trichotomy j i) as [Hji|[->|Hij]].
    + (* before the diagonal *)
      assert (Hno : (best.2 <? k) = false).
      { apply Nat.ltb_ge. rewrite Nat.min_r in Hk by lia.
        specialize (Hruns j Hji). lia. }
      rewrite Hno. apply IH; [done|..|done|done|].
      * intros j0 k0. destruct (decide (j = j0)) as [<-|Hne].
        -- rewrite lookup_insert_eq. by intros [= <-].
        -- rewrite lookup_insert_ne by done. apply Hnew.
      * destruct Hseen as [Hin|[Hi Hle]].
        -- apply elem_of_cons in Hin as [->|Hin]; [lia|by left].
        -- right. by rewrite lookup_insert_ne by lia.
    + (* on the diagonal *)
      specialize (Hkdiag eq_refl).
      apply IH; [done|..].
      * intros j0 k0. destruct (decide (i = j0)) as [<-|Hne].
        -- rewrite lookup_insert_eq. by intros [= <-].
        -- rewrite lookup_insert_ne by done. apply Hnew.
      * by destruct (best.2 <? k).
      * intros m Hm. specialize (Hruns m Hm).
        destruct (Nat.ltb_spec best.2 k); [simpl; lia|done].
      * right. rewrite lookup_insert_eq. split; [by rewrite Hkdiag|].
        destruct (Nat.ltb_spec best.2 k); simpl; lia.
    + (* after the diagonal *)
      assert (Hs : newj2len !! i = Some (indexed_run a b2j i)
                   ∧ indexed_run a b2j i ≤ best.2).
      { destruct Hseen as [Hin|Hs]; [|done].
        apply elem_of_cons in Hin as [->|Hin]; [lia|].
        rewrite Forall_forall in Hall. specialize (Hall i Hin). lia. }
      assert (Hno : (best.2 <? k) = false).
      { apply Nat.ltb_ge. rewrite Nat.min_l in Hk by lia. lia. }
      rewrite Hno. apply IH; [done|..|done|done|].
      * intros j0 k0. destruct (decide (j = j0)) as [<-|Hne].
        -- rewrite lookup_insert_eq. by intros [= <-].
        -- rewrite lookup_insert_ne by done. apply Hnew.
      * right. by rewrite lookup_insert_ne by lia.
Qed.

Lemma StronglySorted_seq (lo n : nat) : StronglySorted lt (seq lo n).
Proof.
  revert lo. induction n as [|n IH]; intros lo; [constructor|].
  simpl. constructor; [apply IH|].
  apply Forall_forall. intros j Hj. apply elem_of_seq in Hj. lia.
Qed.

Lemma StronglySorted_filter {X} (R : relation X) (P : X → Prop)
    `{!∀ x, Decision (P x)} (l : list X) :
  StronglySorted R l → StronglySorted R (filter P l).
Proof.
  induction 1 as [|x l Hl IH Hx]; [constructor|].
  rewrite filter_cons. case_decide; [|done].
  constructor; [done|]. apply Forall_forall. intros y Hy.
  apply list_elem_of_filter in Hy as [_ Hy].
  rewrite Forall_forall in Hx. by apply Hx.
Qed.

Lemma longest_rows_diagonal_fold (a : list A) (b2j : gmap A (list nat)) :
  index_exact a b2j →
  ∀ n i st,
    i + n ≤ length a →
    diagonal_inv a b2j i st.1 st.2 →
    (fold_left
       (λ '(j2len, best) i,
          longest_row j2len 0 (length a) i
            (default [] (a !! i ≫= (b2j !!.))) ∅ best)
       (seq i n) st).2.1.1
    = (fold_left
         (λ '(j2len, best) i,
            longest_row j2len 0 (length a) i
              (default [] (a !! i ≫= (b2j !!.))) ∅ best)
         (seq i n) st).2.1.2.
Proof.
  intros Hexact. induction n as [|n IH]; intros i [j2len best] Hn Hinv.
  { by destruct Hinv as (_ & _ & Hd & _). }
  cbn [seq fold_left].
  destruct Hinv as (Hrow & Hdiag & Hbd & Hruns). cbn [fst snd] in *.
  destruct (lookup_lt_is_Some_2 a i ltac:(lia)) as [x Hx].
  assert (Hstep : diagonal_inv a b2j (S i)
            (longest_row j2len 0 (length a) i
               (default [] (a !! i ≫= (b2j !!.))) ∅ best).1
            (longest_row j2len 0 (length a) i
               (default [] (a !! i ≫= (b2j !!.))) ∅ best).2).
  { destruct (b2j !! x) as [xs|] eqn:Hxs.
    - rewrite Hx. cbn [mbind option_bind]. rewrite Hxs.
      cbn [default from_option id].
      pose proof (Hexact x xs Hxs) as Hjs.
      apply (longest_row_diagonal a b2j i x xs); try done.
      + rewrite Hjs. apply StronglySorted_filter, StronglySorted_seq.
      + rewrite Hjs. apply Forall_forall. intros j Hj.
        apply list_elem_of_filter in Hj as [Hj Hlt].
        apply elem_of_seq in Hlt. split; [done|lia].
      + left. rewrite Hjs. apply list_elem_of_filter. split; [done|].
        apply elem_of_seq. lia.
    - assert (Hnone : a !! i ≫= (b2j !!.) = None).
      { rewrite Hx. simpl. done. }
      rewrite Hnone. cbn [default from_option id longest_row fst snd].
      split_and!.
      + intros j k Hjk. by rewrite lookup_empty in Hjk.
      + intros i' [= <-]. rewrite lookup_empty. simpl.
        by rewrite indexed_run_none.
      + done.
      + intros m Hm. destruct (decide (m = i)) as [->|].
        * rewrite indexed_run_none by done. lia.
        * apply Hruns. lia. }
  destruct (longest_row j2len 0 (length a) i _ ∅ best) as [j2len' best'].
  apply IH; [lia|done].
Qed.

Lemma longest_rows_diagonal (a : list A) (b2j : gmap A (list nat)) :
  index_exact a b2j →
  (longest_rows a b2j 0 (length a) 0 (length a)).1.1
  = (longest_rows a b2j 0 (length a) 0 (length a)).1.2.
Proof.
  intros Hexact. unfold longest_rows. rewrite Nat.sub_0_r.
  apply (longest_rows_diagonal_fold a b2j Hexact); [lia|].
  split_and!; simpl; try done. intros m Hm. lia.
Qed.

Lemma same_at_diagonal (a : list A) (i : nat) :
  i < length a → same_at a a i i = true.
Proof.
  intros Hi. unfold same_at.
  destruct (lookup_lt_is_Some_2 a i Hi) as [x ->].
  by apply bool_decide_eq_true.
Qed.

Lemma extend_left_diagonal (a : list A) : ∀ i k,
  i + k ≤ length a → extend_left a a 0 0 i i k = (0, 0, i + k).
Proof.
  induction i as [|i IH]; intros k Hk; [done|].
  cbn [extend_left]. change (0 <? S i) with true.
  rewrite same_at_diagonal by lia. simpl.
  rewrite IH by lia. do 2 f_equal. lia.
Qed.

Lemma extend_right_diagonal (a : list A) : ∀ fuel k,
  k + fuel = length a → extend_right a a (length a) (length a) 0 0 k fuel
                        = length a.
Proof.
  induction fuel as [|fuel IH]; intros k Hk; [simpl; lia|].
  cbn [extend_right]. simpl.
  rewrite (proj2 (Nat.ltb_lt _ _)) by lia.
  rewrite same_at_diagonal by lia. simpl. apply IH. lia.
Qed.

(** A sequence compared with itself matches as a whole. *)
Lemma find_longest_match_same (a : list A) :
  find_longest_match a a (chain_b a) 0 (length a) 0 (length a)
  = (0, 0, length a).
Proof.
  unfold find_longest_match.
  pose proof (longest_rows_diagonal a (chain_b a) (chain_b_exact a)) as Hd.
  pose proof (longest_rows_block a a (chain_b a) 0 (length a) 0 (length a)
                ltac:(lia) ltac:(lia) (chain_b_sound a)) as Hb.
  destruct (longest_rows a (chain_b a) 0 (length a) 0 (length a))
    as [[i j] k].
  simpl in Hd. subst j. destruct Hb as (_ & Hik & _). simpl in Hik.
  rewrite extend_left_diagonal by done.
  rewrite extend_right_diagonal by lia. done.
Qed.

Lemma get_matching_blocks_same (a : list A) :
  get_matching_blocks a a
  = if length a =? 0 then [(0, 0, 0)]
    else [(0, 0, length a); (length a, length a, 0)].
Proof.
  unfold get_matching_blocks, matching_fuel.
  replace (2 * length a + 1) with (S (2 * length a)) by lia.
  cbn [matching_loop]. rewrite find_longest_match_same.
  destruct (length a) as [|n] eqn:Hn; [done|].
  cbn [Nat.eqb]. change (0 <? 0) with false. cbn [andb].
  rewrite Nat.ltb_irrefl. cbn [andb].
  assert (Hloop : ∀ fuel mbs,
    matching_loop a a (chain_b a) fuel [] mbs = mbs).
  { by intros [|fuel] mbs. }
  rewrite Hloop. done.
Qed.

Lemma get_opcodes_same (a : list A) :
  get_opcodes a a
  = if length a =? 0 then [] else [(Equal, 0, length a, 0, length a)].
Proof.
  unfold get_opcodes. rewrite get_matching_blocks_same.
  destruct (length a) as [|n]; [done|]. simpl.
  by rewrite Nat.ltb_irrefl.
Qed.

End Same.

Lemma compare_same (a : list string) :
  Differ.compare a a = (λ x, "  " +:+ x) <$> a.
Proof.
  unfold Differ.compare. rewrite get_opcodes_same.
  destruct a as [|x a]; [done|].
  change (length (x :: a) =? 0) with false. cbn [mbind list_bind].
  unfold Differ.dump. by rewrite slice_all, app_nil_r.
Qed.

(** ** The edit counter: what the counts say about the tokens *)

Lemma delta_counts (lines a b : list string) :
  Delta lines a b →
  let plus := length (filter (λ d, Py.startswith d "+" = true) lines) in
  let minus := length (filter (λ d, Py.startswith d "-" = true) lines) in
  length b + minus = length a + plus
  ∧ plus ≤ length b ∧ minus ≤ length a
  ∧ (plus = 0 → minus = 0 → a = b).
Proof.
  induction 1 as [|x lines a b _ IH|x lines a b _ IH|x lines a b _ IH
                  |h lines a b _ IH]; [done|..];
    rewrite tagged_line; cbn zeta in *;
    rewrite !filter_cons, !startswith_tagged;
    destruct IH as (Hsum & Hp & Hm & Hz);
    repeat case_decide;
    repeat match goal with
           | Hb : bool_decide _ = true |- _ =>
               apply bool_decide_eq_true in Hb; try discriminate Hb
           | Hb : ¬ (bool_decide _ = true) |- _ =>
               apply not_true_is_false in Hb;
               apply bool_decide_eq_false in Hb; try (by destruct Hb)
           end;
    cbn [length]; split_and!; try lia.
  - intros Hp0 Hm0. by rewrite Hz.
  - intros Hp0 Hm0. by apply Hz.
Qed.

(** X1. The counts of [calculate_edit_distance] balance the two token
    lists: the tokens of the edited text that are not insertions are as
    many as the tokens of the original that are not deletions; so there are
    no more insertions than tokens in the edited text and no more deletions
    than tokens in the original. *)
Theorem edit_counts_balance (original edited : string) :
  let '(insertions, deletions) := calculate_edit_distance original edited in
  length (Py.split edited) + deletions
  = length (Py.split original) + insertions
  ∧ insertions ≤ length (Py.split edited)
  ∧ deletions ≤ length (Py.split original).
Proof.
  unfold calculate_edit_distance.
  destruct (delta_counts _ _ _
              (compare_delta (Py.split original) (Py.split edited)))
    as (Hsum & Hp & Hm & _).
  done.
Qed.

(** X2. [calculate_edit_distance] reports no insertion and no deletion
    exactly when the two texts have the same tokens, whatever the
    whitespace between them. *)
Theorem no_edits_iff_same_tokens (original edited : string) :
  calculate_edit_distance original edited = (0, 0)
  ↔ Py.split original = Py.split edited.
Proof.
  unfold calculate_edit_distance. split.
  - intros [= Hp Hm].
    by apply (delta_counts _ _ _
                (compare_delta (Py.split original) (Py.split edited))).
  - intros Hsame. rewrite <- Hsame, compare_same.
    change (λ x : string, "  " +:+ x)
      with (λ x : string, String " " (String " " x)).
    by rewrite !count_tagged.
Qed.

Lemma omap_html_part_same (xs : list string) :
  omap html_part ((λ x, String " " (String " " x)) <$> xs)
  = (λ x, "<span>" +:+ x +:+ "</span>") <$> xs.
Proof.
  induction xs as [|x xs IH]; [done|].
  rewrite !fmap_cons. cbn [omap list_omap].
  rewrite html_part_tagged, IH. done.
Qed.

(** X3. When the two texts have the same tokens, the highlighted diff is
    the tokens of the text, each in a plain span, joined by single blanks:
    nothing is marked as added or removed. *)
Theorem highlight_same_tokens (original edited : string) :
  Py.split original = Py.split edited →
  highlight_differences original edited
  = Py.join " " ((λ x, "<span>" +:+ x +:+ "</span>") <$> Py.split original).
Proof.
  intros Hsame. unfold highlight_differences, html_parts.
  rewrite <- Hsame, compare_same.
  change (λ x : string, "  " +:+ x)
    with (λ x : string, String " " (String " " x)).
  by rewrite omap_html_part_same.
Qed.

Lemma highlight_same_tokens_witness :
  Py.split "The cat  sat." = Py.split " The cat sat. "
  ∧ highlight_differences "The cat  sat." " The cat sat. "
    = "<span>The</span> <span>cat</span> <span>sat.</span>".
Proof.
  split; [reflexivity|].
  rewrite (highlight_same_tokens "The cat  sat." " The cat sat. ");
    reflexivity.
Defined.

Lemma delta_disjoint (lines a b : list string) :
  Delta lines a b → (∀ x, x ∈ a → x ∉ b) →
  length (filter (λ d, Py.startswith d "+" = true) lines) = length b
  ∧ length (filter (λ d, Py.startswith d "-" = true) lines) = length a.
Proof.
  induction 1 as [|x lines a b _ IH|x lines a b _ IH|x lines a b _ IH
                  |h lines a b _ IH]; intros Hdis; [done|..];
    rewrite tagged_line, !filter_cons, !startswith_tagged.
  - exfalso. apply (Hdis x); left.
  - destruct IH as [Hp Hm].
    { intros y Hy. apply Hdis. by right. }
    rewrite decide_False, decide_True by done. simpl. by rewrite Hp, Hm.
  - destruct IH as [Hp Hm].
    { intros y Hy Hyb. apply (Hdis y Hy). by right. }
    rewrite decide_True, decide_False by done. simpl. by rewrite Hp, Hm.
  - destruct (IH Hdis) as [Hp Hm].
    rewrite !decide_False by done. by rewrite Hp, Hm.
Qed.

(** X4. When no token of the original text occurs in the edited text,
    every token counts: the insertions are the tokens of the edited text
    and the deletions are the tokens of the original, so that a token
    replaced by another one counts as one insertion and one deletion. *)
Theorem no_common_token_counts_all (original edited : string) :
  (∀ x, x ∈ Py.split original → x ∉ Py.split edited) →
  calculate_edit_distance original edited
  = (length (Py.split edited), length (Py.split original)).
Proof.
  intros Hdis. unfold calculate_edit_distance.
  destruct (delta_disjoint _ _ _
              (compare_delta (Py.split original) (Py.split edited)) Hdis)
    as [-> ->].
  done.
Qed.

Lemma no_common_token_counts_all_witness :
  calculate_edit_distance "It was sunny." "Rain fell" = (2, 3).
Proof.
  apply (no_common_token_counts_all "It was sunny." "Rain fell").
  intros x Hx Hx'. vm_compute in Hx, Hx'.
  repeat (apply elem_of_cons in Hx' as [->|Hx']);
    repeat (apply elem_of_cons in Hx as [Hx|Hx]; [discriminate Hx|]);
    by apply elem_of_nil in Hx || by apply elem_of_nil in Hx'.
Defined.

Lemma delta_new_tokens (lines a b : list string) :
  Delta lines a b →
  length (filter (λ x, x ∉ a) b)
  ≤ length (filter (λ d, Py.startswith d "+" = true) lines)
  ∧ length (filter (λ x, x ∉ b) a)
    ≤ length (filter (λ d, Py.startswith d "-" = true) lines).
Proof.
  assert (Hweak : ∀ (x : string) (l k : list string),
    length (filter (λ y, y ∉ x :: l) k) ≤ length (filter (λ y, y ∉ l) k)).
  { intros x l k. induction k as [|y k IH]; [done|].
    rewrite !filter_cons. repeat case_decide; simpl; try lia.
    exfalso. set_solver. }
  induction 1 as [|x lines a b _ [IHa IHb]|x lines a b _ [IHa IHb]
                  |x lines a b _ [IHa IHb]|h lines a b _ [IHa IHb]];
    [done|..];
    rewrite tagged_line, !(filter_cons _ (String _ _)), !startswith_tagged.
  - rewrite !decide_False by done.
    rewrite !filter_cons, !decide_False by set_solver.
    split; (etrans; [apply Hweak|done]).
  - rewrite decide_False, decide_True by done.
    split.
    + etrans; [apply Hweak|done].
    + rewrite filter_cons. case_decide; simpl; lia.
  - rewrite decide_True, decide_False by done.
    split.
    + rewrite filter_cons. case_decide; simpl; lia.
    + etrans; [apply Hweak|done].
  - by rewrite !decide_False by done.
Qed.

(** X5. Every token of the edited text that does not occur in the
    original is counted as an insertion, and every token of the original
    that does not occur in the edited text is counted as a deletion. *)
Theorem new_tokens_are_counted (original edited : string) :
  let '(insertions, deletions) := calculate_edit_distance original edited in
  length (filter (λ x, x ∉ Py.split original) (Py.split edited)) ≤ insertions
  ∧ length (filter (λ x, x ∉ Py.split edited) (Py.split original))
    ≤ deletions.
Proof.
  unfold calculate_edit_distance.
  apply (delta_new_tokens _ _ _
           (compare_delta (Py.split original) (Py.split edited))).
Qed.

(** ** [load_segments] *)

Lemma lstrip_fixed (s : string) : Py.lstrip (Py.lstrip s) = Py.lstrip s.
Proof.
  induction s as [|c s IH]; [done|]. simpl.
  destruct (Py.isspace c) eqn:Hc; [done|]. simpl. by rewrite Hc.
Qed.

Lemma rstrip_cons (c : ascii) (s : string) :
  Py.rstrip (String c s)
  = if decide (Py.rstrip s = "") then
      if Py.isspace c then "" else String c ""
    else String c (Py.rstrip s).
Proof. simpl. by destruct (Py.rstrip s). Qed.

Lemma rstrip_fixed (s : string) : Py.rstrip (Py.rstrip s) = Py.rstrip s.
Proof.
  induction s as [|c s IH]; [done|].
  rewrite rstrip_cons. case_decide as He.
  - destruct (Py.isspace c) eqn:Hc; [done|]. simpl. by rewrite Hc.
  - rewrite rstrip_cons, IH. by rewrite decide_False.
Qed.

Lemma lstrip_rstrip (s : string) :
  Py.lstrip s = s → Py.lstrip (Py.rstrip s) = Py.rstrip s.
Proof.
  destruct s as [|c s]; [done|]. simpl.
  destruct (Py.isspace c) eqn:Hc.
  - intros Hl. exfalso.
    assert (Hlen : String.length (Py.lstrip s) ≤ String.length s).
    { clear. induction s as [|c s IH]; [done|]. simpl.
      destruct (Py.isspace c); simpl; lia. }
    rewrite Hl in Hlen. simpl in Hlen. lia.
  - intros _. destruct (Py.rstrip s); simpl; by rewrite Hc.
Qed.

Lemma strip_fixed (s : string) : Py.strip (Py.strip s) = Py.strip s.
Proof.
  unfold Py.strip.
  rewrite (lstrip_rstrip (Py.lstrip s)) by apply lstrip_fixed.
  apply rstrip_fixed.
Qed.

Lemma lstrip_chars (c : ascii) (s : string) :
  c ∈ list_ascii_of_string (Py.lstrip s) → c ∈ list_ascii_of_string s.
Proof.
  induction s as [|d s IH]; [done|]. simpl.
  destruct (Py.isspace d); [|done]. intros Hc. right. by apply IH.
Qed.

Lemma rstrip_chars (c : ascii) (s : string) :
  c ∈ list_ascii_of_string (Py.rstrip s) → c ∈ list_ascii_of_string s.
Proof.
  induction s as [|d s IH]; [done|]. rewrite rstrip_cons.
  case_decide as He.
  - destruct (Py.isspace d); simpl; [by intros ?%elem_of_nil|].
    intros Hc. apply list_elem_of_singleton in Hc as ->. left.
  - simpl. intros Hc. apply elem_of_cons in Hc as [->|Hc]; [left|].
    right. by apply IH.
Qed.

Lemma strip_chars (c : ascii) (s : string) :
  c ∈ list_ascii_of_string (Py.strip s) → c ∈ list_ascii_of_string s.
Proof. intros Hc. by apply lstrip_chars, rstrip_chars. Qed.

Lemma split_on_from_fields (sep : ascii) (s : string) : ∀ cur,
  sep ∉ cur →
  Forall (λ f, sep ∉ list_ascii_of_string f) (Py.split_on_from sep cur s).
Proof.
  induction s as [|c s IH]; intros cur Hcur; simpl.
  - apply Forall_singleton. rewrite list_ascii_of_string_of_list_ascii.
    by rewrite elem_of_rev_list.
  - destruct (Ascii.eqb_spec c sep) as [->|Hne].
    + constructor; [|apply IH; apply not_elem_of_nil].
      rewrite list_ascii_of_string_of_list_ascii. by rewrite elem_of_rev_list.
    + apply IH. rewrite not_elem_of_cons. split; [congruence|done].
Qed.

Lemma split_on_from_field (sep : ascii) (s : string) : ∀ cur,
  sep ∉ list_ascii_of_string s →
  Py.split_on_from sep cur s = [string_of_list_ascii (rev cur) +:+ s].
Proof.
  induction s as [|c s IH]; intros cur Hs; simpl.
  - by rewrite append_nil_r.
  - simpl in Hs. apply not_elem_of_cons in Hs as [Hc Hs].
    destruct (Ascii.eqb_spec c sep) as [->|Hne]; [done|].
    rewrite IH by done. simpl. rewrite string_of_list_ascii_app.
    by rewrite append_assoc.
Qed.

Lemma split_on_from_sep (sep : ascii) (s rest : string) : ∀ cur,
  sep ∉ list_ascii_of_string s →
  Py.split_on_from sep cur (s +:+ String sep rest)
  = (string_of_list_ascii (rev cur) +:+ s) :: Py.split_on_from sep [] rest.
Proof.
  induction s as [|c s IH]; intros cur Hs.
  - change ("" +:+ String sep rest) with (String sep rest). simpl.
    rewrite Ascii.eqb_refl. by rewrite append_nil_r.
  - simpl in Hs. apply not_elem_of_cons in Hs as [Hc Hs].
    rewrite append_cons. simpl.
    destruct (Ascii.eqb_spec c sep) as [->|Hne]; [done|].
    rewrite IH by done. simpl. rewrite string_of_list_ascii_app.
    by rewrite append_assoc.
Qed.

Lemma split_on_join (sep : ascii) (parts : list string) :
  parts ≠ [] →
  Forall (λ p, sep ∉ list_ascii_of_string p) parts →
  Py.split_on sep (Py.join (String sep "") parts) = parts.
Proof.
  intros Hne Hparts. unfold Py.split_on.
  induction Hparts as [|p parts Hp Hparts IH]; [done|].
  destruct parts as [|q parts].
  - simpl. by rewrite split_on_from_field.
  - change (Py.join (String sep "") (p :: q :: parts))
      with (p +:+ String sep (Py.join (String sep "") (q :: parts))).
    rewrite split_on_from_sep by done. simpl rev. cbn [string_of_list_ascii].
    simpl append at 1. by rewrite IH.
Qed.

(** X6. Every segment that [load_segments] returns is clean: it is not
    empty, it neither starts nor ends with whitespace, and it holds no line
    feed. *)
Theorem load_segments_clean (uploaded_file : option string) :
  Forall clean (load_segments uploaded_file).
Proof.
  destruct uploaded_file as [content|]; [|constructor]. simpl.
  apply Forall_fmap, Forall_forall. intros line Hline.
  apply list_elem_of_filter in Hline as [Hkeep Hline].
  split_and!; [done|apply strip_fixed|].
  intros Hc. apply strip_chars in Hc.
  pose proof (split_on_from_fields "010" content [] (not_elem_of_nil _))
    as Hfields.
  rewrite Forall_forall in Hfields. by apply (Hfields line).
Qed.

(** X7. Clean segments written one per line are read back as they are. *)
Theorem load_segments_join (segments : list string) :
  Forall clean segments →
  load_segments (Some (Py.join Differ.newline segments)) = segments.
Proof.
  intros Hclean. destruct segments as [|seg segments]; [done|].
  unfold load_segments, Differ.newline.
  rewrite (split_on_join "010"); [|done|].
  - assert (Hkeep : filter (λ line, Py.strip line ≠ "") (seg :: segments)
                    = seg :: segments).
    { clear -Hclean. induction Hclean as [|x l (Hx & Hs & _) _ IH]; [done|].
      rewrite filter_cons, decide_True by congruence. by rewrite IH. }
    rewrite Hkeep. clear Hkeep.
    induction Hclean as [|x l (Hx & Hs & _) _ IH]; [done|].
    rewrite fmap_cons, Hs. by rewrite IH.
  - eapply Forall_impl; [exact Hclean|]. by intros x (_ & _ & Hx).
Qed.

Lemma load_segments_join_witness :
  Forall clean ["The cat sat."; "It was sunny."]
  ∧ load_segments
      (Some (Py.join Differ.newline ["The cat sat."; "It was sunny."]))
    = ["The cat sat."; "It was sunny."].
Proof.
  assert (Hclean : Forall clean ["The cat sat."; "It was sunny."]).
  { repeat constructor; try done;
      intros Hc; vm_compute in Hc; by repeat (apply elem_of_cons in Hc as [Hc|Hc]; [discriminate|]); apply elem_of_nil in Hc. }
  split; [exact Hclean|].
  exact (load_segments_join ["The cat sat."; "It was sunny."] Hclean).
Defined.

Lemma lstrip_blank (s : string) :
  Forall (λ c, Py.isspace c = true) (list_ascii_of_string s) →
  Py.lstrip s = "".
Proof.
  induction s as [|c s IH]; [done|]. simpl.
  intros [Hc Hs]%Forall_cons. rewrite Hc. by apply IH.
Qed.

Lemma lstrip_keeps (c : ascii) (s : string) :
  Py.isspace c = false → c ∈ list_ascii_of_string s →
  c ∈ list_ascii_of_string (Py.lstrip s).
Proof.
  intros Hc. induction s as [|d s IH]; [done|]. simpl.
  intros Hin. destruct (Py.isspace d) eqn:Hd; [|done].
  apply elem_of_cons in Hin as [->|Hin]; [congruence|by apply IH].
Qed.

Lemma rstrip_keeps (c : ascii) (s : string) :
  Py.isspace c = false → c ∈ list_ascii_of_string s →
  c ∈ list_ascii_of_string (Py.rstrip s).
Proof.
  intros Hc. induction s as [|d s IH]; [done|]. rewrite rstrip_cons.
  simpl. intros Hin. apply elem_of_cons in Hin as [->|Hin].
  - case_decide; [rewrite Hc|]; left.
  - specialize (IH Hin). case_decide as He; [|by right].
    rewrite He in IH. by apply elem_of_nil in IH.
Qed.

Lemma split_on_from_chars (sep : ascii) (s : string) : ∀ cur f c,
  f ∈ Py.split_on_from sep cur s → c ∈ list_ascii_of_string f →
  c ∈ cur ∨ c ∈ list_ascii_of_string s.
Proof.
  induction s as [|d s IH]; intros cur f c Hf Hc; simpl in Hf.
  - apply list_elem_of_singleton in Hf as ->.
    rewrite list_ascii_of_string_of_list_ascii, elem_of_rev_list in Hc.
    by left.
  - destruct (Ascii.eqb_spec d sep) as [->|Hne].
    + apply elem_of_cons in Hf as [->|Hf].
      * rewrite list_ascii_of_string_of_list_ascii, elem_of_rev_list in Hc.
        by left.
      * destruct (IH [] f c Hf Hc) as [Hin|Hin];
          [by apply elem_of_nil in Hin|].
        right. simpl. by right.
    + destruct (IH (d :: cur) f c Hf Hc) as [Hin|Hin].
      * apply elem_of_cons in Hin as [->|Hin]; [right; simpl; left|by left].
      * right. simpl. by right.
Qed.

Lemma split_on_from_covers (sep : ascii) (s : string) : ∀ cur c,
  c ≠ sep → c ∈ cur ∨ c ∈ list_ascii_of_string s →
  ∃ f, f ∈ Py.split_on_from sep cur s ∧ c ∈ list_ascii_of_string f.
Proof.
  induction s as [|d s IH]; intros cur c Hc Hin; simpl.
  - destruct Hin as [Hin|Hin]; [|by apply elem_of_nil in Hin].
    eexists. split; [apply list_elem_of_singleton; reflexivity|].
    by rewrite list_ascii_of_string_of_list_ascii, elem_of_rev_list.
  - simpl in Hin. destruct (Ascii.eqb_spec d sep) as [->|Hne].
    + destruct Hin as [Hin|Hin].
      * eexists. split; [left|].
        by rewrite list_ascii_of_string_of_list_ascii, elem_of_rev_list.
      * apply elem_of_cons in Hin as [->|Hin]; [done|].
        destruct (IH [] c Hc (or_intror Hin)) as (f & Hf & Hcf).
        exists f. split; [by right|done].
    + apply IH; [done|]. destruct Hin as [Hin|Hin].
      * left. by right.
      * apply elem_of_cons in Hin as [->|Hin]; [left; left|by right].
Qed.

Lemma load_segments_blank (content : string) :
  load_segments (Some content) = []
  ↔ Forall (λ c, Py.isspace c = true) (list_ascii_of_string content).
Proof.
  unfold load_segments. split.
  - intros Hnil%fmap_nil_inv. apply Forall_forall. intros c Hc.
    destruct (Py.isspace c) eqn:Hsp; [done|]. exfalso.
    destruct (split_on_from_covers "010" content [] c) as (f & Hf & Hcf);
      [by intros -> | by right |].
    apply (filter_nil_not_elem_of _ _ f Hnil); [|done].
    intros Hstrip.
    pose proof (rstrip_keeps c _ Hsp (lstrip_keeps c f Hsp Hcf)) as Hin.
    unfold Py.strip in Hstrip. rewrite Hstrip in Hin.
    by apply elem_of_nil in Hin.
  - intros Hblank. rewrite filter_none; [done|].
    apply Forall_forall. intros f Hf.
    intros Hstrip. apply Hstrip. unfold Py.strip.
    rewrite lstrip_blank; [done|].
    apply Forall_forall. intros c Hc.
    destruct (split_on_from_chars "010" content [] f c Hf Hc) as [Hin|Hin];
      [by apply elem_of_nil in Hin|].
    rewrite Forall_forall in Hblank. by apply Hblank.
Qed.

(** X8. [load_segments] returns no segment exactly when no file is given
    or the file holds nothing but whitespace. *)
Theorem load_segments_none (uploaded_file : option string) :
  load_segments uploaded_file = []
  ↔ match uploaded_file with
    | None => True
    | Some content =>
        Forall (λ c, Py.isspace c = true) (list_ascii_of_string content)
    end.
Proof.
  destruct uploaded_file as [content|]; [|done]. apply load_segments_blank.
Qed.

(** ** Runs of the script, whatever the widgets return *)

Lemma leave_record step current_text edited_text now s :
  leave step current_text edited_text now s
  = {| current_segment := (current_segment s + step)%Z;
       segments := segments s;
       edit_metrics :=
         edit_metrics s
         ++ [record_of (current_segment s) current_text edited_text
               (default (at_display now) (start_time s)) (at_save now)];
       start_time := None |}.
Proof.
  unfold leave, start_timer, save_metrics, record_of.
  destruct (start_time s) as [t0|] eqn:Ht; simpl; rewrite ?Ht;
    by destruct (calculate_edit_distance current_text edited_text).
Qed.

Lemma selectbox_some n index choice :
  (0 ≤ index < Z.of_nat n)%Z →
  ∃ z, selectbox n index choice = Some z ∧ (0 ≤ z < Z.of_nat n)%Z.
Proof.
  intros Hi. unfold selectbox. rewrite decide_True by done.
  destruct choice as [t|]; [|by eauto].
  destruct (Nat.ltb_spec t n); eexists; (split; [reflexivity|lia]).
Qed.

(** A run of [src/app.py] while a segment is active. *)
Lemma SrcApp_main_active (r : Run) (s : SessionState) :
  (0 ≤ current_segment s < Z.of_nat (length (segments s)))%Z →
  ∃ z current_text,
    (0 ≤ z < Z.of_nat (length (segments s)))%Z
    ∧ selectbox (length (segments s)) (current_segment s)
        (segment_select r) = Some z
    ∧ segments s !! Z.to_nat z = Some current_text
    ∧ let s0 := set_current_segment z s in
      let edited_text := default current_text (edit_area r) in
      SrcApp.main r s
      = if prev_segment r && negb (z =? 0)%Z then
          (Rerun, leave (-1) current_text edited_text (clock r) s0)
        else if next_segment r then
          (Rerun, leave 1 current_text edited_text (clock r) s0)
        else (Finished false, start_timer (at_display (clock r)) s0).
Proof.
  intros Hact.
  destruct (selectbox_some (length (segments s)) (current_segment s)
              (segment_select r) Hact) as (z & Hsel & Hz).
  destruct (lookup_lt_is_Some_2 (segments s) (Z.to_nat z) ltac:(lia))
    as [txt Htxt].
  exists z, txt. do 3 (split; [done|]).
  pose proof (active_segments _ Hact) as Hne.
  destruct (start_timer_fields (at_display (clock r))
              (set_current_segment z s)) as (Hc & Hs & Hm).
  unfold SrcApp.main, button.
  rewrite (proj2 (Nat.eqb_neq _ _)), andb_false_r
    by (by destruct (segments s)).
  rewrite (bool_decide_eq_false_2 _ Hne).
  rewrite (proj2 (Z.leb_gt _ _) (proj2 Hact)).
  rewrite Hsel. cbn [segments set_current_segment current_segment].
  rewrite Htxt. cbn zeta. rewrite Hc.
  cbn [current_segment set_current_segment]. rewrite andb_true_r.
  destruct (prev_segment r && negb (z =? 0)%Z); [done|].
  by destruct (next_segment r).
Qed.

(** A run of [app.py] while a segment is active. *)
Lemma App_main_active (r : Run) (s : SessionState) :
  (0 ≤ current_segment s < Z.of_nat (length (segments s)))%Z →
  ∃ z current_text,
    (0 ≤ z < Z.of_nat (length (segments s)))%Z
    ∧ selectbox (length (segments s)) (current_segment s)
        (segment_select r) = Some z
    ∧ segments s !! Z.to_nat z = Some current_text
    ∧ let s0 := set_current_segment z s in
      let edited_text := default current_text (edit_area r) in
      App.main r s
      = if prev_segment r && negb (z =? 0)%Z then
          (Rerun, leave (-1) current_text edited_text (clock r) s0)
        else if next_segment r then
          (if bool_decide (edited_text ≠ current_text) then Raised TypeError
           else Finished (Z.of_nat (length (segments s)) <=? z + 1)%Z,
           leave 1 current_text edited_text (clock r) s0)
        else (Finished false, start_timer (at_display (clock r)) s0).
Proof.
  intros Hact.
  destruct (selectbox_some (length (segments s)) (current_segment s)
              (segment_select r) Hact) as (z & Hsel & Hz).
  destruct (lookup_lt_is_Some_2 (segments s) (Z.to_nat z) ltac:(lia))
    as [txt Htxt].
  exists z, txt. do 3 (split; [done|]).
  pose proof (active_segments _ Hact) as Hne.
  destruct (start_timer_fields (at_display (clock r))
              (set_current_segment z s)) as (Hc & Hs & Hm).
  destruct (start_timer_running (at_display (clock r))
              (set_current_segment z s)) as [t0 Ht0].
  unfold App.main, button.
  rewrite (proj2 (Nat.eqb_neq _ _)), andb_false_r
    by (by destruct (segments s)).
  rewrite (bool_decide_eq_false_2 _ Hne).
  rewrite Hsel. cbn [segments set_current_segment current_segment].
  rewrite Htxt. cbn zeta. rewrite Hc, Hs.
  cbn [current_segment set_current_segment segments].
  rewrite (proj2 (Z.leb_gt _ _) (proj2 Hz)), andb_true_r.
  destruct (prev_segment r && negb (z =? 0)%Z); [done|].
  destruct (next_segment r).
  - cbn [negb andb]. fold (leave 1 txt (default txt (edit_area r)) (clock r)
                            (set_current_segment z s)).
    rewrite leave_record.
    cbn [segments edit_metrics start_time current_segment
         set_current_segment].
    rewrite (bool_decide_eq_false_2 (_ ++ [_] = []))
      by (by intros [_ ?]%app_eq_nil).
    rewrite andb_false_r.
    rewrite (bool_decide_eq_true_2 (@None float = None)) by done.
    rewrite andb_true_r. by case_bool_decide.
  - cbn [andb]. rewrite Hs. cbn [segments set_current_segment].
    rewrite Hc. cbn [current_segment set_current_segment].
    rewrite (proj2 (Z.leb_gt _ _) (proj2 Hz)). cbn [andb].
    rewrite Ht0.
    rewrite (bool_decide_eq_false_2 (Some t0 = None)) by done.
    by rewrite andb_false_r.
Qed.

(** A run before any segment is loaded. *)
Lemma main_no_segments (r : Run) (s : SessionState) :
  segments s = [] →
  let result :=
    match uploaded_file r with
    | Some content =>
        (Rerun, set_segments (load_segments (Some content)) s)
    | None => (Finished false, s)
    end in
  App.main r s = result ∧ SrcApp.main r s = result.
Proof.
  intros Hs. unfold App.main, SrcApp.main. rewrite Hs.
  by destruct (uploaded_file r) as [content|].
Qed.

(** A run of [app.py] when the index is not the position of a segment. *)
Lemma App_main_outside (r : Run) (s : SessionState) :
  segments s ≠ [] →
  ¬ (0 ≤ current_segment s < Z.of_nat (length (segments s)))%Z →
  App.main r s = (Raised StreamlitAPIException, s).
Proof.
  intros Hne Hout. unfold App.main.
  rewrite (proj2 (Nat.eqb_neq _ _)), andb_false_r
    by (by destruct (segments s)).
  rewrite (bool_decide_eq_false_2 _ Hne).
  by rewrite selectbox_outside.
Qed.

(** A run of [src/app.py] once every segment has been left. *)
Lemma SrcApp_main_complete (r : Run) (s : SessionState) :
  segments s ≠ [] →
  (Z.of_nat (length (segments s)) ≤ current_segment s)%Z →
  SrcApp.main r s
  = (if bool_decide (edit_metrics s = []) then Raised KeyError
     else Finished true, s).
Proof.
  intros Hne Hc. unfold SrcApp.main.
  rewrite (proj2 (Nat.eqb_neq _ _)), andb_false_r
    by (by destruct (segments s)).
  rewrite (bool_decide_eq_false_2 _ Hne).
  rewrite (proj2 (Z.leb_le _ _) Hc). by case_bool_decide.
Qed.

Lemma faithful_record (segments : list string) (z : Z)
    (current_text edited_text : string) (started now : float) :
  (0 ≤ z)%Z → segments !! Z.to_nat z = Some current_text →
  faithful segments (record_of z current_text edited_text started now).
Proof.
  intros Hz Htxt. unfold faithful, record_of.
  cbn [segment_id original edited insertions deletions].
  split_and!; [done|done|].
  by destruct (calculate_edit_distance current_text edited_text).
Qed.

Lemma sound_session_leave step current_text edited_text now z s :
  sound_session s →
  (0 ≤ z < Z.of_nat (length (segments s)))%Z →
  (0 ≤ z + step ≤ Z.of_nat (length (segments s)))%Z →
  segments s !! Z.to_nat z = Some current_text →
  sound_session
    (leave step current_text edited_text now (set_current_segment z s)).
Proof.
  intros (Hb & Hf & Hc) Hz Hstep Htxt. rewrite leave_record.
  unfold sound_session, complete. simpl. split_and!; [lia|lia|..].
  - rewrite Forall_app, Forall_singleton. split; [done|].
    apply faithful_record; [lia|done].
  - by intros _ [_ ?]%app_eq_nil.
Qed.

Lemma sound_session_display now z s :
  sound_session s →
  (0 ≤ z < Z.of_nat (length (segments s)))%Z →
  sound_session (start_timer now (set_current_segment z s)).
Proof.
  intros (Hb & Hf & Hc) Hz.
  destruct (start_timer_fields now (set_current_segment z s))
    as (Hc' & Hs' & Hm').
  unfold sound_session, complete. rewrite Hc', Hs', Hm'. simpl.
  split_and!; [lia|lia|done|]. intros [_ Heq]. lia.
Qed.

Lemma sound_session_segments segs s :
  sound_session s → segments s = [] →
  sound_session (set_segments segs s).
Proof.
  intros (Hb & Hf & Hc) Hs. rewrite Hs in Hb, Hf. simpl in Hb.
  assert (Hm : edit_metrics s = []).
  { destruct (edit_metrics s) as [|m ms]; [done|].
    apply Forall_cons in Hf as [(_ & Hm & _) _]. done. }
  unfold sound_session, complete. simpl. rewrite Hm.
  split_and!; [lia|lia|constructor|].
  intros [Hne Heq]. destruct segs; [done|]. simpl in Heq. lia.
Qed.

Lemma sound_session_run (r : Run) (s : SessionState) :
  sound_session s →
  sound_session (App.main r s).2 ∧ sound_session (SrcApp.main r s).2.
Proof.
  intros Hsound. pose proof Hsound as (Hb & Hf & Hc).
  destruct (decide (segments s = [])) as [Hs|Hne].
  { destruct (main_no_segments r s Hs) as [-> ->].
    destruct (uploaded_file r); simpl; [|done].
    split; by apply sound_session_segments. }
  destruct (decide (current_segment s < Z.of_nat (length (segments s)))%Z)
    as [Hlt|Hge].
  - assert (Hact : (0 ≤ current_segment s
                    < Z.of_nat (length (segments s)))%Z) by lia.
    split.
    + destruct (App_main_active r s Hact)
        as (z & txt & Hz & _ & Htxt & ->).
      destruct (prev_segment r && negb (z =? 0)%Z) eqn:Hp; simpl.
      * apply andb_prop in Hp as [_ Hp].
        apply sound_session_leave; try done. lia.
      * destruct (next_segment r); simpl.
        -- apply sound_session_leave; try done. lia.
        -- by apply sound_session_display.
    + destruct (SrcApp_main_active r s Hact)
        as (z & txt & Hz & _ & Htxt & ->).
      destruct (prev_segment r && negb (z =? 0)%Z) eqn:Hp; simpl.
      * apply andb_prop in Hp as [_ Hp].
        apply sound_session_leave; try done. lia.
      * destruct (next_segment r); simpl.
        -- apply sound_session_leave; try done. lia.
        -- by apply sound_session_display.
  - rewrite App_main_outside by (done || lia).
    rewrite SrcApp_main_complete by (done || lia). done.
Qed.

Lemma runs_snoc main (rs : list Run) (r : Run) (s : SessionState) :
  runs main (rs ++ [r]) s = (main r (runs main rs s)).2.
Proof. unfold runs. by rewrite fold_left_app. Qed.

Lemma sound_session_init : sound_session init_session_state.
Proof.
  unfold sound_session, complete. simpl.
  split_and!; [done|done|constructor|]. by intros [? _].
Qed.

Lemma sound_session_runs (rs : list Run) :
  sound_session (runs App.main rs init_session_state)
  ∧ sound_session (runs SrcApp.main rs init_session_state).
Proof.
  induction rs as [|r rs [IH1 IH2]] using rev_ind.
  - split; apply sound_session_init.
  - rewrite !runs_snoc. split.
    + by apply sound_session_run.
    + by apply sound_session_run.
Qed.

(** X9. Whatever the operator does, from a new session on: the index of
    the current segment stays between 0 and the number of segments, and
    every record stored is faithful: its [segment_id] is the position of
    its [original] text among the segments, and its counts are those of
    [calculate_edit_distance] for its [original] and its [edited] text.
    This holds in [app.py] and in [src/app.py]. *)
Theorem records_stay_faithful (rs : list Run) :
  let kept (s : SessionState) :=
    (0 ≤ current_segment s ≤ Z.of_nat (length (segments s)))%Z
    ∧ Forall (faithful (segments s)) (edit_metrics s) in
  kept (runs App.main rs init_session_state)
  ∧ kept (runs SrcApp.main rs init_session_state).
Proof.
  destruct (sound_session_runs rs) as [(H1 & H2 & _) (H3 & H4 & _)].
  by split.
Qed.

(** X10. In [src/app.py] the navigation never fails: whatever the
    operator has done since the session began and does in this run, [main]
    does not end in an exception of [st.selectbox] for an index out of
    range, in an [IndexError] for a segment that does not exist, or in the
    [KeyError] of [display_results] on a list without records. (The file
    uploaded is taken as decoded.) *)
Theorem src_main_never_raises (rs : list Run) (r : Run) (e : Exception) :
  (SrcApp.main r (runs SrcApp.main rs init_session_state)).1 ≠ Raised e.
Proof.
  destruct (sound_session_runs rs) as [_ (Hb & Hf & Hc)].
  set (s := runs SrcApp.main rs init_session_state) in *.
  destruct (decide (segments s = [])) as [Hs|Hne].
  { rewrite (proj2 (main_no_segments r s Hs)).
    by destruct (uploaded_file r). }
  destruct (decide (current_segment s < Z.of_nat (length (segments s)))%Z)
    as [Hlt|Hge].
  - destruct (SrcApp_main_active r s ltac:(lia))
      as (z & txt & Hz & _ & Htxt & ->).
    destruct (prev_segment r && negb (z =? 0)%Z); [done|].
    by destruct (next_segment r).
  - rewrite SrcApp_main_complete by (done || lia). simpl.
    rewrite bool_decide_eq_false_2; [done|].
    apply Hc. split; [done|lia].
Qed.

Lemma App_main_raised (rs : list Run) (r : Run) (e : Exception) :
  let s := runs App.main rs init_session_state in
  (App.main r s).1 = Raised e →
  (e = StreamlitAPIException ∧ complete s)
  ∨ (e = TypeError ∧ next_segment r = true
     ∧ ∃ z current_text edited_text,
         selectbox (length (segments s)) (current_segment s)
           (segment_select r) = Some z
         ∧ segments s !! Z.to_nat z = Some current_text
         ∧ edit_area r = Some edited_text
         ∧ edited_text ≠ current_text).
Proof.
  intros s. destruct (sound_session_runs rs) as [(Hb & Hf & Hc) _].
  fold s in Hb, Hf, Hc.
  destruct (decide (segments s = [])) as [Hs|Hne].
  { rewrite (proj1 (main_no_segments r s Hs)).
    by destruct (uploaded_file r). }
  destruct (decide (current_segment s < Z.of_nat (length (segments s)))%Z)
    as [Hlt|Hge].
  - destruct (App_main_active r s ltac:(lia))
      as (z & txt & Hz & Hsel & Htxt & ->).
    destruct (prev_segment r && negb (z =? 0)%Z); [done|].
    destruct (next_segment r); [|done]. cbn [fst snd].
    case_bool_decide as He; [|done]. intros [= <-]. right.
    split_and!; [done..|].
    destruct (edit_area r) as [edited_text|]; [|done].
    by exists z, txt, edited_text.
  - rewrite App_main_outside by (done || lia). intros [= <-]. left.
    split; [done|]. split; [done|lia].
Qed.

(** X11. In [app.py], whatever the operator has done since the session
    began and does in this run, [main] never ends in an [IndexError] for a
    segment that does not exist nor in the [KeyError] of [display_results]
    on a list without records; it ends in the exception of [st.selectbox]
    for an index out of range exactly when every segment has been left;
    and it ends in the [TypeError] of the statistics panel, which
    subtracts a timer that has just been cleared, only when "Next" is
    clicked with a text that differs from the segment. (The file uploaded
    is taken as decoded: the [UnicodeDecodeError] that [load_segments]
    raises for a file that is not UTF-8 is outside the embedding.) *)
Theorem app_navigation_failures (rs : list Run) (r : Run) :
  let s := runs App.main rs init_session_state in
  let outcome := (App.main r s).1 in
  outcome ≠ Raised IndexError
  ∧ outcome ≠ Raised KeyError
  ∧ (outcome = Raised StreamlitAPIException ↔ complete s)
  ∧ (outcome = Raised TypeError →
     next_segment r = true
     ∧ ∃ z current_text edited_text,
         selectbox (length (segments s)) (current_segment s)
           (segment_select r) = Some z
         ∧ segments s !! Z.to_nat z = Some current_text
         ∧ edit_area r = Some edited_text
         ∧ edited_text ≠ current_text).
Proof.
  intros s outcome.
  pose proof (App_main_raised rs r) as Hraised. fold s outcome in Hraised.
  split_and!.
  - intros He. by destruct (Hraised _ He) as [[? _]|[? _]].
  - intros He. by destruct (Hraised _ He) as [[? _]|[? _]].
  - split.
    + intros He. by destruct (Hraised _ He) as [[_ ?]|[? _]].
    + intros [Hne Hc]. unfold outcome.
      rewrite App_main_outside; [done..|lia].
  - intros He. by destruct (Hraised _ He) as [[? _]|[_ ?]].
Qed.

(** X12. In [app.py], a click on "Next" after the text of the segment has
    been changed saves the record and moves to the next segment, and then
    the run ends in a [TypeError]; in [src/app.py] the same click ends in
    [st.rerun()]. *)
Theorem app_next_after_edit_raises (current_text edited_text : string)
    (now : Clock) (s : SessionState) :
  valid (Advance edited_text) s = true →
  segments s !! Z.to_nat (current_segment s) = Some current_text →
  edited_text ≠ current_text →
  App.main (run_of (Advance edited_text) now) s
  = (Raised TypeError, leave 1 current_text edited_text now s)
  ∧ SrcApp.main (run_of (Advance edited_text) now) s
    = (Rerun, leave 1 current_text edited_text now s).
Proof.
  intros Hv Htxt Hne. pose proof (valid_active _ _ Hv) as Hact. split.
  - destruct (App_main_active (run_of (Advance edited_text) now) s Hact)
      as (z & txt & Hz & Hsel & Htxt' & ->).
    simpl in Hsel. rewrite selectbox_untouched in Hsel by done.
    injection Hsel as <-. rewrite Htxt in Htxt'. injection Htxt' as <-.
    simpl. rewrite set_current_segment_same.
    by rewrite bool_decide_eq_true_2.
  - destruct (SrcApp_main_active (run_of (Advance edited_text) now) s Hact)
      as (z & txt & Hz & Hsel & Htxt' & ->).
    simpl in Hsel. rewrite selectbox_untouched in Hsel by done.
    injection Hsel as <-. rewrite Htxt in Htxt'. injection Htxt' as <-.
    simpl. by rewrite set_current_segment_same.
Qed.

Lemma app_next_after_edit_raises_witness :
  let s := load App.main scenario_file (tick 100) (tick 100) in
  (App.main (run_of (Advance "The cat sat on the mat.") (tick 105)) s).1
  = Raised TypeError
  ∧ (SrcApp.main (run_of (Advance "The cat sat on the mat.") (tick 105)) s).1
    = Rerun.
Proof.
  intros s.
  destruct (app_next_after_edit_raises "The cat sat." "The cat sat on the mat."
              (tick 105) s) as [-> ->]; done.
Defined.

(** X13. No run of [main] rewrites what the session holds: once segments
    are loaded they stay as they are, whatever file the uploader returns,
    and the records stored are kept as they are, in their order, with at
    most one record added after them. This holds in [app.py] and in
    [src/app.py]. *)
Theorem run_keeps_history (r : Run) (s : SessionState) :
  let kept (s' : SessionState) :=
    (segments s ≠ [] → segments s' = segments s)
    ∧ ∃ added, edit_metrics s' = edit_metrics s ++ added
               ∧ length added ≤ 1 in
  kept (App.main r s).2 ∧ kept (SrcApp.main r s).2.
Proof.
  intros kept.
  assert (Hsame : kept s).
  { split; [done|]. exists []. rewrite app_nil_r. split; [done|simpl; lia]. }
  assert (Hleave : ∀ step txt e z,
    segments s ≠ [] →
    kept (leave step txt e (clock r) (set_current_segment z s))).
  { intros step txt e z Hne. rewrite leave_record. split; [done|].
    simpl. eexists [_]. split; [done|simpl; lia]. }
  assert (Hshow : ∀ z,
    kept (start_timer (at_display (clock r)) (set_current_segment z s))).
  { intros z.
    destruct (start_timer_fields (at_display (clock r))
                (set_current_segment z s)) as (_ & Hs & Hm).
    split; [by rewrite Hs|]. rewrite Hm. exists []. rewrite app_nil_r.
    split; [done|simpl; lia]. }
  destruct (decide (segments s = [])) as [Hs|Hne].
  { destruct (main_no_segments r s Hs) as [-> ->].
    destruct (uploaded_file r); [|done].
    split; (split; [done|]); exists []; rewrite app_nil_r;
      (split; [done|simpl; lia]). }
  destruct (decide (0 ≤ current_segment s
                    < Z.of_nat (length (segments s)))%Z) as [Hact|Hout].
  - split.
    + destruct (App_main_active r s Hact) as (z & txt & _ & _ & _ & ->).
      destruct (prev_segment r && negb (z =? 0)%Z); [by apply Hleave|].
      destruct (next_segment r); [by apply Hleave|apply Hshow].
    + destruct (SrcApp_main_active r s Hact) as (z & txt & _ & _ & _ & ->).
      destruct (prev_segment r && negb (z =? 0)%Z); [by apply Hleave|].
      destruct (next_segment r); [by apply Hleave|apply Hshow].
  - rewrite App_main_outside by done. split; [done|].
    destruct (decide (Z.of_nat (length (segments s)) ≤ current_segment s)%Z).
    + by rewrite SrcApp_main_complete.
    + unfold SrcApp.main.
      rewrite (proj2 (Nat.eqb_neq _ _)), andb_false_r
        by (by destruct (segments s)).
      rewrite (bool_decide_eq_false_2 _ Hne).
      rewrite (proj2 (Z.leb_gt _ _)) by lia.
      by rewrite selectbox_outside.
Qed.

(** X14. A file that holds nothing but whitespace never gets the script
    past the uploader: as long as the uploader returns it, every run of
    [main] ends in [st.rerun()] and leaves the session as it was, in
    [app.py] and in [src/app.py]. *)
Theorem blank_file_reruns (content : string) (r : Run) (s : SessionState) :
  segments s = [] → uploaded_file r = Some content →
  Forall (λ c, Py.isspace c = true) (list_ascii_of_string content) →
  App.main r s = (Rerun, s) ∧ SrcApp.main r s = (Rerun, s).
Proof.
  intros Hs Hr Hblank. destruct (main_no_segments r s Hs) as [-> ->].
  rewrite Hr. apply load_segments_blank in Hblank. rewrite Hblank.
  unfold set_segments. rewrite <- Hs. by destruct s.
Qed.

Lemma blank_file_reruns_witness :
  let blank := " " +:+ Differ.newline +:+ Differ.newline in
  let r := {| uploaded_file := Some blank; segment_select := None;
              edit_area := None; prev_segment := false;
              next_segment := false; clock := tick 100 |} in
  App.main r init_session_state = (Rerun, init_session_state)
  ∧ SrcApp.main r init_session_state = (Rerun, init_session_state).
Proof.
  intros blank r.
  apply (blank_file_reruns blank r init_session_state); [done|done|].
  repeat constructor.
Defined.

(** A run in which nothing is touched keeps the index, the segments and
    the records. *)
Lemma idle_run_fields (later : Clock) (s : SessionState) :
  let kept (s' : SessionState) :=
    current_segment s' = current_segment s
    ∧ segments s' = segments s
    ∧ edit_metrics s' = edit_metrics s in
  kept (App.main (idle later) s).2 ∧ kept (SrcApp.main (idle later) s).2.
Proof.
  intros kept.
  assert (Hshow : ∀ z, z = current_segment s →
    kept (start_timer (at_display later) (set_current_segment z s))).
  { intros z ->.
    destruct (start_timer_fields (at_display later)
                (set_current_segment (current_segment s) s))
      as (Hc & Hs & Hm).
    by split_and!. }
  destruct (decide (segments s = [])) as [Hs|Hne].
  { by destruct (main_no_segments (idle later) s Hs) as [-> ->]. }
  destruct (decide (0 ≤ current_segment s
                    < Z.of_nat (length (segments s)))%Z) as [Hact|Hout].
  - split.
    + destruct (App_main_active (idle later) s Hact)
        as (z & txt & _ & Hsel & _ & ->).
      simpl in Hsel. rewrite selectbox_untouched in Hsel by done.
      injection Hsel as <-. by apply Hshow.
    + destruct (SrcApp_main_active (idle later) s Hact)
        as (z & txt & _ & Hsel & _ & ->).
      simpl in Hsel. rewrite selectbox_untouched in Hsel by done.
      injection Hsel as <-. by apply Hshow.
  - rewrite App_main_outside by done. split; [done|].
    destruct (decide (Z.of_nat (length (segments s)) ≤ current_segment s)%Z).
    + by rewrite SrcApp_main_complete.
    + unfold SrcApp.main.
      rewrite (proj2 (Nat.eqb_neq _ _)), andb_false_r
        by (by destruct (segments s)).
      rewrite (bool_decide_eq_false_2 _ Hne).
      rewrite (proj2 (Z.leb_gt _ _)) by lia.
      by rewrite selectbox_outside.
Qed.

(** The session once a file is loaded. *)
Lemma load_session main content now later :
  main = App.main ∨ main = SrcApp.main →
  current_segment (load main content now later) = 0%Z
  ∧ segments (load main content now later) = load_segments (Some content)
  ∧ edit_metrics (load main content now later) = [].
Proof.
  intros [-> | ->]; unfold load.
  - rewrite (interact_rerun _ _ _ _
               (set_segments (load_segments (Some content)) init_session_state))
      by done.
    by destruct (proj1 (idle_run_fields later
      (set_segments (load_segments (Some content)) init_session_state)))
      as (-> & -> & ->).
  - rewrite (interact_rerun _ _ _ _
               (set_segments (load_segments (Some content)) init_session_state))
      by done.
    by destruct (proj2 (idle_run_fields later
      (set_segments (load_segments (Some content)) init_session_state)))
      as (-> & -> & ->).
Qed.

(** What a valid click on "Next" leaves behind, in either variant. *)
Lemma transition_advance (edited_text : string) (now later : Clock)
    (s : SessionState) :
  valid (Advance edited_text) s = true →
  ∃ current_text started,
    segments s !! Z.to_nat (current_segment s) = Some current_text
    ∧ started = default (at_display now) (start_time s)
    ∧ let moved (s' : SessionState) :=
        current_segment s' = (current_segment s + 1)%Z
        ∧ segments s' = segments s
        ∧ edit_metrics s'
          = edit_metrics s
            ++ [record_of (current_segment s) current_text edited_text
                  started (at_save now)] in
      moved (transition App.main (Advance edited_text) now later s)
      ∧ moved (transition SrcApp.main (Advance edited_text) now later s).
Proof.
  intros Hv.
  destruct (App_main_advance edited_text now s Hv)
    as (o & txt & Ho & Htxt & Happ).
  destruct (SrcApp_main_advance edited_text now s Hv)
    as (txt' & Htxt' & Hsrc).
  rewrite Htxt in Htxt'. injection Htxt' as <-.
  exists txt, (default (at_display now) (start_time s)).
  split; [done|]. split; [done|]. intros moved. unfold transition. split.
  - rewrite (interact_no_rerun _ _ _ _ _ _ Happ Ho). cbn [snd].
    rewrite leave_record. by split_and!.
  - rewrite (interact_rerun _ _ _ _ _ Hsrc).
    destruct (proj2 (idle_run_fields later (leave 1 txt edited_text now s)))
      as (Hc & Hs & Hm).
    unfold moved. rewrite Hc, Hs, Hm, leave_record. by split_and!.
Qed.

Section Walk.
Variable main : Run → SessionState → Outcome * SessionState.
Hypothesis advance : ∀ edited_text now later s,
  valid (Advance edited_text) s = true →
  ∃ current_text started,
    segments s !! Z.to_nat (current_segment s) = Some current_text
    ∧ current_segment (transition main (Advance edited_text) now later s)
      = (current_segment s + 1)%Z
    ∧ segments (transition main (Advance edited_text) now later s)
      = segments s
    ∧ edit_metrics (transition main (Advance edited_text) now later s)
      = edit_metrics s
        ++ [record_of (current_segment s) current_text edited_text
              started (at_save now)].

Lemma walk_records (steps : list (string * Clock * Clock)) :
  ∀ (s : SessionState) (i : nat),
    current_segment s = Z.of_nat i →
    i + length steps ≤ length (segments s) →
    let s' :=
      transitions main
        ((λ '(edited_text, now, later), (Advance edited_text, now, later))
           <$> steps) s in
    current_segment s' = Z.of_nat (i + length steps)
    ∧ segments s' = segments s
    ∧ ∃ added,
        edit_metrics s' = edit_metrics s ++ added
        ∧ segment_id <$> added = Z.of_nat <$> seq i (length steps)
        ∧ original <$> added = take (length steps) (drop i (segments s))
        ∧ edited <$> added = (λ x, x.1.1) <$> steps.
Proof using advance.
  induction steps as [|[[e now] later] steps IH]; intros s i Hi Hlen.
  - simpl. rewrite Nat.add_0_r. split_and!; [done..|].
    exists []. by rewrite app_nil_r.
  - simpl in Hlen. rewrite fmap_cons. cbn [transitions].
    assert (Hv : valid (Advance e) s = true).
    { unfold valid. rewrite Hi. lia. }
    destruct (advance e now later s Hv)
      as (txt & started & Htxt & Hc & Hs & Hm).
    rewrite Hi, Nat2Z.id in Htxt.
    destruct (IH (transition main (Advance e) now later s) (S i))
      as (Hc' & Hs' & added & Hm' & Hids & Horig & Hed).
    { rewrite Hc, Hi. lia. }
    { rewrite Hs. lia. }
    cbn zeta in *. rewrite Hc', Hs'. split_and!; [f_equal; simpl; lia|done|].
    exists (record_of (current_segment s) txt e started (at_save now)
            :: added).
    rewrite Hm', Hm, <- app_assoc. split_and!; [done|..].
    + rewrite fmap_cons, Hids. simpl. by rewrite Hi.
    + rewrite fmap_cons, Horig, Hs. simpl.
      by rewrite (drop_S _ _ _ Htxt).
    + by rewrite fmap_cons, Hed.
Qed.
End Walk.

(** X15. When "Next" is clicked once for each segment from the moment the
    file is loaded, the session ends with all segments left and one record
    per segment, in the order of the segments: the [segment_id]s are 0, 1,
    2, ..., the [original]s are the segments and the [edited] texts are
    the texts that were submitted. This holds in [app.py] and in
    [src/app.py]. *)
Theorem next_through_all_segments (content : string) (now later : Clock)
    (steps : list (string * Clock * Clock)) :
  length steps = length (load_segments (Some content)) →
  let clicks :=
    (λ '(edited_text, now, later), (Advance edited_text, now, later))
      <$> steps in
  let walked (s : SessionState) :=
    current_segment s = Z.of_nat (length (load_segments (Some content)))
    ∧ segment_id <$> edit_metrics s = Z.of_nat <$> seq 0 (length steps)
    ∧ original <$> edit_metrics s = load_segments (Some content)
    ∧ edited <$> edit_metrics s = (λ x, x.1.1) <$> steps in
  walked (transitions App.main clicks (load App.main content now later))
  ∧ walked (transitions SrcApp.main clicks
              (load SrcApp.main content now later)).
Proof.
  intros Hlen clicks walked.
  assert (Hgen : ∀ main,
    main = App.main ∨ main = SrcApp.main →
    walked (transitions main clicks (load main content now later))).
  { intros main Hmain.
    destruct (load_session main content now later Hmain) as (Hc & Hs & Hm).
    destruct (walk_records main) with (steps := steps)
      (s := load main content now later) (i := 0)
      as (Hc' & Hs' & added & Hm' & Hids & Horig & Hed).
    - intros e n l s Hv.
      destruct (transition_advance e n l s Hv)
        as (txt & started & Htxt & _ & Happ & Hsrc).
      exists txt, started. split; [done|].
      by destruct Hmain as [-> | ->].
    - by rewrite Hc.
    - rewrite Hs, <- Hlen. lia.
    - fold clicks in Hc', Hs', Hm'. unfold walked.
      rewrite Hm, app_nil_l in Hm'. rewrite Hm', Hc'.
      rewrite Hs, drop_0, <- Hlen in *.
      split_and!; [done|done| |done].
      rewrite Horig, Hlen. apply firstn_all. }
  split; apply Hgen; auto.
Qed.

Lemma next_through_all_segments_witness :
  let steps := [("The cat sat on the mat.", tick 105, tick 105);
                ("It was sunny.", tick 107, tick 107)] in
  let clicks :=
    (λ '(edited_text, now, later), (Advance edited_text, now, later))
      <$> steps in
  edited <$> edit_metrics
               (transitions SrcApp.main clicks
                  (load SrcApp.main scenario_file (tick 100) (tick 100)))
  = ["The cat sat on the mat."; "It was sunny."].
Proof.
  intros steps clicks.
  destruct (next_through_all_segments scenario_file (tick 100) (tick 100)
              steps) as [_ (_ & _ & _ & Hedited)]; [reflexivity|].
  exact Hedited.
Defined.

(** What a valid click on "Previous" leaves behind, in either variant. *)
Lemma transition_retreat (edited_text : string) (now later : Clock)
    (s : SessionState) :
  valid (Retreat edited_text) s = true →
  ∃ current_text started,
    segments s !! Z.to_nat (current_segment s) = Some current_text
    ∧ let moved (s' : SessionState) :=
        current_segment s' = (current_segment s - 1)%Z
        ∧ segments s' = segments s
        ∧ edit_metrics s'
          = edit_metrics s
            ++ [record_of (current_segment s) current_text edited_text
                  started (at_save now)] in
      moved (transition App.main (Retreat edited_text) now later s)
      ∧ moved (transition SrcApp.main (Retreat edited_text) now later s).
Proof.
  intros Hv.
  destruct (main_retreat edited_text now s Hv) as (txt & Htxt & Happ & Hsrc).
  exists txt, (default (at_display now) (start_time s)).
  split; [done|]. intros moved. unfold transition, moved.
  rewrite (interact_rerun _ _ _ _ _ Happ), (interact_rerun _ _ _ _ _ Hsrc).
  destruct (idle_run_fields later (leave (-1) txt edited_text now s))
    as [(Hc & Hs & Hm) (Hc' & Hs' & Hm')].
  rewrite Hc, Hs, Hm, Hc', Hs', Hm', leave_record. simpl.
  replace (current_segment s + -1)%Z with (current_segment s - 1)%Z by lia.
  by split_and!.
Qed.

(** X16. "Next" followed by "Previous" brings the operator back to the
    segment they started from, and leaves two more records behind: one of
    that segment and one of the segment after it, in this order. This
    holds in [app.py] and in [src/app.py]. *)
Theorem next_then_previous (first second : string)
    (now later now' later' : Clock) (s : SessionState) :
  valid (Advance first) s = true →
  (current_segment s + 1 < Z.of_nat (length (segments s)))%Z →
  let back (main : Run → SessionState → Outcome * SessionState) :=
    let s' :=
      transition main (Retreat second) now' later'
        (transition main (Advance first) now later s) in
    current_segment s' = current_segment s
    ∧ ∃ m m',
        edit_metrics s' = edit_metrics s ++ [m; m']
        ∧ segment_id m = current_segment s ∧ edited m = first
        ∧ segment_id m' = (current_segment s + 1)%Z ∧ edited m' = second in
  back App.main ∧ back SrcApp.main.
Proof.
  intros Hv Hnext back.
  pose proof (valid_active _ _ Hv) as Hact.
  destruct (transition_advance first now later s Hv)
    as (txt & started & _ & _ & (Hc & Hs & Hm) & (Hc' & Hs' & Hm')).
  assert (Hgen : ∀ main,
    current_segment (transition main (Advance first) now later s)
    = (current_segment s + 1)%Z →
    segments (transition main (Advance first) now later s) = segments s →
    edit_metrics (transition main (Advance first) now later s)
    = edit_metrics s ++ [record_of (current_segment s) txt first started
                           (at_save now)] →
    (∀ s1, valid (Retreat second) s1 = true →
       ∃ txt1 started1,
         current_segment (transition main (Retreat second) now' later' s1)
         = (current_segment s1 - 1)%Z
         ∧ edit_metrics (transition main (Retreat second) now' later' s1)
           = edit_metrics s1
             ++ [record_of (current_segment s1) txt1 second started1
                   (at_save now')]) →
    back main).
  { intros main Hc1 Hs1 Hm1 Hret. unfold back.
    destruct (Hret (transition main (Advance first) now later s))
      as (txt1 & started1 & Hc2 & Hm2).
    { unfold valid. rewrite Hc1, Hs1. lia. }
    rewrite Hc2, Hm2, Hc1, Hm1, <- app_assoc. split; [lia|].
    by eexists _, _. }
  split; apply Hgen; try done.
  - intros s1 Hv1.
    destruct (transition_retreat second now' later' s1 Hv1)
      as (txt1 & started1 & _ & (H1 & _ & H2) & _).
    by exists txt1, started1.
  - intros s1 Hv1.
    destruct (transition_retreat second now' later' s1 Hv1)
      as (txt1 & started1 & _ & _ & (H1 & _ & H2)).
    by exists txt1, started1.
Qed.

Lemma next_then_previous_witness :
  let s := load SrcApp.main scenario_file (tick 100) (tick 100) in
  current_segment
    (transition SrcApp.main (Retreat "It was sunny.") (tick 107) (tick 107)
       (transition SrcApp.main (Advance "The cat sat on the mat.")
          (tick 105) (tick 105) s))
  = 0%Z.
Proof.
  intros s.
  destruct (next_then_previous "The cat sat on the mat." "It was sunny."
              (tick 105) (tick 105) (tick 107) (tick 107) s)
    as [_ [Hback _]]; [reflexivity|reflexivity|].
  exact Hback.
Defined.

(** The timer after a run in which nothing is touched, while a segment is
    active and no timer runs: it starts at the display of the segment. *)
Lemma idle_run_starts_timer (later : Clock) (s : SessionState) :
  (0 ≤ current_segment s < Z.of_nat (length (segments s)))%Z →
  start_time s = None →
  start_time (App.main (idle later) s).2 = Some (at_display later)
  ∧ start_time (SrcApp.main (idle later) s).2 = Some (at_display later).
Proof.
  intros Hact Hnone. split.
  - destruct (App_main_active (idle later) s Hact)
      as (z & txt & _ & Hsel & _ & ->).
    simpl. unfold start_timer. simpl. by rewrite Hnone.
  - destruct (SrcApp_main_active (idle later) s Hact)
      as (z & txt & _ & Hsel & _ & ->).
    simpl. unfold start_timer. simpl. by rewrite Hnone.
Qed.

(** X17. The time of a record that follows a click on "Next". In
    [src/app.py] the click restarts the script, which displays the next
    segment and starts its timer: the record of that segment holds the
    time from that display to the click that leaves it. In [app.py] the
    click does not restart the script: when the next click comes with no
    run in between, the timer is started by the run of that click itself,
    and the record holds the time that this run took to reach
    [save_metrics]. *)
Theorem edit_time_after_next (first second : string)
    (now later now' later' : Clock) (s : SessionState) :
  valid (Advance first) s = true →
  (current_segment s + 1 < Z.of_nat (length (segments s)))%Z →
  let recorded (main : Run → SessionState → Outcome * SessionState) :=
    edit_time
      <$> last (edit_metrics
                  (transition main (Advance second) now' later'
                     (transition main (Advance first) now later s))) in
  recorded SrcApp.main = Some (at_save now' - at_display later)%float
  ∧ recorded App.main = Some (at_save now' - at_display now')%float.
Proof.
  intros Hv Hnext recorded.
  pose proof (valid_active _ _ Hv) as Hact.
  destruct (App_main_advance first now s Hv)
    as (o & txt & Ho & Htxt & Happ).
  destruct (SrcApp_main_advance first now s Hv) as (txt' & Htxt' & Hsrc).
  rewrite Htxt in Htxt'. injection Htxt' as <-.
  set (s1 := leave 1 txt first now s) in *.
  assert (Hs1 : current_segment s1 = (current_segment s + 1)%Z
                ∧ segments s1 = segments s ∧ start_time s1 = None).
  { unfold s1. by rewrite leave_record. }
  destruct Hs1 as (Hc1 & Hsg1 & Ht1).
  assert (Hact1 : (0 ≤ current_segment s1
                   < Z.of_nat (length (segments s1)))%Z).
  { rewrite Hc1, Hsg1. lia. }
  assert (Hlast : ∀ s2 txt2,
    edit_time <$> last (edit_metrics (leave 1 txt2 second now' s2))
    = Some (at_save now' - default (at_display now') (start_time s2))%float).
  { intros s2 txt2. rewrite leave_record. simpl. by rewrite last_snoc. }
  unfold recorded, transition. split.
  - rewrite (interact_rerun _ _ _ _ _ Hsrc).
    set (s2 := (SrcApp.main (idle later) s1).2).
    destruct (proj2 (idle_run_fields later s1)) as (Hc2 & Hsg2 & _).
    assert (Hv2 : valid (Advance second) s2 = true).
    { unfold valid, s2. rewrite Hc2, Hsg2. lia. }
    destruct (SrcApp_main_advance second now' s2 Hv2) as (txt2 & _ & Hsrc2).
    rewrite (interact_rerun _ _ _ _ _ Hsrc2).
    destruct (proj2 (idle_run_fields later' (leave 1 txt2 second now' s2)))
      as (_ & _ & ->).
    rewrite Hlast. unfold s2.
    by rewrite (proj2 (idle_run_starts_timer later s1 Hact1 Ht1)).
  - rewrite (interact_no_rerun _ _ _ _ _ _ Happ Ho). cbn [snd]. fold s1.
    assert (Hv2 : valid (Advance second) s1 = true).
    { unfold valid. lia. }
    destruct (App_main_advance second now' s1 Hv2)
      as (o2 & txt2 & Ho2 & _ & Happ2).
    rewrite (interact_no_rerun _ _ _ _ _ _ Happ2 Ho2). cbn [snd].
    by rewrite Hlast, Ht1.
Qed.

Lemma edit_time_after_next_witness :
  let s :=
    {| current_segment := 0; segments := ["a"; "b"; "c"];
       edit_metrics := []; start_time := Some 100%float |} in
  let now := {| at_display := 105; at_save := 106 |} in
  let later := {| at_display := 107; at_save := 108 |} in
  let now' := {| at_display := 120; at_save := 121 |} in
  let later' := {| at_display := 122; at_save := 123 |} in
  edit_time
    <$> last (edit_metrics
                (transition SrcApp.main (Advance "b") now' later'
                   (transition SrcApp.main (Advance "a") now later s)))
  = Some 14%float
  ∧ edit_time
      <$> last (edit_metrics
                  (transition App.main (Advance "b") now' later'
                     (transition App.main (Advance "a") now later s)))
    = Some 1%float.
Proof.
  intros s now later now' later'.
  exact (edit_time_after_next "a" "b" now later now' later' s
           eq_refl eq_refl).
Defined.

(** X18. Once every segment has been left, [app.py] is at a dead end:
    every further run of [main] stops at [st.selectbox] with an exception,
    so that the results shown by the run of the last click cannot be shown
    again; [src/app.py] shows the results in every further run. Neither
    changes the session. *)
Theorem complete_session_outcome (rs : list Run) (r : Run) :
  let s := runs App.main rs init_session_state in
  let s' := runs SrcApp.main rs init_session_state in
  (complete s → App.main r s = (Raised StreamlitAPIException, s))
  ∧ (complete s' → SrcApp.main r s' = (Finished true, s')).
Proof.
  intros s s'. split; intros [Hne Hc].
  - apply App_main_outside; [done|lia].
  - rewrite SrcApp_main_complete by (done || lia).
    destruct (sound_session_runs rs) as [_ (_ & _ & Hm)]. fold s' in Hm.
    by rewrite bool_decide_eq_false_2 by (by apply Hm).
Qed.

Lemma complete_session_outcome_witness :
  let upload :=
    {| uploaded_file := Some scenario_file; segment_select := None;
       edit_area := None; prev_segment := false; next_segment := false;
       clock := tick 100 |} in
  let rs := [upload; idle (tick 100);
             run_of (Advance "The cat sat.") (tick 105);
             run_of (Advance "It was sunny.") (tick 107)] in
  let s := runs App.main rs init_session_state in
  let s' := runs SrcApp.main rs init_session_state in
  App.main (idle (tick 110)) s = (Raised StreamlitAPIException, s)
  ∧ SrcApp.main (idle (tick 110)) s' = (Finished true, s').
Proof.
  intros upload rs s s'.
  destruct (complete_session_outcome rs (idle (tick 110))) as [Happ Hsrc].
  split; [apply Happ|apply Hsrc]; (split; [discriminate|reflexivity]).
Defined.

(** X19. A choice in the segment selector does not restart a running
    timer: when the segment chosen is then left with "Next", its record
    holds the time since the timer was started, on the segment that the
    operator came from. This holds in [app.py] and in [src/app.py]. *)
Theorem jump_keeps_timer (target_index : nat) (jump_text next_text : string)
    (now later now' later' : Clock) (started : float) (s : SessionState) :
  valid (Jump target_index jump_text) s = true →
  start_time s = Some started →
  let recorded (main : Run → SessionState → Outcome * SessionState) :=
    (λ m, (segment_id m, edit_time m))
      <$> last (edit_metrics
                  (transition main (Advance next_text) now' later'
                     (transition main (Jump target_index jump_text) now
                        later s))) in
  recorded App.main
  = Some (Z.of_nat target_index, (at_save now' - started)%float)
  ∧ recorded SrcApp.main
    = Some (Z.of_nat target_index, (at_save now' - started)%float).
Proof.
  intros Hv Hstart recorded.
  destruct (transition_jump target_index jump_text now later s Hv)
    as [Happ Hsrc].
  assert (Hs1 : start_timer (at_display now)
                  (set_current_segment (Z.of_nat target_index) s)
                = set_current_segment (Z.of_nat target_index) s).
  { unfold start_timer. simpl. by rewrite Hstart. }
  rewrite Hs1 in Happ, Hsrc.
  set (s1 := set_current_segment (Z.of_nat target_index) s) in *.
  assert (Hv1 : valid (Advance next_text) s1 = true).
  { unfold valid in Hv |- *. unfold s1. simpl.
    apply andb_prop in Hv as [_ Ht]. rewrite Ht, andb_true_r.
    apply Z.leb_le. lia. }
  destruct (transition_advance next_text now' later' s1 Hv1)
    as (txt & started' & _ & -> & (_ & _ & Hm) & (_ & _ & Hm')).
  unfold recorded. rewrite Happ, Hsrc, Hm, Hm', last_snoc.
  simpl. by rewrite Hstart.
Qed.

Lemma jump_keeps_timer_witness :
  let s :=
    {| current_segment := 0; segments := ["a"; "b"; "c"];
       edit_metrics := []; start_time := Some 100%float |} in
  (λ m, (segment_id m, edit_time m))
    <$> last (edit_metrics
                (transition SrcApp.main (Advance "c") (tick 130) (tick 130)
                   (transition SrcApp.main (Jump 2 "a") (tick 120) (tick 120)
                      s)))
  = Some (2%Z, 30%float).
Proof.
  intros s.
  exact (proj2 (jump_keeps_timer 2 "a" "c" (tick 120) (tick 120) (tick 130)
                  (tick 130) 100%float s eq_refl eq_refl)).
Defined.

(** ** [display_results]: edge and agreement of the two variants *)

Lemma display_results_nil round :
  display_results round [] = None ∧ display_results_src round [] = None.
Proof. done. Qed.

(** X20. [display_results] fails exactly on an empty list of records: the
    frame built from no record has no column, so that [app.py] finds no
    [edit_time] column and [src/app.py] no [segment_id] column to drop;
    with one record or more both return their page. *)
Theorem display_results_fails_iff_empty (round : float → Z → float)
    (edit_metrics : list EditMetrics) :
  (display_results round edit_metrics = None ↔ edit_metrics = [])
  ∧ (display_results_src round edit_metrics = None ↔ edit_metrics = []).
Proof.
  destruct (decide (edit_metrics = [])) as [->|Hne].
  { by split. }
  destruct (display_results_some round edit_metrics Hne)
    as (stats & -> & df & _ & _ & _ & ->).
  by split.
Qed.

(** X21. The two variants of [display_results] show the same five
    statistics (the number of segments, the total and the average time,
    the totals of insertions and of deletions) and export the same JSON
    data. [src/app.py] shows one number more, "Total Edits", the [int64]
    sum of the two totals, which [app.py] does not show; and the frame it
    exports is the frame of [app.py] without the [segment_id] column. *)
Theorem display_results_variants (round : float → Z → float)
    (edit_metrics : list EditMetrics) :
  statistics <$> display_results_src round edit_metrics
  = statistics <$> display_results round edit_metrics
  ∧ json_data <$> display_results_src round edit_metrics
    = json_data <$> display_results round edit_metrics
  ∧ (∀ r, display_results round edit_metrics = Some r →
          total_edits r = None)
  ∧ (∀ r, display_results_src round edit_metrics = Some r →
          total_edits r
          = Some (wrap64 (total_insertions (statistics r)
                          + total_deletions (statistics r))))
  ∧ (∀ r r', display_results round edit_metrics = Some r →
             display_results_src round edit_metrics = Some r' →
             drop_column (csv r) "segment_id" = Some (csv r')).
Proof.
  destruct (decide (edit_metrics = [])) as [->|Hne]; [done|].
  destruct (display_results_some round edit_metrics Hne)
    as (stats & -> & df & Hdf & _ & _ & ->).
  split_and!; try done.
  - by intros r [= <-].
  - by intros r [= <-].
  - by intros r r' [= <-] [= <-].
Qed.

Lemma exact_sum_nat (f : EditMetrics → nat) (rs : list EditMetrics) :
  foldr (λ m acc, (Z.of_nat (f m) + acc)%Z) 0%Z rs
  = Z.of_nat (sum_list (f <$> rs)).
Proof.
  induction rs as [|m rs IH]; [done|].
  rewrite fmap_cons. cbn [foldr sum_list_with]. rewrite IH. unfold id. lia.
Qed.

(** X22. For a list of records that is not empty, the page shows the
    number of records as "Total Segments" and, as long as they are below
    2^63, the sums of the insertions and of the deletions of the records
    as "Total Insertions" and "Total Deletions", in [app.py] and in
    [src/app.py]. *)
Theorem totals_are_sums (round : float → Z → float)
    (edit_metrics : list EditMetrics) :
  edit_metrics ≠ [] →
  (Z.of_nat (sum_list (insertions <$> edit_metrics)) < 2 ^ 63)%Z →
  (Z.of_nat (sum_list (deletions <$> edit_metrics)) < 2 ^ 63)%Z →
  let totals (r : Results) :=
    (total_segments (statistics r), total_insertions (statistics r),
     total_deletions (statistics r)) in
  let sums :=
    Some (length edit_metrics,
          Z.of_nat (sum_list (insertions <$> edit_metrics)),
          Z.of_nat (sum_list (deletions <$> edit_metrics))) in
  totals <$> display_results round edit_metrics = sums
  ∧ totals <$> display_results_src round edit_metrics = sums.
Proof.
  intros Hne Hi Hd totals sums.
  assert (Hstats : statistics <$> display_results round edit_metrics
                   = statistics_of (make_frame (vars <$> edit_metrics))).
  { unfold display_results.
    by destruct (statistics_of (make_frame (vars <$> edit_metrics))). }
  assert (Hsrc : statistics <$> display_results_src round edit_metrics
                 = statistics <$> display_results round edit_metrics).
  { destruct (display_results_some round edit_metrics Hne)
      as (stats & -> & df & _ & _ & _ & ->). done. }
  assert (Htot : ∀ r : option Results,
            totals <$> r = (λ st, (total_segments st, total_insertions st,
                                   total_deletions st)) <$> (statistics <$> r)).
  { by intros [r|]. }
  rewrite !Htot, Hsrc, Hstats, (statistics_of_frame _ Hne).
  cbn [fmap option_fmap option_map total_segments total_insertions
       total_deletions].
  rewrite (int_sum_wrap (λ m, Z.of_nat (insertions m))).
  rewrite (int_sum_wrap (λ m, Z.of_nat (deletions m))).
  rewrite !exact_sum_nat, !wrap64_small by lia. done.
Qed.

Lemma totals_are_sums_witness :
  let record (n : nat) :=
    {| segment_id := 0; original := "a"; edited := "a"; edit_time := 1;
       insertions := n; deletions := 2 * n |} in
  let totals (r : Results) :=
    (total_segments (statistics r), total_insertions (statistics r),
     total_deletions (statistics r)) in
  totals <$> display_results (λ x _, x) (record <$> [1; 2; 3])
  = Some (3, 6%Z, 12%Z)
  ∧ totals <$> display_results_src (λ x _, x) (record <$> [1; 2; 3])
    = Some (3, 6%Z, 12%Z).
Proof.
  intros record totals.
  assert (Hne : record <$> [1; 2; 3] ≠ []) by (intros H; inversion H).
  exact (totals_are_sums (λ x _, x) (record <$> [1; 2; 3]) Hne
           eq_refl eq_refl).
Defined.

(** ** [pages/3_Evaluation.py]: the user handed to the database *)

Lemma split_once_from_first (sep : ascii) (n rest : string) : ∀ cur,
  sep ∉ list_ascii_of_string n →
  Py.split_once_from sep cur (n +:+ String sep rest)
  = [string_of_list_ascii (rev cur) +:+ n; rest].
Proof.
  induction n as [|c n IH]; intros cur Hn.
  - change ("" +:+ String sep rest) with (String sep rest). simpl.
    by rewrite Ascii.eqb_refl, append_nil_r.
  - simpl in Hn. apply not_elem_of_cons in Hn as [Hc Hn].
    rewrite append_cons. simpl.
    destruct (Ascii.eqb_spec c sep) as [->|Hne]; [done|].
    rewrite IH by done. simpl. rewrite string_of_list_ascii_app.
    by rewrite append_assoc.
Qed.

Lemma first_separator (sep : ascii) (s : string) :
  sep ∈ list_ascii_of_string s →
  ∃ n rest, s = n +:+ String sep rest ∧ sep ∉ list_ascii_of_string n.
Proof.
  induction s as [|c s IH]; [by intros ?%elem_of_nil|].
  simpl. intros Hin. destruct (decide (c = sep)) as [->|Hne].
  - exists "", s. split; [done|apply not_elem_of_nil].
  - apply elem_of_cons in Hin as [Heq|Hin]; [congruence|].
    destruct (IH Hin) as (n & rest & -> & Hn).
    exists (String c n), rest. split; [done|].
    simpl. rewrite not_elem_of_cons. split; [congruence|done].
Qed.

Lemma append_chars (s1 s2 : string) :
  list_ascii_of_string (s1 +:+ s2)
  = list_ascii_of_string s1 ++ list_ascii_of_string s2.
Proof.
  induction s1 as [|c s1 IH]; [done|]. rewrite append_cons. simpl.
  by rewrite IH.
Qed.

Lemma selected_names (name surname : string) :
  ∃ selected_name selected_surname,
    Py.split_once " " (EvaluationPage.user_option (name, surname))
    = [selected_name; selected_surname]
    ∧ ¬ has_blank selected_name
    ∧ ((selected_name, selected_surname) = (name, surname)
       ↔ ¬ has_blank name).
Proof.
  unfold EvaluationPage.user_option, Py.split_once, has_blank. cbn [fst snd].
  change (name +:+ " " +:+ surname) with (name +:+ String " " surname).
  destruct (decide ((" "%char) ∈ list_ascii_of_string name)) as [Hin|Hout].
  - destruct (first_separator " " name Hin) as (n & rest & -> & Hn).
    rewrite append_assoc, append_cons.
    rewrite split_once_from_first by done.
    eexists _, _. split; [reflexivity|]. split; [done|].
    split; [|done]. intros [= Heq _]. exfalso. apply Hn.
    simpl in Heq. rewrite Heq at 1. rewrite append_chars.
    apply elem_of_app. right. left.
  - rewrite split_once_from_first by done.
    eexists _, _. split; [reflexivity|]. by split.
Qed.

(** X23. The user selector shows "name surname", and the page cuts the
    choice at its first blank to get the two names for the database: that
    always gives two parts, the first without a blank, and they are the
    name and the surname of the user exactly when the name holds no
    blank. *)
Theorem selected_user_round_trip (name surname : string) :
  ∃ selected_name selected_surname,
    Py.split_once " " (EvaluationPage.user_option (name, surname))
    = [selected_name; selected_surname]
    ∧ ¬ has_blank selected_name
    ∧ ((selected_name, selected_surname) = (name, surname)
       ↔ ¬ has_blank name).
Proof. apply selected_names. Qed.

Lemma get_users_names (user_progress : list EvaluationPage.Document)
    (user : string * string) :
  user ∈ EvaluationPage.get_users user_progress →
  ∃ doc, doc ∈ user_progress
         ∧ EvaluationPage.user_name doc = Some user.1
         ∧ EvaluationPage.user_surname doc = Some user.2.
Proof.
  unfold EvaluationPage.get_users. intros Hin.
  apply list_elem_of_omap in Hin as (doc & Hdoc & Huser).
  exists doc. split; [done|].
  destruct (EvaluationPage.user_name doc) as [n|]; [|done].
  destruct (EvaluationPage.user_surname doc) as [s|]; [|done].
  simpl in Huser. by injection Huser as <-.
Qed.

(** X24. The page never fails to cut the selected user in two: whatever
    the documents hold and whatever is selected, unpacking
    [selected_user.split(' ', 1)] into a name and a surname raises no
    [ValueError]. *)
Theorem page_unpacks_selected_user
    (corpus_bleu corpus_chrf corpus_ter
       : list string → list (list string) → float)
    (user_progress : list EvaluationPage.Document) (choice : option nat)
    (reference_file : option Evaluation.Reference) (calculate : bool) :
  is_Some (EvaluationPage.main corpus_bleu corpus_chrf corpus_ter
             user_progress choice reference_file calculate).
Proof.
  unfold EvaluationPage.main. case_bool_decide as Hne; [by eexists|].
  set (users := EvaluationPage.get_users user_progress) in *.
  assert (Hsel : ∃ user,
            default (default "" (head (EvaluationPage.user_option <$> users)))
                (choice ≫= ((EvaluationPage.user_option <$> users) !!.))
            = EvaluationPage.user_option user).
  { destruct (choice ≫= ((EvaluationPage.user_option <$> users) !!.))
      as [opt|] eqn:Hchoice.
    - destruct choice as [i|]; [|done]. simpl in Hchoice.
      apply list_lookup_fmap_Some in Hchoice as (user & -> & Hi).
      by exists user.
    - destruct users as [|user users']; [done|]. by exists user. }
  destruct Hsel as ([name surname] & ->).
  destruct (selected_names name surname) as (n & s & -> & _).
  by eexists.
Qed.

(** X25. When the name of every user holds a blank, no user can be
    evaluated: whoever is selected, the names handed to the database match
    no document, and with a readable reference file the page shows that no
    post-edited translations were found for that user, whatever the
    documents hold. *)
Theorem blank_in_names_hides_users
    (corpus_bleu corpus_chrf corpus_ter
       : list string → list (list string) → float)
    (user_progress : list EvaluationPage.Document) (choice : option nat)
    (references : list string) (calculate : bool) :
  EvaluationPage.get_users user_progress ≠ [] →
  Forall (λ doc, ∀ name, EvaluationPage.user_name doc = Some name →
                   has_blank name) user_progress →
  ∃ user,
    user ∈ EvaluationPage.get_users user_progress
    ∧ EvaluationPage.main corpus_bleu corpus_chrf corpus_ter user_progress
        choice (Some (Evaluation.References references)) calculate
      = Some [Evaluation.Error
                ("No post-edited translations found for "
                 +:+ EvaluationPage.user_option user +:+ ".")].
Proof.
  intros Hne Hblank. unfold EvaluationPage.main.
  rewrite (bool_decide_eq_false_2 _ Hne).
  set (users := EvaluationPage.get_users user_progress) in *.
  assert (Hsel : ∃ user, user ∈ users
            ∧ default (default "" (head (EvaluationPage.user_option <$> users)))
                (choice ≫= ((EvaluationPage.user_option <$> users) !!.))
              = EvaluationPage.user_option user).
  { destruct (choice ≫= ((EvaluationPage.user_option <$> users) !!.))
      as [opt|] eqn:Hchoice.
    - destruct choice as [i|]; [|done]. simpl in Hchoice.
      apply list_lookup_fmap_Some in Hchoice as (user & -> & Hi).
      exists user. split; [by eapply list_elem_of_lookup_2|done].
    - destruct users as [|user users']; [done|].
      exists user. split; [left|done]. }
  destruct Hsel as (user & Huser & ->). exists user. split; [done|].
  destruct user as [name surname].
  destruct (selected_names name surname)
    as (n & s & -> & Hn & _).
  assert (Hnone : EvaluationPage.find_one user_progress n s = None).
  { unfold EvaluationPage.find_one.
    destruct (list_find _ user_progress) as [[i doc]|] eqn:Hfind; [|done].
    apply list_find_Some in Hfind as (Hi & [Hname _] & _).
    exfalso. apply Hn. rewrite Forall_forall in Hblank.
    apply (Hblank doc); [by eapply list_elem_of_lookup_2|done]. }
  unfold EvaluationPage.get_post_edited_translations. rewrite Hnone.
  done.
Qed.

Lemma blank_in_names_hides_users_witness :
  let doc :=
    {| EvaluationPage.user_name := Some "Mary Ann";
       EvaluationPage.user_surname := Some "Lee";
       EvaluationPage.metrics :=
         Some [ {| EvaluationPage.segment_id := Some 0%Z;
                   EvaluationPage.edited := Some "Hello." |} ] |} in
  ∃ user,
    user ∈ EvaluationPage.get_users [doc]
    ∧ EvaluationPage.main (λ _ _, 0%float) (λ _ _, 0%float) (λ _ _, 0%float)
        [doc] None (Some (Evaluation.References ["Hello."])) true
      = Some [Evaluation.Error
                ("No post-edited translations found for "
                 +:+ EvaluationPage.user_option user +:+ ".")].
Proof.
  intros doc.
  apply (blank_in_names_hides_users (λ _ _, 0%float) (λ _ _, 0%float)
           (λ _ _, 0%float) [doc] None ["Hello."] true).
  - discriminate.
  - apply Forall_singleton. intros name [= <-]. unfold has_blank. simpl.
    do 4 right. left.
Defined.

(** ** [get_post_edited_translations] *)

Lemma insert_sorted_perm {X} (x : Z * X) (l : list (Z * X)) :
  EvaluationPage.insert_sorted x l ≡ₚ x :: l.
Proof.
  induction l as [|y l IH]; [done|]. simpl.
  destruct (y.1 <? x.1)%Z; [|done].
  rewrite IH. apply perm_swap.
Qed.

Lemma sorted_perm {X} (l : list (Z * X)) : EvaluationPage.sorted l ≡ₚ l.
Proof.
  induction l as [|x l IH]; [done|]. simpl.
  by rewrite insert_sorted_perm, IH.
Qed.

Lemma insert_sorted_sorted {X} (x : Z * X) (l : list (Z * X)) :
  StronglySorted (λ y z, (y.1 ≤ z.1)%Z) l →
  StronglySorted (λ y z, (y.1 ≤ z.1)%Z) (EvaluationPage.insert_sorted x l).
Proof.
  induction 1 as [|y l Hl IH Hy]; [repeat constructor|]. simpl.
  destruct (Z.ltb_spec y.1 x.1) as [Hlt|Hge].
  - constructor; [done|].
    rewrite insert_sorted_perm. constructor; [lia|done].
  - constructor; [by constructor|].
    constructor; [done|]. eapply Forall_impl; [exact Hy|].
    intros z Hz. simpl in Hz. lia.
Qed.

Lemma sorted_sorted {X} (l : list (Z * X)) :
  StronglySorted (λ y z, (y.1 ≤ z.1)%Z) (EvaluationPage.sorted l).
Proof.
  induction l as [|x l IH]; [constructor|]. simpl.
  by apply insert_sorted_sorted.
Qed.

Lemma insert_sorted_stable {X} (k : Z) (x : Z * X) (l : list (Z * X)) :
  StronglySorted (λ y z, (y.1 ≤ z.1)%Z) l →
  filter (λ y, y.1 = k) (EvaluationPage.insert_sorted x l)
  = filter (λ y, y.1 = k) (x :: l).
Proof.
  induction 1 as [|y l Hl IH Hy]; [done|]. simpl.
  destruct (Z.ltb_spec y.1 x.1) as [Hlt|Hge]; [|done].
  rewrite (filter_cons _ y), IH, !(filter_cons _ x), (filter_cons _ y).
  repeat case_decide; try done. lia.
Qed.

Lemma sorted_stable {X} (k : Z) (l : list (Z * X)) :
  filter (λ y, y.1 = k) (EvaluationPage.sorted l) = filter (λ y, y.1 = k) l.
Proof.
  induction l as [|x l IH]; [done|]. simpl.
  rewrite insert_sorted_stable by apply sorted_sorted.
  by rewrite !filter_cons, IH.
Qed.

Lemma mapM_total {X Y} (f : X → option Y) (g : X → Y) (l : list X) :
  Forall (λ x, f x = Some (g x)) l → mapM f l = Some (g <$> l).
Proof.
  induction 1 as [|x l Hx _ IH]; [done|]. simpl. by rewrite Hx, IH.
Qed.

Lemma filter_fmap_keyed {X} (P : X → Prop) (Q : Z * X → Prop)
    `{!∀ x, Decision (P x)} `{!∀ y, Decision (Q y)} (l : list (Z * X)) :
  Forall (λ y, P y.2 ↔ Q y) l →
  filter P (snd <$> l) = snd <$> filter Q l.
Proof.
  induction 1 as [|y l Hy _ IH]; [done|].
  rewrite fmap_cons, !filter_cons, IH.
  destruct (decide (P y.2)), (decide (Q y)); tauto || done.
Qed.

(** X26. When the first document of the user has metrics, each with a
    [segment_id] and an [edited] text, [get_post_edited_translations]
    returns one text per metric: the [edited] texts in the order of their
    [segment_id], those of the same segment in the order in which they are
    stored. *)
Theorem post_edited_in_segment_order
    (user_progress : list EvaluationPage.Document) (name surname : string)
    (doc : EvaluationPage.Document) (ms : list EvaluationPage.Metric) :
  EvaluationPage.find_one user_progress name surname = Some doc →
  EvaluationPage.metrics doc = Some ms →
  Forall (λ m, is_Some (EvaluationPage.segment_id m)
               ∧ is_Some (EvaluationPage.edited m)) ms →
  ∃ (ordered : list EvaluationPage.Metric) (texts : list string),
    EvaluationPage.get_post_edited_translations user_progress name surname
    = inr texts
    ∧ EvaluationPage.edited <$> ordered = Some <$> texts
    ∧ ordered ≡ₚ ms
    ∧ StronglySorted
        (λ x y, ∃ i j, EvaluationPage.segment_id x = Some i
                       ∧ EvaluationPage.segment_id y = Some j ∧ (i ≤ j)%Z)
        ordered
    ∧ ∀ i, filter (λ m, EvaluationPage.segment_id m = Some i) ordered
           = filter (λ m, EvaluationPage.segment_id m = Some i) ms.
Proof.
  intros Hdoc Hms Hall.
  set (key := λ m, default 0%Z (EvaluationPage.segment_id m)).
  set (keyed := (λ m, (key m, m)) <$> ms).
  assert (Hkeyed : Forall (λ y : Z * EvaluationPage.Metric,
                     EvaluationPage.segment_id y.2 = Some y.1
                     ∧ is_Some (EvaluationPage.edited y.2))
                     (EvaluationPage.sorted keyed)).
  { rewrite sorted_perm. unfold keyed. apply Forall_fmap.
    eapply Forall_impl; [exact Hall|]. intros m [[i Hi] He]. simpl.
    unfold key. by rewrite Hi. }
  assert (Htexts : ∃ texts,
    mapM (λ m : Z * EvaluationPage.Metric, EvaluationPage.edited m.2)
      (EvaluationPage.sorted keyed) = Some texts
    ∧ EvaluationPage.edited <$> (snd <$> EvaluationPage.sorted keyed)
      = Some <$> texts).
  { clear -Hkeyed.
    induction Hkeyed as [|y l [_ [t Ht]] _ (texts & Hm & Hts)].
    - by exists [].
    - exists (t :: texts). cbn [mapM mbind option_bind mret option_ret].
      rewrite Ht, Hm. split; [done|].
      rewrite !fmap_cons, Ht. by rewrite Hts. }
  destruct Htexts as (texts & Hmap & Hts).
  exists (snd <$> EvaluationPage.sorted keyed), texts. split_and!.
  - unfold EvaluationPage.get_post_edited_translations.
    rewrite Hdoc. simpl. rewrite Hms.
    rewrite (mapM_total _ (λ m, (key m, m))).
    + fold keyed. by rewrite Hmap.
    + eapply Forall_impl; [exact Hall|]. intros m [[i Hi] _].
      unfold key. by rewrite Hi.
  - done.
  - rewrite sorted_perm. unfold keyed. rewrite <- list_fmap_compose.
    by rewrite list_fmap_id.
  - pose proof (sorted_sorted keyed) as Hsorted. clear Hmap Hts.
    induction Hsorted as [|y l Hl IH Hy]; [constructor|].
    apply Forall_cons in Hkeyed as [[Hy1 _] Hkeyed].
    rewrite fmap_cons. constructor; [by apply IH|].
    apply Forall_fmap, Forall_forall. intros z Hz.
    rewrite Forall_forall in Hy, Hkeyed.
    destruct (Hkeyed z Hz) as [Hz1 _]. specialize (Hy z Hz).
    by exists y.1, z.1.
  - intros i.
    rewrite (filter_fmap_keyed _ (λ y, y.1 = i)).
    + rewrite sorted_stable. unfold keyed.
      symmetry. rewrite <- (list_fmap_id ms) at 1.
      rewrite (list_fmap_compose (λ m, (key m, m)) snd).
      apply filter_fmap_keyed. apply Forall_fmap.
      eapply Forall_impl; [exact Hall|]. intros m [[j Hj] _]. simpl.
      unfold key. rewrite Hj. simpl. split; congruence.
    + eapply Forall_impl; [exact Hkeyed|]. intros y [Hy _].
      rewrite Hy. split; congruence.
Qed.

Lemma post_edited_in_segment_order_witness :
  let metric (i : Z) (text : string) :=
    {| EvaluationPage.segment_id := Some i;
       EvaluationPage.edited := Some text |} in
  let ms := [metric 1%Z "b"; metric 0%Z "a"; metric 1%Z "c"] in
  let doc :=
    {| EvaluationPage.user_name := Some "Ada";
       EvaluationPage.user_surname := Some "Lovelace";
       EvaluationPage.metrics := Some ms |} in
  ∃ (ordered : list EvaluationPage.Metric) (texts : list string),
    EvaluationPage.get_post_edited_translations [doc] "Ada" "Lovelace"
    = inr texts
    ∧ EvaluationPage.edited <$> ordered = Some <$> texts
    ∧ ordered ≡ₚ ms
    ∧ StronglySorted
        (λ x y, ∃ i j, EvaluationPage.segment_id x = Some i
                       ∧ EvaluationPage.segment_id y = Some j ∧ (i ≤ j)%Z)
        ordered
    ∧ ∀ i, filter (λ m, EvaluationPage.segment_id m = Some i) ordered
           = filter (λ m, EvaluationPage.segment_id m = Some i) ms.
Proof.
  intros metric ms doc.
  apply (post_edited_in_segment_order [doc] "Ada" "Lovelace" doc ms);
    [reflexivity|reflexivity|].
  repeat constructor; by eexists.
Defined.

(** ** The edit times that the clock makes *)


(** For instance, 0.25 s is 2^20 steps of 2^-22 s, while half a step, an
    infinite time, a NaN and -0.0 are not whole numbers of steps. *)
Lemma whole_ticks_examples :
  whole_ticks (-22) 0.25 ∧ ticks (-22) 0.25 = 1048576%Z
  ∧ ¬ whole_ticks (-22) 0x1p-23
  ∧ ¬ whole_ticks (-22) infinity
  ∧ ¬ whole_ticks (-22) nan
  ∧ ¬ whole_ticks (-22) neg_zero.
Proof.
  split_and!; try reflexivity; intros H; vm_compute in H; discriminate H.
Qed.






(** ** The totals of [display_results] when the records are reordered *)


(** The condition on the edit times is needed: binary64 addition rounds,
    and with edit times that no clock yields the total time depends on
    the order. The four times 0, 1, 1 and 2^53 s add up to 2^53 + 2 in
    this order and to 2^53 in another one. *)
Lemma total_time_depends_on_order :
  let record (t : float) :=
    {| segment_id := 0; original := "a"; edited := "a"; edit_time := t;
       insertions := 0; deletions := 0 |} in
  let rs := record <$> [0; 1; 1; 9007199254740992]%float in
  let rs' := record <$> [1; 9007199254740992; 1; 0]%float in
  rs ≡ₚ rs'
  ∧ (total_time ∘ statistics) <$> display_results (λ x _, x) rs
    ≠ (total_time ∘ statistics) <$> display_results (λ x _, x) rs'
  ∧ (total_time ∘ statistics) <$> display_results_src (λ x _, x) rs
    ≠ (total_time ∘ statistics) <$> display_results_src (λ x _, x) rs'.
Proof.
  intros record rs rs'. split_and!.
  - unfold rs, rs'. apply fmap_Permutation.
    etrans; [apply (Permutation_cons_append _ 0%float)|]. simpl.
    apply perm_skip, perm_swap.
  - intros H0. vm_compute in H0. discriminate H0.
  - intros H0. vm_compute in H0. discriminate H0.
Qed.

